(** * OpenTUI SSH gateway: middleware pipeline, authentication and session bridge

    A shallow embedding of [packages/ssh]:
    - [middleware/index.ts]: [compose], [logging], [publicKey], [devMode];
    - [utils/authorized-keys.ts]: [matchesKey];
    - [server.ts]: [handleConnection], [handleAuth], [handleSession];
    - [session.ts]: the flush handler, [handleResize], [_cleanup], [close].

    JavaScript objects that are shared and mutated (the middleware context,
    the closure variables [index], [accepted], [rejected], [authResult]) are
    cells of an explicit state; every function that touches them is a state
    transformer, and a throw leaves the state as it was at the throw.  The
    variable [index] belongs to one invocation of a composed middleware:
    invocations nest, and each has its own.

    What lies outside the package is represented by what it receives:
    - the SSH transport by the calls made on it ([accept], [reject], [exit],
      [end], [write]) and by the values its [accept()] returns;
    - the renderer by the calls made on it; its [idle()] promise and the
      write callback of the channel are settled by events of the environment;
    - event emitters by the list of events emitted, and by what their
      listeners do to the caller of [emit]: the server's [emit("error")]
      throws when no listener is registered, and a listener of the session's
      [close] event may throw.
    Calls on the renderer and on the channel return, except where the code
    provides for their failure: [stream.write] may throw, [renderer.idle()]
    may reject, and [renderer.destroy()] may throw in the handler of that
    promise.

    Numbers are JavaScript numbers, NaN and the infinities included, with
    the comparisons of the language.

    An [await] is a sequential call: one dispatch runs to completion with no
    other event interleaved, which is how the single-threaded event loop runs
    a chain whose members await [next].  A middleware may also call [next]
    and swallow its rejection. *)

From Stdlib Require Import List Ascii String ZArith Bool Arith Lia.
Import ListNotations.
Open Scope string_scope.
Open Scope list_scope.

(* ===================================================================== *)
(** ** Errors and results *)

(** A JavaScript [Error] value, identified by its message. *)
Inductive JsError : Type :=
| Error (message : string).

(** The error [dispatch] throws when [next] is called again. *)
Definition reentrant_next : JsError := Error "next() called multiple times".

(** Outcome of an awaited call: it resolves or it rejects (throws). *)
Inductive Result (A : Type) : Type :=
| Ok (a : A)
| Thrown (e : JsError).
Arguments Ok {A} a.
Arguments Thrown {A} e.

(* ===================================================================== *)
(** ** Numbers *)

(** A JavaScript [number]: NaN, an infinity, or a finite value.  A finite
    double is a dyadic rational and is kept as [m * 2^e]; the integers are
    the values with [e = 0]. *)
Inductive JsNumber : Type :=
| NaN
| PosInfinity
| NegInfinity
| Finite (m e : Z).

Definition js_of_Z (z : Z) : JsNumber := Finite z 0.

Definition js_to_Z (n : JsNumber) : option Z :=
  match n with
  | Finite m 0 => Some m
  | _ => None
  end.

Declare Scope jsnum_scope.
Delimit Scope jsnum_scope with num.
Bind Scope jsnum_scope with JsNumber.
Number Notation JsNumber js_of_Z js_to_Z : jsnum_scope.

(** [m1 * 2^e1 < m2 * 2^e2], both sides scaled by the smaller exponent. *)
Definition dyadic_ltb (m1 e1 m2 e2 : Z) : bool :=
  let e := Z.min e1 e2 in
  (m1 * 2 ^ (e1 - e) <? m2 * 2 ^ (e2 - e))%Z.

(** [a < b] on numbers: false as soon as an operand is NaN. *)
Definition js_lt (a b : JsNumber) : bool :=
  match a, b with
  | NaN, _ | _, NaN => false
  | PosInfinity, _ => false
  | _, NegInfinity => false
  | NegInfinity, _ => true
  | _, PosInfinity => true
  | Finite m1 e1, Finite m2 e2 => dyadic_ltb m1 e1 m2 e2
  end.

(** [a > b] *)
Definition js_gt (a b : JsNumber) : bool := js_lt b a.

(** [a <= b]: false as soon as an operand is NaN, else the negation of
    [b < a]. *)
Definition js_le (a b : JsNumber) : bool :=
  match a, b with
  | NaN, _ | _, NaN => false
  | _, _ => negb (js_lt b a)
  end.

Definition is_nan (n : JsNumber) : bool :=
  match n with NaN => true | _ => false end.

(* ===================================================================== *)
(** ** Data of [types.ts] and of the transport *)

Inductive MiddlewarePhase : Type := auth | session.

Record PublicKey : Type := {
  algo : string;
  data : string  (* the key blob, already in base64 *)
}.

Record UserInfo : Type := {
  user_username : string;
  user_publicKey : option string
}.

Record AuthorizedKey : Type := {
  key_type : string;
  key : string;
  comment : option string
}.

(** What the SSH transport receives on one authentication context:
    [ctx.accept()] or [ctx.reject(allowedMethods?)]. *)
Inductive TransportCall : Type :=
| TAccept
| TReject (allowedMethods : option (list string)).

(** Events emitted by the server ([this.emit]). *)
Inductive ServerEvent : Type :=
| EvError (err : JsError).

(** Marks pushed by test middlewares ([order.push]). *)
Inductive Label : Type :=
| Before (i : nat)
| After (i : nat)
| Final
| Note (s : string).

(** Calls received by user supplied hooks, in order.  A hook is opaque: it is
    identified by a number and only its invocation is recorded. *)
Inductive Obs : Type :=
| Pushed (l : Label)
| AuthAttempt (hook : nat) (username : string) (accepted : bool)
| Connect (hook : nat) (username : string)
| Disconnect (hook : nat) (username : string).

(* ===================================================================== *)
(** ** The mutable store of one connection *)

(** Besides the variables of the connection the store holds what the server
    object contributes to an attempt: the events it has emitted and whether a
    listener for its ["error"] event is registered. *)

Record World : Type := {
  transport : list TransportCall;      (* calls made on the transport, oldest first *)
  authenticatedUser : option UserInfo; (* [handleConnection]: let authenticatedUser *)
  accepted : bool;                     (* [handleAuth]: let accepted *)
  rejected : bool;                     (* [handleAuth]: let rejected *)
  authResult : list (option bool);     (* [logging]: one [authResult] per activation *)
  observed : list Obs;                 (* hook invocations, oldest first *)
  emitted : list ServerEvent;          (* server events, oldest first *)
  closeListeners : list nat;           (* connection.on("close", ...) registrations *)
  errorListener : bool                 (* the server has a listener for "error" *)
}.

(** A new connection to a server set up as in the README, which registers a
    listener for ["error"]. *)
Definition empty_world : World :=
  {| transport := []; authenticatedUser := None; accepted := false;
     rejected := false; authResult := []; observed := []; emitted := [];
     closeListeners := []; errorListener := true |}.

Definition set_transport (v : list TransportCall) (w : World) : World :=
  {| transport := v; authenticatedUser := authenticatedUser w;
     accepted := accepted w; rejected := rejected w;
     authResult := authResult w; observed := observed w;
     emitted := emitted w; closeListeners := closeListeners w;
     errorListener := errorListener w |}.

Definition set_authenticatedUser (v : option UserInfo) (w : World) : World :=
  {| transport := transport w; authenticatedUser := v;
     accepted := accepted w; rejected := rejected w;
     authResult := authResult w; observed := observed w;
     emitted := emitted w; closeListeners := closeListeners w;
     errorListener := errorListener w |}.

Definition set_accepted (v : bool) (w : World) : World :=
  {| transport := transport w; authenticatedUser := authenticatedUser w;
     accepted := v; rejected := rejected w;
     authResult := authResult w; observed := observed w;
     emitted := emitted w; closeListeners := closeListeners w;
     errorListener := errorListener w |}.

Definition set_rejected (v : bool) (w : World) : World :=
  {| transport := transport w; authenticatedUser := authenticatedUser w;
     accepted := accepted w; rejected := v;
     authResult := authResult w; observed := observed w;
     emitted := emitted w; closeListeners := closeListeners w;
     errorListener := errorListener w |}.

Definition set_authResult (v : list (option bool)) (w : World) : World :=
  {| transport := transport w; authenticatedUser := authenticatedUser w;
     accepted := accepted w; rejected := rejected w;
     authResult := v; observed := observed w;
     emitted := emitted w; closeListeners := closeListeners w;
     errorListener := errorListener w |}.

Definition set_observed (v : list Obs) (w : World) : World :=
  {| transport := transport w; authenticatedUser := authenticatedUser w;
     accepted := accepted w; rejected := rejected w;
     authResult := authResult w; observed := v;
     emitted := emitted w; closeListeners := closeListeners w;
     errorListener := errorListener w |}.

Definition set_emitted (v : list ServerEvent) (w : World) : World :=
  {| transport := transport w; authenticatedUser := authenticatedUser w;
     accepted := accepted w; rejected := rejected w;
     authResult := authResult w; observed := observed w;
     emitted := v; closeListeners := closeListeners w;
     errorListener := errorListener w |}.

Definition set_closeListeners (v : list nat) (w : World) : World :=
  {| transport := transport w; authenticatedUser := authenticatedUser w;
     accepted := accepted w; rejected := rejected w;
     authResult := authResult w; observed := observed w;
     emitted := emitted w; closeListeners := v;
     errorListener := errorListener w |}.


(** The transport primitives of ssh2's [AuthContext]. *)
Definition native_accept (w : World) : World :=
  set_transport (transport w ++ [TAccept]) w.

Definition native_reject (allowedMethods : option (list string)) (w : World) : World :=
  set_transport (transport w ++ [TReject allowedMethods]) w.

Definition observe (o : Obs) (w : World) : World :=
  set_observed (observed w ++ [o]) w.

(** [this.emit(...)] on the server is recorded as the event emitted. *)
Definition emit (e : ServerEvent) (w : World) : World :=
  set_emitted (emitted w ++ [e]) w.

(** [this.emit("error", err)].  An [EventEmitter] with no listener for
    ["error"] throws [err] at the caller of [emit]. *)
Definition emit_error (err : JsError) (w : World) : Result unit * World :=
  (if errorListener w then Ok tt else Thrown err, emit (EvError err) w).

(** Assignment to the [authResult] variable held in cell [k]. *)
Fixpoint write_cell (k : nat) (v : option bool) (cells : list (option bool))
  : list (option bool) :=
  match cells, k with
  | [], _ => []
  | _ :: rest, O => v :: rest
  | c :: rest, S k' => c :: write_cell k' v rest
  end.

Definition assign_authResult (k : nat) (v : bool) (w : World) : World :=
  set_authResult (write_cell k (Some v) (authResult w)) w.

(* ===================================================================== *)
(** ** The middleware context and the dispatch state *)

(** [MiddlewareContext].  [accept] and [reject] are slots that a middleware
    may reassign ([logging] does); the closures stored there act on the
    store.  [connection] is represented by the [closeListeners] it collects;
    [state] and [log] play no part in the decisions modelled here. *)
Record MiddlewareContext : Type := {
  phase : MiddlewarePhase;
  username : string;
  clientKey : option PublicKey;
  remoteAddress : string;
  accept : option (World -> World);
  reject : option (option (list string) -> World -> World)
}.

Definition set_accept (v : option (World -> World)) (c : MiddlewareContext)
  : MiddlewareContext :=
  {| phase := phase c; username := username c; clientKey := clientKey c;
     remoteAddress := remoteAddress c; accept := v; reject := reject c |}.

Definition set_reject (v : option (option (list string) -> World -> World))
  (c : MiddlewareContext) : MiddlewareContext :=
  {| phase := phase c; username := username c; clientKey := clientKey c;
     remoteAddress := remoteAddress c; accept := accept c; reject := v |}.

(** State seen by one dispatch: the shared context object, the store, and
    the local variable [index] of the invocation of a composed middleware
    that is running.  [index] is a variable of each invocation: while an
    invocation runs inside another (a composed middleware used as a member
    of a chain), the variables of the enclosing invocations wait in
    [frames], innermost first.  [next_calls] is a ghost log that records
    which activation of the invocation last started invoked its [next]
    closure (the code never reads it). *)
Record St : Type := {
  ctx : MiddlewareContext;
  world : World;
  index : Z;
  next_calls : list nat;
  frames : list Z
}.

Definition set_ctx (v : MiddlewareContext) (s : St) : St :=
  {| ctx := v; world := world s; index := index s; next_calls := next_calls s;
     frames := frames s |}.

Definition set_world (v : World) (s : St) : St :=
  {| ctx := ctx s; world := v; index := index s; next_calls := next_calls s;
     frames := frames s |}.

Definition set_index (v : Z) (s : St) : St :=
  {| ctx := ctx s; world := world s; index := v; next_calls := next_calls s;
     frames := frames s |}.

Definition set_next_calls (v : list nat) (s : St) : St :=
  {| ctx := ctx s; world := world s; index := index s; next_calls := v;
     frames := frames s |}.

Definition set_frames (v : list Z) (s : St) : St :=
  {| ctx := ctx s; world := world s; index := index s; next_calls := next_calls s;
     frames := v |}.

(* ===================================================================== *)
(** ** A state monad whose state survives a throw *)

Definition M (A : Type) : Type := St -> Result A * St.

Definition ret {A : Type} (a : A) : M A := fun s => (Ok a, s).

Definition throw {A : Type} (e : JsError) : M A := fun s => (Thrown e, s).

Definition bind {A B : Type} (m : M A) (k : A -> M B) : M B :=
  fun s =>
    match m s with
    | (Ok a, s') => k a s'
    | (Thrown e, s') => (Thrown e, s')
    end.

Declare Scope js_scope.
Delimit Scope js_scope with js.
Notation "x <- m ;; k" := (bind m (fun x => k))
  (at level 100, m at next level, right associativity) : js_scope.
Notation "m ;; k" := (bind m (fun _ => k))
  (at level 100, right associativity) : js_scope.
Open Scope js_scope.

Definition modify_world (f : World -> World) : M unit :=
  fun s => (Ok tt, set_world (f (world s)) s).

Definition modify_ctx (f : MiddlewareContext -> MiddlewareContext) : M unit :=
  fun s => (Ok tt, set_ctx (f (ctx s)) s).

Definition get_ctx : M MiddlewareContext := fun s => (Ok (ctx s), s).

Definition get_world : M World := fun s => (Ok (world s), s).

(** [NextFn] and [Middleware] of [types.ts]; the context argument is the
    [ctx] cell of the state. *)
Definition NextFn : Type := M unit.
Definition Middleware : Type := NextFn -> M unit.

(** [ctx.accept?.()] *)
Definition call_accept : M unit :=
  c <- get_ctx ;;
  match accept c with
  | Some f => modify_world f
  | None => ret tt
  end.

(** [ctx.reject?.(allowedMethods)] *)
Definition call_reject (allowedMethods : option (list string)) : M unit :=
  c <- get_ctx ;;
  match reject c with
  | Some f => modify_world (f allowedMethods)
  | None => ret tt
  end.

(* ===================================================================== *)
(** ** [compose] *)

(** The closure [() => dispatch(i + 1)] handed to middleware [i]; the first
    line is the ghost record of the call. *)
Definition next_closure (i : nat) (dispatch_succ : M unit) : NextFn :=
  fun s => dispatch_succ (set_next_calls (next_calls s ++ [i]) s).

(** [dispatch(i)].  [rest] is the part of [middlewares] from position [i] on,
    so that [middlewares[i]] is its head and a missing entry is [[]]. *)
Fixpoint dispatch (rest : list Middleware) (next : NextFn) (i : nat) : M unit :=
  fun s =>
    if (Z.of_nat i <=? index s)%Z then (Thrown reentrant_next, s)
    else
      let s := set_index (Z.of_nat i) s in
      match rest with
      | [] => next s
      | fn :: rest' => fn (next_closure i (dispatch rest' next (S i))) s
      end.

(** [let index = -1]: an invocation of the composed middleware starts with a
    variable of its own; the variable of the invocation it was called from,
    if any, is set aside. *)
Definition enter_frame (s : St) : St :=
  set_next_calls [] (set_index (-1) (set_frames (index s :: frames s) s)).

(** The invocation returns to its caller. *)
Definition leave_frame (s : St) : St :=
  match frames s with
  | [] => s
  | outer :: rest => set_index outer (set_frames rest s)
  end.

(** The [next] that the composed middleware was called with belongs to its
    caller: it runs on the caller's variables, and the invocation finds its
    own again when [next] has returned. *)
Definition in_caller_frame (next : NextFn) : NextFn :=
  fun s =>
    match frames s with
    | [] => next s
    | outer :: rest =>
        let '(r, s') := next (set_index outer (set_frames rest s)) in
        (r, set_index (index s) (set_frames (index s' :: frames s') s'))
    end.

Definition compose (middlewares : list Middleware) : Middleware :=
  fun next s =>
    let '(r, s') := dispatch middlewares (in_caller_frame next) 0 (enter_frame s) in
    (r, leave_frame s').

(* ===================================================================== *)
(** ** Middleware bodies *)

(** [try { await next() } catch {}]: the call is made and its rejection, if
    any, goes no further.  A call of [next] whose promise is dropped, neither
    awaited nor returned, comes to the same when the call faults at once, as
    a repeated call does. *)
Definition try_next (next : NextFn) : M unit :=
  fun s => (Ok tt, snd (next s)).

(** What a hand written middleware does, statement by statement: push a mark,
    [await next()], call [next] and swallow its rejection, call a capability
    of the context, or throw.  These are the statements of the middlewares of
    this package and of its tests, and the two ways of calling [next]. *)
Inductive Instr : Type :=
| Push (l : Label)
| AwaitNext
| TryNext
| CallAccept
| CallReject (allowedMethods : option (list string))
| Throw (e : JsError).

Definition Script : Type := list Instr.

Definition exec_instr (ins : Instr) (next : NextFn) : M unit :=
  match ins with
  | Push l => modify_world (observe (Pushed l))
  | AwaitNext => next
  | TryNext => try_next next
  | CallAccept => call_accept
  | CallReject allowedMethods => call_reject allowedMethods
  | Throw e => throw e
  end.

Fixpoint exec_script (body : Script) (next : NextFn) : M unit :=
  match body with
  | [] => ret tt
  | ins :: body' => exec_instr ins next ;; exec_script body' next
  end.

(** [LoggingOptions]: each hook is absent or present (with its identity). *)
Record LoggingOptions : Type := {
  onAuthAttempt : option nat;
  onConnect : option nat;
  onDisconnect : option nat
}.

(** [logging(options)].  In the auth phase the two capability slots are
    replaced by closures that assign this activation's [authResult] before
    calling the closure found in the slot. *)
Definition logging (options : LoggingOptions) : Middleware :=
  fun next =>
    c <- get_ctx ;;
    match phase c with
    | auth =>
        let originalAccept := accept c in
        let originalReject := reject c in
        w <- get_world ;;
        let cell := List.length (authResult w) in
        modify_world (fun w => set_authResult (authResult w ++ [None]) w) ;;
        match originalAccept with
        | Some f =>
            modify_ctx (set_accept (Some (fun w => f (assign_authResult cell true w))))
        | None => ret tt
        end ;;
        match originalReject with
        | Some f =>
            modify_ctx (set_reject (Some (fun allowedMethods w =>
                          f allowedMethods (assign_authResult cell false w))))
        | None => ret tt
        end ;;
        next ;;
        w' <- get_world ;;
        c' <- get_ctx ;;
        match nth cell (authResult w') None, onAuthAttempt options with
        | Some r, Some hook => modify_world (observe (AuthAttempt hook (username c') r))
        | _, _ => ret tt
        end
    | session =>
        match onConnect options with
        | Some hook => modify_world (observe (Connect hook (username c)))
        | None => ret tt
        end ;;
        match onDisconnect options with
        | Some hook =>
            modify_world (fun w => set_closeListeners (closeListeners w ++ [hook]) w)
        | None => ret tt
        end ;;
        next
    end.

(** [matchesKey] of [utils/authorized-keys.ts]. *)
Definition matchesKey (clientKeyType clientKeyData : string)
  (authorizedKeys : list AuthorizedKey) : bool :=
  existsb (fun ak => String.eqb (key_type ak) clientKeyType
                     && String.eqb (key ak) clientKeyData) authorizedKeys.

(** [publicKey(options)], from the point where the keys are parsed. *)
Definition publicKey (parsedAuthorizedKeys : list AuthorizedKey) : Middleware :=
  fun next =>
    c <- get_ctx ;;
    match phase c with
    | session => next
    | auth =>
        match clientKey c with
        | None => next
        | Some k =>
            (if matchesKey (algo k) (data k) parsedAuthorizedKeys
             then call_accept
             else call_reject (Some ["publickey"])) ;;
            next
        end
    end.

(** [devMode()] *)
Definition devMode : Middleware :=
  fun next =>
    c <- get_ctx ;;
    match phase c, accept c with
    | auth, Some f => modify_world f
    | _, _ => ret tt
    end ;;
    next.

(** The middlewares a configuration can list. *)
Inductive MwSpec : Type :=
| User (body : Script)
| Logging (options : LoggingOptions)
| PublicKeyAuth (parsedAuthorizedKeys : list AuthorizedKey)
| DevMode.

Definition middleware_of (m : MwSpec) : Middleware :=
  match m with
  | User body => exec_script body
  | Logging options => logging options
  | PublicKeyAuth keys => publicKey keys
  | DevMode => devMode
  end.

(* ===================================================================== *)
(** ** [SSHServer]: the authentication phase *)

(** ssh2's [AuthContext]: the attempt and its two primitives.  [a_accept] is a
    slot: [handleConnection] replaces it before [handleAuth] runs. *)
Record AuthContext : Type := {
  a_username : string;
  a_method : string;
  a_key : option PublicKey;
  a_accept : World -> World;
  a_reject : option (list string) -> World -> World
}.

(** The context as the transport hands it over. *)
Definition transport_context (user method : string) (k : option PublicKey)
  : AuthContext :=
  {| a_username := user; a_method := method; a_key := k;
     a_accept := native_accept; a_reject := native_reject |}.

(** [this.middleware] as the constructor builds it from [config.middleware]. *)
Definition server_middleware (config_middleware : list MwSpec) : Middleware :=
  match config_middleware with
  | [] => fun next => next
  | _ => compose (map middleware_of config_middleware)
  end.

Definition userinfo_of (c : AuthContext) : UserInfo :=
  {| user_username := a_username c;
     user_publicKey :=
       if String.eqb (a_method c) "publickey"
       then match a_key c with Some k => Some (algo k) | None => None end
       else None |}.

(** The terminal continuation of [handleAuth]. *)
Definition default_reject (c : AuthContext) : NextFn :=
  w <- get_world ;;
  if negb (accepted w) && negb (rejected w)
  then modify_world (a_reject c (Some ["publickey"]))
  else ret tt.

(** [handleAuth(ctx, remoteAddress, connection)] *)
Definition handleAuth (config_middleware : list MwSpec) (c : AuthContext)
  (remote : string) (w : World) : Result (option UserInfo) * World :=
  let middlewareCtx :=
    {| phase := auth;
       username := a_username c;
       clientKey := if String.eqb (a_method c) "publickey" then a_key c else None;
       remoteAddress := remote;
       accept := Some (fun w => a_accept c (set_accepted true w));
       reject := Some (fun allowedMethods w =>
                         a_reject c allowedMethods (set_rejected true w)) |} in
  let w0 := set_rejected false (set_accepted false w) in
  let s0 := {| ctx := middlewareCtx; world := w0; index := (-1)%Z; next_calls := [];
          frames := [] |} in
  match server_middleware config_middleware (default_reject c) s0 with
  | (Ok _, s) =>
      (Ok (if accepted (world s) then Some (userinfo_of c) else None), world s)
  | (Thrown e, s) => (Thrown e, world s)
  end.

(** The replacement of [ctx.accept] made by the ["authentication"] listener:
    [authenticatedUser] is set before the transport's accept runs. *)
Definition wrap_accept (c : AuthContext) : AuthContext :=
  let originalAccept := a_accept c in
  {| a_username := a_username c; a_method := a_method c; a_key := a_key c;
     a_accept := fun w =>
       originalAccept (set_authenticatedUser (Some (userinfo_of c)) w);
     a_reject := a_reject c |}.

(** The ["authentication"] listener installed by [handleConnection].  The
    handler given to [catch] emits the error and then rejects the attempt;
    when [emit] throws, for want of a listener, the handler ends there: the
    promise it belongs to is rejected with nobody to handle it, and
    [ctx.reject()] is not called. *)
Definition on_authentication (config_middleware : list MwSpec) (remote : string)
  (c : AuthContext) (w : World) : World :=
  let c' := wrap_accept c in
  match handleAuth config_middleware c' remote w with
  | (Ok _, w') => w'
  | (Thrown err, w') =>
      match emit_error err w' with
      | (Ok _, w'') => a_reject c' None w''
      | (Thrown _, w'') => w''
      end
  end.

(** One attempt as the transport delivers it, from a fresh store. *)
Definition attempt (config_middleware : list MwSpec) (user method : string)
  (k : option PublicKey) : World :=
  on_authentication config_middleware "127.0.0.1"
    (transport_context user method k) empty_world.

(* ===================================================================== *)
(** ** [SSHServer.handleSession]: pty, shell and exec requests *)

Record PtyInfo : Type := {
  term : string;
  width : JsNumber;
  height : JsNumber
}.

(** What one ssh2 session and its channels receive from the server, and what
    the server starts, oldest first.  Channels are numbered by the transport. *)
Inductive SessionAction : Type :=
| PtyAccept
| ShellReject
| ShellAccept
| ExecAccept
| SessionDispatch (user : string)
| SessionCreate (channel : nat) (pty : PtyInfo) (user : UserInfo)
| ConsoleLog (message : string)
| ChannelExit (channel : nat) (code : Z)
| ChannelEnd (channel : nat).

Record SessionRequests : Type := {
  ptyInfo : option PtyInfo;        (* let ptyInfo *)
  actions : list SessionAction;
  conn : World                     (* the store of the connection *)
}.

Definition act (a : list SessionAction) (r : SessionRequests) : SessionRequests :=
  {| ptyInfo := ptyInfo r; actions := actions r ++ a; conn := conn r |}.

(** The ["pty"] listener: [info.term ?? "xterm"], [info.cols], [info.rows].
    The transport decodes the columns and rows of a request as unsigned
    integers. *)
Definition on_pty (has_accept : bool) (info_term : option string) (cols rows : Z)
  (r : SessionRequests) : SessionRequests :=
  let r' :=
    {| ptyInfo := Some {| term := match info_term with Some t => t | None => "xterm" end;
                          width := js_of_Z cols; height := js_of_Z rows |};
       actions := actions r; conn := conn r |} in
  if has_accept then act [PtyAccept] r' else r'.

(** The session phase dispatch started by the ["shell"] listener; a throw is
    reported as an [error] event.  The call of [emit] is the last statement
    of the handler, so that nothing depends on whether it throws. *)
Definition session_dispatch (config_middleware : list MwSpec) (user : UserInfo)
  (remote : string) (w : World) : World :=
  let middlewareCtx :=
    {| phase := session; username := user_username user; clientKey := None;
       remoteAddress := remote; accept := None; reject := None |} in
  let s0 := {| ctx := middlewareCtx; world := w; index := (-1)%Z; next_calls := [];
          frames := [] |} in
  match server_middleware config_middleware (ret tt) s0 with
  | (Ok _, s) => world s
  | (Thrown err, s) => snd (emit_error err (world s))
  end.

(** The ["shell"] listener.  [accepted_stream] is what the transport's
    [accept()] returns; [SessionCreate] stands for the call of
    [SSHSession.create], whose promise settles later. *)
Definition on_shell (config_middleware : list MwSpec) (requirePty : bool)
  (user : UserInfo) (remote : string) (has_reject : bool)
  (accepted_stream : option nat) (r : SessionRequests) : SessionRequests :=
  match requirePty, ptyInfo r with
  | true, None => if has_reject then act [ShellReject] r else r
  | _, _ =>
      let r1 := act [ShellAccept] r in
      match accepted_stream with
      | None => r1
      | Some stream =>
          let r2 :=
            {| ptyInfo := ptyInfo r1;
               actions := actions r1 ++ [SessionDispatch (user_username user)];
               conn := session_dispatch config_middleware user remote (conn r1) |} in
          let finalPty :=
            match ptyInfo r2 with
            | Some p => p
            | None => {| term := "xterm"; width := 80; height := 24 |}
            end in
          act [SessionCreate stream finalPty user] r2
      end
  end.

(** The text logged for an exec request. *)
Definition exec_message (info_command : option string) : string :=
  let command := match info_command with Some c => c | None => "<unknown>" end in
  ("[SSH] exec request not supported (command: " ++ substring 0 50 command
   ++ (if (50 <? String.length command)%nat then "..." else EmptyString)
   ++ ")")%string.

(** The ["exec"] listener. *)
Definition on_exec (accepted_stream : option nat) (info_command : option string)
  (r : SessionRequests) : SessionRequests :=
  let r1 := act [ExecAccept] r in
  match accepted_stream with
  | Some stream =>
      act [ConsoleLog (exec_message info_command);
           ChannelExit stream 1; ChannelEnd stream] r1
  | None => r1
  end.

(** An action that belongs to the shell phase of a session. *)
Definition shell_phase (a : SessionAction) : bool :=
  match a with
  | ShellAccept | SessionDispatch _ | SessionCreate _ _ _ => true
  | _ => false
  end.

(* ===================================================================== *)
(** ** [SSHSession]: the bridge between a channel and the renderer *)

Inductive StreamCall : Type :=
| SWrite (flush : nat) (buffer : list nat)
| SExit (code : JsNumber)
| SEnd.

Inductive RendererCall : Type :=
| RInjectInput (input : list nat)
| RResize (w h : JsNumber)
| RStop
| RIdle
| RDestroy.

Inductive SessionEvent : Type :=
| SessClose
| SessResize (w h : JsNumber).

(** Which teardown attached its handlers to a pending [renderer.idle()]. *)
Inductive Teardown : Type := FromCleanup | FromClose.

(** What [stream.write(out, callback)] does at the call: it throws, or it
    takes the chunk and keeps [callback] until the write completes. *)
Inductive WriteOutcome : Type :=
| WriteThrows (message : string)
| WriteQueued.

(** One session.  [flushes] numbers the invocations of the flush handler, so
    that [done_calls] and [pending_writes] can name the [done] of each. *)
Record Session : Type := {
  closed : bool;                    (* _closed *)
  pty : PtyInfo;                    (* _pty *)
  writable : bool;                  (* stream.writable *)
  stream_calls : list StreamCall;
  renderer_calls : list RendererCall;
  session_events : list SessionEvent;   (* this.emit *)
  pending_writes : list nat;        (* write callbacks held by the stream *)
  pending_idle : list Teardown;     (* idle() promises not yet settled *)
  done_calls : list nat;            (* calls of done, by flush *)
  flushes : nat;
  console : list string             (* console.error *)
}.

Definition new_session (ptyInfo : PtyInfo) : Session :=
  {| closed := false; pty := ptyInfo; writable := true; stream_calls := [];
     renderer_calls := []; session_events := []; pending_writes := [];
     pending_idle := []; done_calls := []; flushes := 0; console := [] |}.

Definition set_closed (v : bool) (s : Session) : Session :=
  {| closed := v; pty := pty s; writable := writable s;
     stream_calls := stream_calls s; renderer_calls := renderer_calls s;
     session_events := session_events s; pending_writes := pending_writes s;
     pending_idle := pending_idle s; done_calls := done_calls s;
     flushes := flushes s; console := console s |}.

Definition set_pty (v : PtyInfo) (s : Session) : Session :=
  {| closed := closed s; pty := v; writable := writable s;
     stream_calls := stream_calls s; renderer_calls := renderer_calls s;
     session_events := session_events s; pending_writes := pending_writes s;
     pending_idle := pending_idle s; done_calls := done_calls s;
     flushes := flushes s; console := console s |}.

Definition set_writable (v : bool) (s : Session) : Session :=
  {| closed := closed s; pty := pty s; writable := v;
     stream_calls := stream_calls s; renderer_calls := renderer_calls s;
     session_events := session_events s; pending_writes := pending_writes s;
     pending_idle := pending_idle s; done_calls := done_calls s;
     flushes := flushes s; console := console s |}.

Definition set_stream_calls (v : list StreamCall) (s : Session) : Session :=
  {| closed := closed s; pty := pty s; writable := writable s;
     stream_calls := v; renderer_calls := renderer_calls s;
     session_events := session_events s; pending_writes := pending_writes s;
     pending_idle := pending_idle s; done_calls := done_calls s;
     flushes := flushes s; console := console s |}.

Definition set_renderer_calls (v : list RendererCall) (s : Session) : Session :=
  {| closed := closed s; pty := pty s; writable := writable s;
     stream_calls := stream_calls s; renderer_calls := v;
     session_events := session_events s; pending_writes := pending_writes s;
     pending_idle := pending_idle s; done_calls := done_calls s;
     flushes := flushes s; console := console s |}.

Definition set_session_events (v : list SessionEvent) (s : Session) : Session :=
  {| closed := closed s; pty := pty s; writable := writable s;
     stream_calls := stream_calls s; renderer_calls := renderer_calls s;
     session_events := v; pending_writes := pending_writes s;
     pending_idle := pending_idle s; done_calls := done_calls s;
     flushes := flushes s; console := console s |}.

Definition set_pending_writes (v : list nat) (s : Session) : Session :=
  {| closed := closed s; pty := pty s; writable := writable s;
     stream_calls := stream_calls s; renderer_calls := renderer_calls s;
     session_events := session_events s; pending_writes := v;
     pending_idle := pending_idle s; done_calls := done_calls s;
     flushes := flushes s; console := console s |}.

Definition set_pending_idle (v : list Teardown) (s : Session) : Session :=
  {| closed := closed s; pty := pty s; writable := writable s;
     stream_calls := stream_calls s; renderer_calls := renderer_calls s;
     session_events := session_events s; pending_writes := pending_writes s;
     pending_idle := v; done_calls := done_calls s;
     flushes := flushes s; console := console s |}.

Definition set_done_calls (v : list nat) (s : Session) : Session :=
  {| closed := closed s; pty := pty s; writable := writable s;
     stream_calls := stream_calls s; renderer_calls := renderer_calls s;
     session_events := session_events s; pending_writes := pending_writes s;
     pending_idle := pending_idle s; done_calls := v;
     flushes := flushes s; console := console s |}.

Definition set_flushes (v : nat) (s : Session) : Session :=
  {| closed := closed s; pty := pty s; writable := writable s;
     stream_calls := stream_calls s; renderer_calls := renderer_calls s;
     session_events := session_events s; pending_writes := pending_writes s;
     pending_idle := pending_idle s; done_calls := done_calls s;
     flushes := v; console := console s |}.

Definition set_console (v : list string) (s : Session) : Session :=
  {| closed := closed s; pty := pty s; writable := writable s;
     stream_calls := stream_calls s; renderer_calls := renderer_calls s;
     session_events := session_events s; pending_writes := pending_writes s;
     pending_idle := pending_idle s; done_calls := done_calls s;
     flushes := flushes s; console := v |}.

Definition call_done (flush : nat) (s : Session) : Session :=
  set_done_calls (done_calls s ++ [flush]) s.

Definition console_error (message : string) (s : Session) : Session :=
  set_console (console s ++ [message]) s.

Definition call_renderer (c : RendererCall) (s : Session) : Session :=
  set_renderer_calls (renderer_calls s ++ [c]) s.

Definition call_stream (c : StreamCall) (s : Session) : Session :=
  set_stream_calls (stream_calls s ++ [c]) s.

Definition session_emit (e : SessionEvent) (s : Session) : Session :=
  set_session_events (session_events s ++ [e]) s.

(** The callback given to [stream.write]. *)
Definition write_callback (flush : nat) (err : option string) (s : Session) : Session :=
  let s1 :=
    match err with
    | Some message => console_error ("[SSH] Stream write error: " ++ message)%string s
    | None => s
    end in
  call_done flush s1.

(** [onFlush(buffer, done)], for the [done] of flush number [flush].  While
    [session] is still [null] the test [session?._closed] is false, as
    [closed] is in a session just made. *)
Definition onFlush (flush : nat) (buffer : list nat) (outcome : WriteOutcome)
  (s : Session) : Session :=
  if closed s || negb (writable s) then call_done flush s
  else
    match outcome with
    | WriteQueued =>
        set_pending_writes (pending_writes s ++ [flush])
          (call_stream (SWrite flush buffer) s)
    | WriteThrows message =>
        call_done flush (console_error ("[SSH] Stream write threw: " ++ message)%string s)
    end.

(** What the code called from the handlers of [renderer.idle()] does when
    it runs: [renderer.destroy()] and the listeners of the [close] event
    return, or one of them throws. *)
Inductive HandlerFault : Type :=
| NoFault
| DestroyThrows (message : string)
| CloseListenerThrows (message : string).

(** [this.emit("close")] on the session: the event is recorded and the
    listeners run; a listener that throws makes [emit] throw. *)
Definition emit_close (fault : HandlerFault) (s : Session) : Result unit * Session :=
  (match fault with
   | CloseListenerThrows message => Thrown (Error message)
   | NoFault | DestroyThrows _ => Ok tt
   end,
   session_emit SessClose s).

(** The handler given to [then]: [renderer.destroy()], then the event. *)
Definition idle_then (fault : HandlerFault) (s : Session) : Result unit * Session :=
  match fault with
  | DestroyThrows message => (Thrown (Error message), call_renderer RDestroy s)
  | NoFault | CloseListenerThrows _ => emit_close fault (call_renderer RDestroy s)
  end.

(** The handler given to [catch].  What its own [emit] may throw is handled
    by nobody and changes nothing of the session. *)
Definition idle_catch (origin : Teardown) (message : string) (s : Session) : Session :=
  let prefix :=
    match origin with
    | FromCleanup => "[SSH] Error during session cleanup: "
    | FromClose => "[SSH] Error during session close: "
    end in
  session_emit SessClose (console_error (prefix ++ message)%string s).

(** [renderer.idle().then(...).catch(...)] once the promise of [idle()]
    settles, with [err] if it rejects.  The handler of [catch] is chained
    after the one of [then]: it receives the rejection of [idle()], and also
    whatever the handler of [then] throws. *)
Definition idle_settled (origin : Teardown) (err : option string)
  (fault : HandlerFault) (s : Session) : Session :=
  match err with
  | Some message => idle_catch origin message s
  | None =>
      match idle_then fault s with
      | (Ok _, s') => s'
      | (Thrown (Error message), s') => idle_catch origin message s'
      end
  end.

(** [_cleanup()] *)
Definition _cleanup (s : Session) : Session :=
  if closed s then s
  else
    let s := set_closed true s in
    let s := call_renderer RStop s in
    set_pending_idle (pending_idle s ++ [FromCleanup]) (call_renderer RIdle s).

(** [handleResize(width, height)] *)
Definition handleResize (w h : JsNumber) (s : Session) : Session :=
  if js_lt w 1 || js_lt h 1 || js_gt w 10000 || js_gt h 10000 then s
  else
    let s := set_pty {| term := term (pty s); width := w; height := h |} s in
    let s := call_renderer (RResize w h) s in
    session_emit (SessResize w h) s.

(** [close(exitCode)] *)
Definition close (exitCode : JsNumber) (s : Session) : Session :=
  if closed s then s
  else
    let s := set_closed true s in
    let s := call_stream (SExit exitCode) s in
    let s := call_stream SEnd s in
    let s := call_renderer RStop s in
    set_pending_idle (pending_idle s ++ [FromClose]) (call_renderer RIdle s).

(** Removes the first occurrence of [x]. *)
Fixpoint remove_first (x : nat) (l : list nat) : list nat :=
  match l with
  | [] => []
  | y :: l' => if Nat.eqb x y then l' else y :: remove_first x l'
  end.

(** What can happen to a session, from outside and from its owner.
    [WindowChange] is a window-change request of the client, for which the
    server calls [handleResize(info.cols, info.rows)] with the unsigned
    integers the transport has decoded. *)
Inductive Event : Type :=
| RendererFlush (buffer : list nat) (outcome : WriteOutcome)
| WriteCompletes (flush : nat) (err : option string)
| WritableBecomes (b : bool)
| StreamData (input : list nat)
| StreamError (message : string)
| StreamClose
| IdleSettles (err : option string) (fault : HandlerFault)
| WindowChange (cols rows : Z)
| CallClose (exitCode : JsNumber).

Definition step (e : Event) (s : Session) : Session :=
  match e with
  | RendererFlush buffer outcome =>
      onFlush (flushes s) buffer outcome (set_flushes (S (flushes s)) s)
  | WriteCompletes flush err =>
      if existsb (Nat.eqb flush) (pending_writes s)
      then write_callback flush err
             (set_pending_writes (remove_first flush (pending_writes s)) s)
      else s
  | WritableBecomes b => set_writable b s
  | StreamData input =>
      if negb (closed s) then call_renderer (RInjectInput input) s else s
  | StreamError message =>
      _cleanup (console_error ("[SSH] Stream error: " ++ message)%string s)
  | StreamClose => _cleanup s
  | IdleSettles err fault =>
      match pending_idle s with
      | [] => s
      | origin :: rest => idle_settled origin err fault (set_pending_idle rest s)
      end
  | WindowChange cols rows => handleResize (js_of_Z cols) (js_of_Z rows) s
  | CallClose exitCode => close exitCode s
  end.

Fixpoint run (events : list Event) (s : Session) : Session :=
  match events with
  | [] => s
  | e :: events' => run events' (step e s)
  end.

(** What the owner of a session may do besides: [handleResize] is a public
    method and takes any two numbers. *)
Inductive Action : Type :=
| Happens (e : Event)
| CallHandleResize (w h : JsNumber).

Definition perform (a : Action) (s : Session) : Session :=
  match a with
  | Happens e => step e s
  | CallHandleResize w h => handleResize w h s
  end.

Fixpoint drive (actions : list Action) (s : Session) : Session :=
  match actions with
  | [] => s
  | a :: actions' => drive actions' (perform a s)
  end.

Definition xterm_80x24 : PtyInfo := {| term := "xterm"; width := 80; height := 24 |}.

(* ===================================================================== *)
(** ** Chains and predicates used by the statements *)

(** The middleware of the ordering test at position [i]:
    push, [await next()], push. *)
Definition onion (i : nat) : Script := [Push (Before i); AwaitNext; Push (After i)].

(** A middleware that pushes its mark and returns without calling [next]. *)
Definition short_circuit (i : nat) : Script := [Push (Before i)].

Definition onion_chain (start n : nat) : list Middleware :=
  map (fun i => exec_script (onion i)) (seq start n).

(** The terminal continuation of the ordering test. *)
Definition push_final : NextFn := modify_world (observe (Pushed Final)).

(** The state after [order.push(l)]. *)
Definition push_mark (l : Label) (s : St) : St :=
  set_world (observe (Pushed l) (world s)) s.

(** A terminal continuation is a closure over the store: it cannot reach the
    variables of [compose]. *)
Definition lift_terminal (t : World -> Result unit * World) : NextFn :=
  fun s => (fst (t (world s)), set_world (snd (t (world s))) s).

(** How often activation [i] called its [next]. *)
Definition next_count (s : St) (i : nat) : nat :=
  count_occ Nat.eq_dec (next_calls s) i.

(** A decision a middleware takes through the context. *)
Inductive Decision : Type :=
| DAccept
| DReject (allowedMethods : option (list string)).

Definition instr_of (d : Decision) : Instr :=
  match d with
  | DAccept => CallAccept
  | DReject allowedMethods => CallReject allowedMethods
  end.

Definition call_of (d : Decision) : TransportCall :=
  match d with
  | DAccept => TAccept
  | DReject allowedMethods => TReject allowedMethods
  end.

Definition is_accept (d : Decision) : bool :=
  match d with DAccept => true | DReject _ => false end.

Definition is_reject (d : Decision) : bool :=
  match d with DAccept => false | DReject _ => true end.

(** A body that takes the decisions [ds] in turn and then awaits [next]. *)
Definition decider (ds : list Decision) : Script := map instr_of ds ++ [AwaitNext].

(** A body without a call of [ctx.accept] or [ctx.reject]. *)
Definition no_decision (body : Script) : bool :=
  forallb (fun ins => match ins with
                      | CallAccept | CallReject _ => false
                      | _ => true
                      end) body.

(** A middleware that never decides: [logging], or a body without decision. *)
Definition observer (m : MwSpec) : bool :=
  match m with
  | User body => no_decision body
  | Logging _ => true
  | PublicKeyAuth _ | DevMode => false
  end.

Definition is_auth_attempt (o : Obs) : bool :=
  match o with AuthAttempt _ _ _ => true | _ => false end.

Definition is_treject (c : TransportCall) : bool :=
  match c with TReject _ => true | TAccept => false end.

Definition is_taccept (c : TransportCall) : bool :=
  match c with TAccept => true | TReject _ => false end.

(** [logging] in the auth phase, before [await next()]: a fresh [authResult]
    and the two slots replaced. *)
Definition logging_enter (s : St) : St :=
  let cell := List.length (authResult (world s)) in
  let s1 := set_world (set_authResult (authResult (world s) ++ [None]) (world s)) s in
  let s2 :=
    match accept (ctx s) with
    | Some f => set_ctx (set_accept (Some (fun w => f (assign_authResult cell true w)))
                           (ctx s1)) s1
    | None => s1
    end in
  match reject (ctx s) with
  | Some f => set_ctx (set_reject (Some (fun allowedMethods w =>
                         f allowedMethods (assign_authResult cell false w)))
                         (ctx s2)) s2
  | None => s2
  end.

(** [logging] in the auth phase, after [await next()]. *)
Definition logging_exit (options : LoggingOptions) (cell : nat) (s : St) : St :=
  match nth cell (authResult (world s)) None, onAuthAttempt options with
  | Some r, Some hook =>
      set_world (observe (AuthAttempt hook (username (ctx s)) r) (world s)) s
  | _, _ => s
  end.

(** [logging] in the session phase, before [await next()]. *)
Definition logging_session (options : LoggingOptions) (s : St) : St :=
  let s1 :=
    match onConnect options with
    | Some hook => set_world (observe (Connect hook (username (ctx s))) (world s)) s
    | None => s
    end in
  match onDisconnect options with
  | Some hook =>
      set_world (set_closeListeners (closeListeners (world s1) ++ [hook]) (world s1)) s1
  | None => s1
  end.

(** The store of an attempt on which nothing has been decided since [w0]:
    both flags are false, every [authResult] made since is still [null], no
    [onAuthAttempt] hook has run, the transport has seen rejects only and the
    server has emitted nothing. *)
Definition undecided (w0 w : World) : Prop :=
  accepted w = false /\ rejected w = false
  /\ authenticatedUser w = authenticatedUser w0
  /\ List.length (authResult w0) <= List.length (authResult w)
  /\ (forall j, List.length (authResult w0) <= j -> nth j (authResult w) None = None)
  /\ (exists obs, observed w = observed w0 ++ obs
                  /\ forallb (fun o => negb (is_auth_attempt o)) obs = true)
  /\ (exists calls, transport w = transport w0 ++ calls
                    /\ forallb is_treject calls = true)
  /\ emitted w = emitted w0.

Definition stays_undecided {A : Type} (w0 : World) (m : M A) : Prop :=
  forall s, undecided w0 (world s) -> undecided w0 (world (snd (m s))).

(** A middleware that only watches: [logging], or a body that pushes marks,
    awaits [next] once and pushes marks again. *)
Inductive Passing : Type :=
| PLogging (options : LoggingOptions)
| PBody (pre post : list Label).

Definition passing_spec (p : Passing) : MwSpec :=
  match p with
  | PLogging options => Logging options
  | PBody pre post => User (map Push pre ++ AwaitNext :: map Push post)
  end.

Definition push_marks (ls : list Label) (s : St) : St :=
  fold_left (fun s l => push_mark l s) ls s.

(** The store after the decisions [ds], for the closures [accf] and [rejf]
    found in the two slots of the context. *)
Definition decision_effect (accf : World -> World)
  (rejf : option (list string) -> World -> World) (d : Decision) (w : World) : World :=
  match d with
  | DAccept => accf w
  | DReject allowedMethods => rejf allowedMethods w
  end.

Definition decisions_effect (accf : World -> World)
  (rejf : option (list string) -> World -> World) (ds : list Decision) (w : World)
  : World :=
  fold_left (fun w d => decision_effect accf rejf d w) ds w.

(** The last decision taken, if any. *)
Definition last_decision (ds : list Decision) : option Decision :=
  last (map Some ds) None.

(** The two slots of the context once [handleConnection], [handleAuth] and one
    [logging] layer with its [authResult] in [cell] have each wrapped them. *)
Definition logged_accept (u : UserInfo) (cell : nat) (w : World) : World :=
  native_accept (set_authenticatedUser (Some u)
                   (set_accepted true (assign_authResult cell true w))).

Definition logged_reject (cell : nat) (allowedMethods : option (list string))
  (w : World) : World :=
  native_reject allowedMethods (set_rejected true (assign_authResult cell false w)).




Definition is_sess_close (e : SessionEvent) : bool :=
  match e with SessClose => true | SessResize _ _ => false end.

(** How many [close] events the session has emitted. *)
Definition close_count (s : Session) : nat :=
  List.length (filter is_sess_close (session_events s)).

(** How often the [done] of flush [id] was called. *)
Definition done_count (s : Session) (id : nat) : nat :=
  count_occ Nat.eq_dec (done_calls s) id.

(** Whether the stream still holds the write callback of flush [id]. *)
Definition write_pending (s : Session) (id : nat) : nat :=
  count_occ Nat.eq_dec (pending_writes s) id.

(** The balance of acknowledgments: a flush that was issued has either had
    its [done] called once, or its write callback is still with the stream. *)
Definition flush_balance (s : Session) : Prop :=
  forall id, done_count s id + write_pending s id = (if (id <? flushes s)%nat then 1 else 0).

(** The teardown balance: an open session has emitted no [close] and awaits
    no idle; a closed one has either emitted its [close] or still awaits the
    idle that will emit it. *)
Definition teardown_balance (s : Session) : Prop :=
  close_count s + List.length (pending_idle s) = (if closed s then 1 else 0).

(** An event in which no listener of [close] throws. *)
Definition close_listeners_return (e : Event) : bool :=
  match e with
  | IdleSettles _ (CloseListenerThrows _) => false
  | _ => true
  end.

(** An event that starts the teardown of an open session. *)
Definition is_teardown (e : Event) : bool :=
  match e with
  | StreamError _ | StreamClose | CallClose _ => true
  | _ => false
  end.

Definition first_teardown (events : list Event) : option Event :=
  find is_teardown events.

(** The configuration of the README: [logging] with an [onAuthAttempt] hook. *)
Definition auth_logger : LoggingOptions :=
  {| onAuthAttempt := Some 0; onConnect := None; onDisconnect := None |}.

(** [createMockContext] of the middleware tests, as a dispatch state; a mock
    capability leaves a note in [observed]. *)
Definition mock_state (ph : MiddlewarePhase) (k : option PublicKey)
  (with_accept with_reject : bool) : St :=
  {| ctx := {| phase := ph; username := "testuser"; clientKey := k;
               remoteAddress := "127.0.0.1";
               accept := if with_accept
                         then Some (observe (Pushed (Note "accept"))) else None;
               reject := if with_reject
                         then Some (fun _ => observe (Pushed (Note "reject"))) else None |};
     world := empty_world; index := (-1)%Z; next_calls := [];
          frames := [] |}.

Definition observed_after (r : Result unit * St) : list Obs := observed (world (snd r)).

Definition test_key : AuthorizedKey :=
  {| key_type := "ssh-ed25519";
     key := "AAAAC3NzaC1lZDI1NTE5AAAAIOMqqnkVzrm0SdG6UOoqKLsabgH5C9okWi0dh2l9GKJl";
     comment := Some "test@host" |}.

(** A body that awaits every call of [next] it makes and handles no
    rejection, as the middlewares of the package do. *)
Definition awaits_uncaught (body : Script) : bool :=
  forallb (fun ins => match ins with TryNext => false | _ => true end) body.

Definition no_catch (m : MwSpec) : bool :=
  match m with
  | User body => awaits_uncaught body
  | Logging _ | PublicKeyAuth _ | DevMode => true
  end.

(** The re-entrance invariant of one dispatch: no activation has called its
    [next] twice, and [index] has moved past every activation that called. *)
Definition next_inv (s : St) : Prop :=
  (forall j, next_count s j <= 1)
  /\ (forall j, In j (next_calls s) -> (Z.of_nat j + 1 <= index s)%Z).

(** A computation keeps the invariant unless it throws the re-entrance error. *)
Definition guarded {A : Type} (m : M A) : Prop :=
  forall s, next_inv s ->
    next_inv (snd (m s)) \/ fst (m s) = Thrown reentrant_next.

(** A computation that leaves the variables of [compose] alone. *)
Definition frame_safe {A : Type} (m : M A) : Prop :=
  forall s, index (snd (m s)) = index s /\ next_calls (snd (m s)) = next_calls s.

(** A continuation that neither reads nor writes the variables of the
    invocations of [compose]: it does the same whatever they hold.  The
    terminal continuations of the server are of this kind. *)
Definition frame_blind (next : NextFn) : Prop :=
  forall s i f,
    next (set_index i (set_frames f s))
    = (fst (next s), set_index i (set_frames f (snd (next s)))).

(* ===================================================================== *)
(** ** Observations on a session, used by the statements *)

Definition is_inject (c : RendererCall) : bool :=
  match c with RInjectInput _ => true | _ => false end.

Definition is_stop (c : RendererCall) : bool :=
  match c with RStop => true | _ => false end.

Definition is_idle (c : RendererCall) : bool :=
  match c with RIdle => true | _ => false end.

Definition is_destroy (c : RendererCall) : bool :=
  match c with RDestroy => true | _ => false end.

Definition is_swrite (c : StreamCall) : bool :=
  match c with SWrite _ _ => true | _ => false end.

(** The calls of [stream.exit] and [stream.end], in order. *)
Definition exit_end_calls (s : Session) : list StreamCall :=
  filter (fun c => negb (is_swrite c)) (stream_calls s).

Definition count_calls (f : RendererCall -> bool) (s : Session) : nat :=
  List.length (filter f (renderer_calls s)).

(** The sizes handed to [renderer.resize], and those carried by the [resize]
    events, in order. *)
Definition renderer_resizes (s : Session) : list (JsNumber * JsNumber) :=
  flat_map (fun c => match c with RResize w h => [(w, h)] | _ => [] end)
    (renderer_calls s).

Definition resize_events (s : Session) : list (JsNumber * JsNumber) :=
  flat_map (fun e => match e with SessResize w h => [(w, h)] | _ => [] end)
    (session_events s).

(** A dimension in [1, 10000]: [1 <= n && n <= 10000]. *)
Definition in_range (n : JsNumber) : bool := js_le 1 n && js_le n 10000.

Definition size_ok (wh : JsNumber * JsNumber) : bool :=
  in_range (fst wh) && in_range (snd wh).

(** A dimension in [1, 10000], or NaN. *)
Definition in_range_or_nan (n : JsNumber) : bool := in_range n || is_nan n.

Definition size_ok_or_nan (wh : JsNumber * JsNumber) : bool :=
  in_range_or_nan (fst wh) && in_range_or_nan (snd wh).

Definition in_bounds (p : PtyInfo) : Prop :=
  in_range (width p) = true /\ in_range (height p) = true.

(** An action that brings no NaN. *)
Definition nan_free (a : Action) : bool :=
  match a with
  | Happens _ => true
  | CallHandleResize w h => negb (is_nan w) && negb (is_nan h)
  end.

(** What the renderer may still receive from a closed session. *)
Definition after_close_call (c : RendererCall) : bool :=
  match c with RDestroy | RResize _ _ => true | _ => false end.

(** The teardown has stopped the renderer and asked for its idle promise once
    if the session is closed and never otherwise; the renderer is destroyed
    at most once, when the one idle promise has settled, and not without a
    [close] event; at most two [close] events are emitted. *)
Definition teardown_accounting (s : Session) : Prop :=
  count_calls is_stop s = (if closed s then 1 else 0)
  /\ count_calls is_idle s = (if closed s then 1 else 0)
  /\ count_calls is_destroy s + List.length (pending_idle s)
       <= (if closed s then 1 else 0)
  /\ count_calls is_destroy s <= close_count s
  /\ close_count s + 2 * List.length (pending_idle s) <= (if closed s then 2 else 0).

(** The resize log of a session made with pty [p], all of whose sizes
    satisfy [ok]. *)
Definition resize_log (ok : JsNumber * JsNumber -> bool) (p : PtyInfo) (s : Session)
  : Prop :=
  renderer_resizes s = resize_events s
  /\ forallb ok (resize_events s) = true
  /\ (width (pty s), height (pty s)) = last (resize_events s) (width p, height p)
  /\ term (pty s) = term p.

(* ===================================================================== *)
(** ** Relations on the store kept by every dispatch *)

(** Both slots of the context hold closures that move the store along [R]. *)
Definition slots_rel (R : World -> World -> Prop) (c : MiddlewareContext) : Prop :=
  (forall f, accept c = Some f -> forall w, R w (f w))
  /\ (forall f, reject c = Some f -> forall ms w, R w (f ms w)).

Definition keeps_rel (R : World -> World -> Prop) {A : Type} (m : M A) : Prop :=
  forall s, slots_rel R (ctx s) ->
    slots_rel R (ctx (snd (m s))) /\ R (world s) (world (snd (m s))).

(** A preorder on stores that the bookkeeping of the middlewares respects:
    pushing a mark or calling a hook, writing an [authResult], adding a
    listener. *)
Record store_relation (R : World -> World -> Prop) : Prop := {
  sr_refl : forall w, R w w;
  sr_trans : forall w1 w2 w3, R w1 w2 -> R w2 w3 -> R w1 w3;
  sr_observe : forall o w, R w (observe o w);
  sr_authResult : forall l w, R w (set_authResult l w);
  sr_listeners : forall l w, R w (set_closeListeners l w)
}.

(** Nothing that concerns authentication has changed. *)
Definition auth_untouched (w w' : World) : Prop :=
  transport w' = transport w /\ emitted w' = emitted w
  /\ accepted w' = accepted w /\ rejected w' = rejected w
  /\ authenticatedUser w' = authenticatedUser w.

(** Either no accept has reached the transport and [authenticatedUser] is as
    it was, or [authenticatedUser] is [u]. *)
Definition user_recorded (u : UserInfo) (w w' : World) : Prop :=
  (authenticatedUser w' = authenticatedUser w
   /\ filter is_taccept (transport w') = filter is_taccept (transport w))
  \/ authenticatedUser w' = Some u.

(** The state in which [session_dispatch] starts the chain. *)
Definition session_start (user : UserInfo) (remote : string) (w : World) : St :=
  {| ctx := {| phase := session; username := user_username user; clientKey := None;
               remoteAddress := remote; accept := None; reject := None |};
     world := w; index := (-1)%Z; next_calls := [];
          frames := [] |}.

(** One pty request: whether [accept] was supplied, [info.term], [info.cols]
    and [info.rows]. *)
Record PtyRequest : Type := {
  pty_has_accept : bool;
  pty_term : option string;
  pty_cols : Z;
  pty_rows : Z
}.

Definition on_pty_requests (reqs : list PtyRequest) (r : SessionRequests)
  : SessionRequests :=
  fold_left (fun r q => on_pty (pty_has_accept q) (pty_term q) (pty_cols q) (pty_rows q) r)
    reqs r.

Definition pty_of_request (q : PtyRequest) : PtyInfo :=
  {| term := match pty_term q with Some t => t | None => "xterm" end;
     width := js_of_Z (pty_cols q); height := js_of_Z (pty_rows q) |}.

(* ===================================================================== *)
(** ** What a decision does to the store of an attempt *)

(** The effect of the accept capability of an attempt of user [u], and of its
    reject capability, on what matters to authentication. *)
Definition accept_effect (u : UserInfo) (w w' : World) : Prop :=
  transport w' = transport w ++ [TAccept]
  /\ accepted w' = true /\ rejected w' = rejected w
  /\ authenticatedUser w' = Some u /\ emitted w' = emitted w.

Definition reject_effect (allowedMethods : option (list string)) (w w' : World) : Prop :=
  transport w' = transport w ++ [TReject allowedMethods]
  /\ accepted w' = accepted w /\ rejected w' = true
  /\ authenticatedUser w' = authenticatedUser w /\ emitted w' = emitted w.

(** Both slots are present and still do what [handleAuth] made them do. *)
Definition faithful_slots (u : UserInfo) (c : MiddlewareContext) : Prop :=
  (exists f, accept c = Some f /\ forall w, accept_effect u w (f w))
  /\ (exists g, reject c = Some g /\ forall ms w, reject_effect ms w (g ms w)).

(** What a middleware that takes at most one decision does to the store. *)
Definition decision_step (u : UserInfo) (od : option Decision) (w w' : World) : Prop :=
  match od with
  | Some DAccept => accept_effect u w w'
  | Some (DReject allowedMethods) => reject_effect allowedMethods w w'
  | None => auth_untouched w w'
  end.

(** The store after an attempt in which exactly the decision [od] was taken
    ([None]: no decision, so that the default reject was issued). *)
Definition attempt_outcome (u : UserInfo) (od : option Decision) (w w' : World) : Prop :=
  emitted w' = emitted w
  /\ match od with
     | Some DAccept =>
         transport w' = transport w ++ [TAccept]
         /\ accepted w' = true /\ rejected w' = false
         /\ authenticatedUser w' = Some u
     | Some (DReject allowedMethods) =>
         transport w' = transport w ++ [TReject allowedMethods]
         /\ accepted w' = false /\ rejected w' = true
         /\ authenticatedUser w' = authenticatedUser w
     | None =>
         transport w' = transport w ++ [TReject (Some ["publickey"])]
         /\ accepted w' = false /\ rejected w' = false
         /\ authenticatedUser w' = authenticatedUser w
     end.

(** What a middleware that takes the decisions [ds] in turn does to the
    store. *)
Fixpoint decisions_step (u : UserInfo) (ds : list Decision) (w w' : World) : Prop :=
  match ds with
  | [] => auth_untouched w w'
  | d :: ds' =>
      exists w1, decision_step u (Some d) w w1 /\ decisions_step u ds' w1 w'
  end.

(** The decision [publicKey] takes for the client key [ck]. *)
Definition publicKey_decision (keys : list AuthorizedKey) (ck : option PublicKey)
  : option Decision :=
  match ck with
  | Some k => Some (if matchesKey (algo k) (data k) keys
                    then DAccept else DReject (Some ["publickey"]))
  | None => None
  end.

(** The client key [handleAuth] puts in the context. *)
Definition offered_key (method : string) (k : option PublicKey) : option PublicKey :=
  if String.eqb method "publickey" then k else None.

(** The two slots of the context as [handleConnection] and [handleAuth] leave
    them, with no [logging] layer above. *)
Definition plain_accept (u : UserInfo) (w : World) : World :=
  native_accept (set_authenticatedUser (Some u) (set_accepted true w)).

Definition plain_reject (allowedMethods : option (list string)) (w : World) : World :=
  native_reject allowedMethods (set_rejected true w).

(** ** The key strings of [publicKey(options)] *)

(** [keyStr.split(" ")]: the fields between the spaces; never empty. *)
Fixpoint split_space (s : string) : list string :=
  match s with
  | EmptyString => [EmptyString]
  | String c r =>
      if Ascii.eqb c " "%char then EmptyString :: split_space r
      else match split_space r with
           | [] => [String c EmptyString]
           | p :: ps => String c p :: ps
           end
  end.

(** [parts.join(" ")]. *)
Fixpoint join_space (parts : list string) : string :=
  match parts with
  | [] => EmptyString
  | [p] => p
  | p :: ps => (p ++ String " "%char (join_space ps))%string
  end.

(** [x || undefined] on a string: the empty string is falsy. *)
Definition or_undefined (x : string) : option string :=
  match x with
  | EmptyString => None
  | String _ _ => Some x
  end.

(** The callback mapped over [authorizedKeys]:
    [parts.length >= 2 ? { type: parts[0], key: parts[1], comment: ... } : null]. *)
Definition parse_key_string (keyStr : string) : option AuthorizedKey :=
  match split_space keyStr with
  | t :: k :: rest =>
      Some {| key_type := t; key := k;
              comment := or_undefined (join_space rest) |}
  | _ => None
  end.

(** [authorizedKeys.map(...).filter(k => k !== null)]. *)
Fixpoint parsedAuthorizedKeys (authorizedKeys : list string) : list AuthorizedKey :=
  match authorizedKeys with
  | [] => []
  | keyStr :: rest =>
      match parse_key_string keyStr with
      | Some ak => ak :: parsedAuthorizedKeys rest
      | None => parsedAuthorizedKeys rest
      end
  end.

(** [publicKey({ authorizedKeys })], with no [authorizedKeysPath]. *)
Definition publicKey_of_strings (authorizedKeys : list string) : MwSpec :=
  PublicKeyAuth (parsedAuthorizedKeys authorizedKeys).

(** A string without a space. *)
Fixpoint no_space (s : string) : bool :=
  match s with
  | EmptyString => true
  | String c r => negb (Ascii.eqb c " "%char) && no_space r
  end.

(** What may follow the first two fields of a key string: nothing, or a
    space and anything. *)
Definition field_tail (rest : string) : Prop :=
  rest = EmptyString \/ exists r, rest = String " "%char r.

(** ** Onion chains with any marks *)

(** Onion middlewares that push the marks of [labels], whatever their
    positions in the chain. *)
Definition onions (labels : list nat) : list Middleware :=
  map (fun l => exec_script (onion l)) labels.

Definition befores (labels : list nat) : list Obs :=
  map (fun l => Pushed (Before l)) labels.

Definition afters (labels : list nat) : list Obs :=
  map (fun l => Pushed (After l)) (rev labels).

(* ===================================================================== *)
(** * The tests of the package, replayed on the model *)

Section PackageTests.

Example test_executes_in_order :
  observed_after (compose (onion_chain 1 3) push_final (mock_state auth None false false))
  = map Pushed [Before 1; Before 2; Before 3; Final; After 3; After 2; After 1].
Proof. reflexivity. Qed.

Example test_empty_middleware_array :
  compose [] push_final (mock_state auth None false false)
  = (Ok tt, push_mark Final (mock_state auth None false false)).
Proof. reflexivity. Qed.

(** A composed middleware is a middleware: used as a member of another chain
    it keeps the onion order, each invocation checking its own [index]. *)
Example test_nested_compose :
  observed_after
    (compose [exec_script (onion 1);
              compose [exec_script (onion 2); exec_script (onion 3)];
              exec_script (onion 4)]
       push_final (mock_state auth None false false))
  = map Pushed [Before 1; Before 2; Before 3; Before 4; Final;
                After 4; After 3; After 2; After 1].
Proof. reflexivity. Qed.

Example test_short_circuit :
  observed_after
    (compose [exec_script (onion 1); exec_script (short_circuit 2); exec_script (onion 3)]
       push_final (mock_state auth None false false))
  = map Pushed [Before 1; Before 2; After 1].
Proof. reflexivity. Qed.

Example test_devMode_accepts :
  observed_after (devMode (ret tt) (mock_state auth None true false))
  = [Pushed (Note "accept")]
  /\ observed_after (devMode (ret tt) (mock_state session None true false)) = [].
Proof. split; reflexivity. Qed.

Example test_logging_sees_accept :
  observed_after
    (compose [logging auth_logger; devMode] (ret tt) (mock_state auth None true false))
  = [Pushed (Note "accept"); AuthAttempt 0 "testuser" true].
Proof. reflexivity. Qed.

Example test_logging_sees_reject :
  observed_after
    (compose [logging auth_logger; exec_script [CallReject None; AwaitNext]] (ret tt)
       (mock_state auth None true true))
  = [Pushed (Note "reject"); AuthAttempt 0 "testuser" false].
Proof. reflexivity. Qed.

Example test_logging_session_phase :
  let r := logging {| onAuthAttempt := None; onConnect := Some 1; onDisconnect := Some 2 |}
             (ret tt) (mock_state session None false false) in
  observed_after r = [Connect 1 "testuser"] /\ closeListeners (world (snd r)) = [2].
Proof. split; reflexivity. Qed.

Example test_publicKey_accepts_authorized :
  observed_after
    (publicKey [test_key] (ret tt)
       (mock_state auth (Some {| algo := key_type test_key; data := key test_key |})
          true true))
  = [Pushed (Note "accept")].
Proof. reflexivity. Qed.

Example test_publicKey_rejects_unauthorized :
  observed_after
    (publicKey [test_key] (ret tt)
       (mock_state auth (Some {| algo := "ssh-ed25519"; data := "DIFFERENT_KEY_DATA" |})
          true true))
  = [Pushed (Note "reject")]
  /\ observed_after
       (publicKey [] (ret tt)
          (mock_state auth (Some {| algo := key_type test_key; data := key test_key |})
             true true))
     = [Pushed (Note "reject")].
Proof. split; reflexivity. Qed.

Example test_publicKey_passes_through :
  observed_after (publicKey [] push_final (mock_state session None true true))
  = [Pushed Final]
  /\ observed_after (publicKey [test_key] push_final (mock_state auth None true true))
     = [Pushed Final].
Proof. split; reflexivity. Qed.

Example test_user_set_before_accept :
  let w := attempt [DevMode] "testuser" "publickey"
             (Some {| algo := "ssh-ed25519"; data := "AAAA" |}) in
  authenticatedUser w
  = Some {| user_username := "testuser"; user_publicKey := Some "ssh-ed25519" |}
  /\ transport w = [TAccept].
Proof. split; reflexivity. Qed.

Example test_exec_message :
  exec_message (Some "infocmp -x xterm-ghostty")
  = "[SSH] exec request not supported (command: infocmp -x xterm-ghostty)"
  /\ exec_message None = "[SSH] exec request not supported (command: <unknown>)".
Proof. split; reflexivity. Qed.

End PackageTests.

(* ===================================================================== *)
(** * Properties of [compose] *)

Section Compose.

Lemma bind_ok {A B : Type} (m : M A) (k : A -> M B) (s s' : St) (a : A) :
  m s = (Ok a, s') -> bind m k s = k a s'.
Proof. intros H. unfold bind. rewrite H. reflexivity. Qed.

Lemma bind_thrown {A B : Type} (m : M A) (k : A -> M B) (s s' : St) (e : JsError) :
  m s = (Thrown e, s') -> bind m k s = (Thrown e, s').
Proof. intros H. unfold bind. rewrite H. reflexivity. Qed.

Lemma dispatch_enter (rest : list Middleware) (next : NextFn) (i : nat) (s : St) :
  (index s < Z.of_nat i)%Z ->
  dispatch rest next i s =
    match rest with
    | [] => next (set_index (Z.of_nat i) s)
    | fn :: rest' =>
        fn (next_closure i (dispatch rest' next (S i))) (set_index (Z.of_nat i) s)
    end.
Proof.
  intros H. destruct rest; simpl;
    (destruct (Z.leb_spec (Z.of_nat i) (index s)); [lia | reflexivity]).
Qed.

Lemma dispatch_reentered (rest : list Middleware) (next : NextFn) (i : nat) (s : St) :
  (Z.of_nat i <= index s)%Z ->
  dispatch rest next i s = (Thrown reentrant_next, s).
Proof.
  intros H. destruct rest; simpl;
    (destruct (Z.leb_spec (Z.of_nat i) (index s)); [reflexivity | lia]).
Qed.

(** [dispatch] picks [middlewares[i]]: the head of the remaining list is the
    entry at position [i] of the whole array. *)
Lemma dispatch_fn_lookup (middlewares : list Middleware) (i : nat) :
  hd_error (skipn i middlewares) = nth_error middlewares i.
Proof.
  revert middlewares. induction i as [|i IH]; intros [|fn l]; simpl; auto.
Qed.

Lemma leave_frame_keeps (s : St) :
  world (leave_frame s) = world s /\ ctx (leave_frame s) = ctx s
  /\ next_calls (leave_frame s) = next_calls s.
Proof. unfold leave_frame. destruct (frames s); repeat split. Qed.

(** A continuation that does not look at the variables of [compose] runs
    the same in its caller's frame. *)
Lemma in_caller_frame_blind (next : NextFn) (s : St) :
  frame_blind next -> in_caller_frame next s = next s.
Proof.
  intros B. unfold in_caller_frame.
  destruct (frames s) as [|outer rest] eqn:F; [reflexivity|].
  pose proof (B s (index s) (frames s)) as E0.
  replace (set_index (index s) (set_frames (frames s) s)) with s in E0
    by (destruct s; reflexivity).
  rewrite (B s outer rest).
  destruct (next s) as [r s1]. simpl in *.
  injection E0 as E0. rewrite F in E0. f_equal.
  etransitivity; [|symmetry; exact E0]. reflexivity.
Qed.

Lemma compose_unfold (middlewares : list Middleware) (next : NextFn) (s : St) :
  compose middlewares next s
  = (fst (dispatch middlewares (in_caller_frame next) 0 (enter_frame s)),
     leave_frame (snd (dispatch middlewares (in_caller_frame next) 0 (enter_frame s)))).
Proof.
  unfold compose.
  destruct (dispatch middlewares (in_caller_frame next) 0 (enter_frame s)).
  reflexivity.
Qed.

Lemma frame_blind_lift_terminal (t : World -> Result unit * World) :
  frame_blind (lift_terminal t).
Proof. intros s i f. reflexivity. Qed.

Lemma frame_blind_push_final : frame_blind push_final.
Proof. intros s i f. reflexivity. Qed.

Lemma frame_blind_ret : frame_blind (ret tt).
Proof. intros s i f. reflexivity. Qed.

Lemma frame_blind_default_reject (c : AuthContext) : frame_blind (default_reject c).
Proof.
  intros s i f. unfold default_reject, bind, get_world, modify_world, ret. simpl.
  destruct (negb (accepted (world s)) && negb (rejected (world s))); reflexivity.
Qed.

Lemma exec_onion_ok (i : nat) (next : NextFn) (s s2 : St) :
  next (push_mark (Before i) s) = (Ok tt, s2) ->
  exec_script (onion i) next s = (Ok tt, push_mark (After i) s2).
Proof.
  intros E. unfold onion, exec_script, exec_instr, bind, modify_world, ret.
  fold (push_mark (Before i) s). rewrite E. reflexivity.
Qed.

Lemma exec_short_circuit (i : nat) (next : NextFn) (s : St) :
  exec_script (short_circuit i) next s = (Ok tt, push_mark (Before i) s).
Proof. reflexivity. Qed.

(** Onion layers around an inner dispatch that resolves after pushing [mid]:
    the layers push their first marks on the way in and their second marks
    on the way out. *)
Lemma dispatch_onion_layers (mid : list Obs) (tail : list Middleware) (next : NextFn) :
  forall (k i : nat),
    (forall s1, (index s1 < Z.of_nat (i + k))%Z ->
       exists s2, dispatch tail next (i + k) s1 = (Ok tt, s2)
                  /\ observed (world s2) = observed (world s1) ++ mid) ->
    forall s, (index s < Z.of_nat i)%Z ->
      exists s', dispatch (onion_chain i k ++ tail) next i s = (Ok tt, s')
                 /\ observed (world s') =
                      observed (world s)
                      ++ map (fun j => Pushed (Before j)) (seq i k)
                      ++ mid
                      ++ map (fun j => Pushed (After j)) (rev (seq i k)).
Proof.
  induction k as [|k IH]; intros i Hin s Hs.
  - simpl. rewrite Nat.add_0_r in Hin. destruct (Hin s Hs) as (s2 & E & O).
    exists s2. split; [exact E|]. rewrite O, app_nil_r. reflexivity.
  - change (onion_chain i (S k) ++ tail)
      with (exec_script (onion i) :: (onion_chain (S i) k ++ tail)).
    rewrite dispatch_enter by exact Hs.
    assert (Hin' : forall s1, (index s1 < Z.of_nat (S i + k))%Z ->
              exists s2, dispatch tail next (S i + k) s1 = (Ok tt, s2)
                         /\ observed (world s2) = observed (world s1) ++ mid).
    { intros s1 H1. replace (S i + k) with (i + S k) by lia.
      apply Hin. replace (i + S k) with (S i + k) by lia. exact H1. }
    set (s1 := set_next_calls (next_calls s ++ [i])
                 (push_mark (Before i) (set_index (Z.of_nat i) s))).
    destruct (IH (S i) Hin' s1) as (s2 & E & O).
    { unfold s1. simpl. lia. }
    exists (push_mark (After i) s2).
    split.
    + apply exec_onion_ok. unfold next_closure. exact E.
    + simpl. rewrite O. unfold s1. simpl.
      rewrite map_app. simpl. repeat rewrite <- app_assoc. reflexivity.
Qed.

(** C2 (onion order).  For a chain of [n] middlewares composed with
    [compose], one dispatch pushes the before-marks in ascending index order,
    then runs the terminal continuation once, then pushes the after-marks in
    descending index order.  When the middleware at position [n] returns
    without calling [next], whatever follows it in the array, the dispatch
    still resolves: the marks are the before-marks up to [n] and the
    after-marks of the layers above it, and the terminal continuation and
    the later middlewares have pushed nothing. *)
Theorem compose_onion_order (n : nat) (s : St) :
  (exists s',
      compose (onion_chain 0 n) push_final s = (Ok tt, s')
      /\ observed (world s') =
           observed (world s)
           ++ map (fun j => Pushed (Before j)) (seq 0 n)
           ++ [Pushed Final]
           ++ map (fun j => Pushed (After j)) (rev (seq 0 n)))
  /\ (forall tail : list Middleware,
      exists s',
        compose (onion_chain 0 n ++ exec_script (short_circuit n) :: tail)
          push_final s = (Ok tt, s')
        /\ observed (world s') =
             observed (world s)
             ++ map (fun j => Pushed (Before j)) (seq 0 (S n))
             ++ map (fun j => Pushed (After j)) (rev (seq 0 n))).
Proof.
  split.
  - unfold compose.
    destruct (dispatch_onion_layers [Pushed Final] [] (in_caller_frame push_final) n 0)
      with (s := enter_frame s) as (s' & E & O).
    + intros s1 H1. rewrite dispatch_enter by exact H1.
      rewrite in_caller_frame_blind by exact frame_blind_push_final.
      eexists. split; [reflexivity|]. reflexivity.
    + simpl. lia.
    + rewrite app_nil_r in E. rewrite E. exists (leave_frame s').
      split; [reflexivity|].
      rewrite (proj1 (leave_frame_keeps s')), O. reflexivity.
  - intros tail. unfold compose.
    destruct (dispatch_onion_layers [Pushed (Before n)]
                (exec_script (short_circuit n) :: tail)
                (in_caller_frame push_final) n 0) with
      (s := enter_frame s) as (s' & E & O).
    + intros s1 H1. rewrite dispatch_enter by exact H1.
      rewrite exec_short_circuit. eexists. split; [reflexivity|]. reflexivity.
    + simpl. lia.
    + rewrite E. exists (leave_frame s'). split; [reflexivity|].
      rewrite (proj1 (leave_frame_keeps s')), O. simpl world.
      rewrite seq_S, map_app. simpl. repeat rewrite <- app_assoc. reflexivity.
Qed.

Lemma frame_safe_guarded {A : Type} (m : M A) : frame_safe m -> guarded m.
Proof.
  intros F s [I1 I2]. left. destruct (F s) as [Fi Fc].
  split; unfold next_count; rewrite ?Fc, ?Fi; auto.
Qed.

Lemma guarded_bind {A B : Type} (m : M A) (k : A -> M B) :
  guarded m -> (forall a, guarded (k a)) -> guarded (bind m k).
Proof.
  intros Hm Hk s I. unfold bind. specialize (Hm s I).
  destruct (m s) as [[a|e] s']; simpl in Hm.
  - destruct Hm as [I'|C]; [apply Hk; exact I' | discriminate].
  - simpl. destruct Hm as [I'|C]; [left; exact I' | right; congruence].
Qed.

Lemma guarded_ret {A : Type} (a : A) : guarded (ret a).
Proof. apply frame_safe_guarded. intros s. split; reflexivity. Qed.

Lemma guarded_throw {A : Type} (e : JsError) : guarded (@throw A e).
Proof. apply frame_safe_guarded. intros s. split; reflexivity. Qed.

Lemma guarded_modify_world (f : World -> World) : guarded (modify_world f).
Proof. apply frame_safe_guarded. intros s. split; reflexivity. Qed.

Lemma guarded_modify_ctx (f : MiddlewareContext -> MiddlewareContext) :
  guarded (modify_ctx f).
Proof. apply frame_safe_guarded. intros s. split; reflexivity. Qed.

Lemma guarded_get_ctx : guarded get_ctx.
Proof. apply frame_safe_guarded. intros s. split; reflexivity. Qed.

Lemma guarded_get_world : guarded get_world.
Proof. apply frame_safe_guarded. intros s. split; reflexivity. Qed.

Lemma guarded_lift_terminal (t : World -> Result unit * World) :
  guarded (lift_terminal t).
Proof. apply frame_safe_guarded. intros s. split; reflexivity. Qed.

Create HintDb guard.
#[local] Hint Resolve guarded_ret guarded_throw guarded_modify_world
  guarded_modify_ctx guarded_get_ctx guarded_get_world guarded_lift_terminal : guard.

Ltac guard_steps :=
  repeat first
    [ assumption
    | solve [auto with guard]
    | apply guarded_bind
    | match goal with
      | |- forall _, _ => intro
      | |- guarded (match ?x with _ => _ end) => destruct x
      | |- guarded (if ?x then _ else _) => destruct x
      end ].

Lemma guarded_call_accept : guarded call_accept.
Proof. unfold call_accept. guard_steps. Qed.

Lemma guarded_call_reject (allowedMethods : option (list string)) :
  guarded (call_reject allowedMethods).
Proof. unfold call_reject. guard_steps. Qed.

#[local] Hint Resolve guarded_call_accept guarded_call_reject : guard.

Lemma guarded_exec_script (body : Script) (next : NextFn) :
  awaits_uncaught body = true -> guarded next -> guarded (exec_script body next).
Proof.
  intros Hb Hn. induction body as [|ins body IH]; simpl.
  - auto with guard.
  - simpl in Hb. apply andb_true_iff in Hb as [Hi Hb].
    apply guarded_bind; [|intros _; exact (IH Hb)].
    destruct ins; simpl; try discriminate; auto with guard.
Qed.

Lemma guarded_middleware (m : MwSpec) (next : NextFn) :
  no_catch m = true -> guarded next -> guarded (middleware_of m next).
Proof.
  intros Hm Hn. destruct m as [body|options|keys|]; simpl.
  - apply guarded_exec_script; [exact Hm | exact Hn].
  - unfold logging. guard_steps.
  - unfold publicKey. guard_steps.
  - unfold devMode. guard_steps.
Qed.

Lemma count_occ_snoc (l : list nat) (i j : nat) :
  count_occ Nat.eq_dec (l ++ [i]) j =
  count_occ Nat.eq_dec l j + (if Nat.eq_dec i j then 1 else 0).
Proof.
  rewrite count_occ_app. simpl. destruct (Nat.eq_dec i j); reflexivity.
Qed.

(** The closure handed to activation [i] is guarded: its first call moves
    [index] to [i + 1], and any later call meets [i + 1 <= index]. *)
Lemma guarded_next_closure (next : NextFn) (chain : list MwSpec) :
  forallb no_catch chain = true -> guarded next ->
  forall i, guarded (next_closure i (dispatch (map middleware_of chain) next (S i))).
Proof.
  intros Hc Hn. induction chain as [|m chain IH]; intros i s [I1 I2];
    unfold next_closure;
    set (s1 := set_next_calls (next_calls s ++ [i]) s);
    (destruct (Z.le_gt_cases (Z.of_nat (S i)) (index s1)) as [Hle|Hgt];
     [ right; rewrite dispatch_reentered by exact Hle; reflexivity
     | rewrite dispatch_enter by lia ]).
  all: assert (Inv : next_inv (set_index (Z.of_nat (S i)) s1)).
  1,3: (unfold s1 in *; simpl in Hgt; split;
        [ intros j; unfold next_count; simpl; rewrite count_occ_snoc;
          destruct (Nat.eq_dec i j) as [->|];
          [ assert (count_occ Nat.eq_dec (next_calls s) j = 0);
            [ apply count_occ_not_In; intros Hj; apply I2 in Hj; lia | lia ]
          | specialize (I1 j); unfold next_count in I1; lia ]
        | intros j; simpl; rewrite in_app_iff; intros [Hj|[<-|[]]];
          [ apply I2 in Hj; lia | lia ] ]).
  - simpl map. cbv iota. apply Hn. exact Inv.
  - simpl map. cbv iota. simpl in Hc. apply andb_true_iff in Hc as [Hm Hc].
    apply guarded_middleware; [exact Hm | apply IH; exact Hc | exact Inv].
Qed.

Lemma guarded_in_caller_frame (next : NextFn) :
  frame_blind next -> guarded next -> guarded (in_caller_frame next).
Proof.
  intros B Hn s I. rewrite (in_caller_frame_blind next s B). apply Hn. exact I.
Qed.

(** The whole dispatch is guarded from its first state. *)
Lemma compose_guarded (chain : list MwSpec) (next : NextFn) (s : St) :
  forallb no_catch chain = true -> frame_blind next -> guarded next ->
  (forall j, next_count (snd (compose (map middleware_of chain) next s)) j <= 1)
  \/ fst (compose (map middleware_of chain) next s) = Thrown reentrant_next.
Proof.
  intros Hc B Hn. pose proof (guarded_in_caller_frame next B Hn) as Hn'.
  rewrite compose_unfold. cbn [fst snd].
  set (s0 := enter_frame s).
  assert (I0 : next_inv (set_index (Z.of_nat 0) s0)).
  { split; [intros j; unfold next_count; simpl; lia | intros j []]. }
  assert (G : next_inv (snd (dispatch (map middleware_of chain)
                               (in_caller_frame next) 0 s0))
              \/ fst (dispatch (map middleware_of chain) (in_caller_frame next) 0 s0)
                 = Thrown reentrant_next).
  { rewrite dispatch_enter by (simpl; lia).
    destruct chain as [|m chain]; simpl map; cbv iota.
    - apply Hn'. exact I0.
    - simpl in Hc. apply andb_true_iff in Hc as [Hm Hc].
      apply guarded_middleware;
        [exact Hm | apply guarded_next_closure; assumption | exact I0]. }
  destruct G as [[I1 _]|E]; [left | right; exact E].
  intros j. unfold next_count. rewrite (proj2 (proj2 (leave_frame_keeps _))).
  apply I1.
Qed.

(** C3, as stated, fails: a middleware that calls [next] a second time and
    catches the rejection of that call (or drops its promise) swallows the
    error.  The second call has been made, and the dispatch resolves. *)
Lemma second_next_can_be_swallowed :
  let r := compose (map middleware_of [User [AwaitNext; TryNext]])
             (lift_terminal (fun w => (Ok tt, w)))
             (mock_state auth None false false) in
  fst r = Ok tt /\ next_count (snd r) 0 = 2.
Proof. split; reflexivity. Qed.

(** C3 (re-entrant next), as the code has it.  In any chain built from the
    package's middlewares and from hand written bodies that await their
    calls of [next] without catching, with any terminal continuation: if
    some activation [i] has called its [next] a second time by the end of the
    dispatch, the dispatch itself rejects with the error
    ["next() called multiple times"]. *)
Theorem second_next_faults (chain : list MwSpec)
  (t : World -> Result unit * World) (s : St) (i : nat) :
  forallb no_catch chain = true ->
  2 <= next_count (snd (compose (map middleware_of chain) (lift_terminal t) s)) i ->
  fst (compose (map middleware_of chain) (lift_terminal t) s) = Thrown reentrant_next.
Proof.
  intros Hc H2.
  destruct (compose_guarded chain (lift_terminal t) s Hc
              (frame_blind_lift_terminal t) (guarded_lift_terminal t))
    as [I1|E]; [|exact E].
  specialize (I1 i). lia.
Qed.

(** The test "throws error when next() called multiple times". *)
Lemma second_next_faults_witness :
  fst (compose (map middleware_of [User [AwaitNext; AwaitNext]])
         (lift_terminal (fun w => (Ok tt, w)))
         {| ctx := {| phase := auth; username := "testuser"; clientKey := None;
                      remoteAddress := "127.0.0.1"; accept := None; reject := None |};
            world := empty_world; index := (-1)%Z; next_calls := [];
          frames := [] |})
  = Thrown reentrant_next.
Proof.
  apply (second_next_faults _ _ _ 0); [reflexivity | vm_compute; lia].
Defined.

End Compose.

(* ===================================================================== *)
(** * Properties of the authentication phase *)

Section Authentication.

Variable remote : string.

(** A configured middleware that returns without deciding and without
    calling [next] ends the dispatch normally: the terminal continuation has
    not run and the transport has received nothing for the attempt. *)
Lemma short_circuit_sends_nothing (user method : string)
  (k : option PublicKey) (w : World) :
  transport (on_authentication [User (short_circuit 0)] remote
               (transport_context user method k) w) = transport w
  /\ fst (handleAuth [User (short_circuit 0)]
            (wrap_accept (transport_context user method k)) remote w) = Ok None.
Proof. split; reflexivity. Qed.

(** C4, as stated, fails.  No middleware decides in either attempt, and the
    transport does not receive the one [reject(["publickey"])] of the claim:
    with a middleware that throws it receives the [reject()] of the fault
    handler, and with a middleware that returns without calling [next] it
    receives nothing. *)
Lemma default_reject_not_always_issued :
  transport (attempt [User [Throw (Error "boom")]] "testuser" "none" None)
    = [TReject None]
  /\ transport (attempt [User (short_circuit 0)] "testuser" "none" None) = []
  /\ transport (attempt [User [Throw (Error "boom")]] "testuser" "none" None)
       <> [TReject (Some ["publickey"])]
  /\ transport (attempt [User (short_circuit 0)] "testuser" "none" None)
       <> [TReject (Some ["publickey"])].
Proof. repeat split; discriminate. Qed.

(** C7, as stated, fails: a body that calls [ctx.reject] twice makes the
    transport receive two rejects, where the claim lets one decision through. *)
Lemma second_reject_is_forwarded :
  transport (attempt [User (decider [DReject None; DReject None])]
               "testuser" "none" None) = [TReject None; TReject None]
  /\ ~ (List.length (transport (attempt [User (decider [DReject None; DReject None])]
                                  "testuser" "none" None)) <= 1).
Proof. split; [reflexivity | vm_compute; lia]. Qed.


Lemma logging_auth (options : LoggingOptions) (next : NextFn) (s : St) :
  phase (ctx s) = auth ->
  logging options next s =
    match next (logging_enter s) with
    | (Ok _, s') =>
        (Ok tt, logging_exit options (List.length (authResult (world s))) s')
    | (Thrown e, s') => (Thrown e, s')
    end.
Proof.
  intros Hp. unfold logging, logging_enter, logging_exit, bind, get_ctx, get_world,
    modify_world, modify_ctx, ret.
  rewrite Hp. destruct (accept (ctx s)), (reject (ctx s)); simpl;
    match goal with |- context [next ?x] => destruct (next x) as [[[]|e] s'] end;
    try reflexivity;
    destruct (nth _ (authResult (world s')) None), (onAuthAttempt options);
    reflexivity.
Qed.

Lemma logging_in_session (options : LoggingOptions) (next : NextFn) (s : St) :
  phase (ctx s) = session ->
  logging options next s = next (logging_session options s).
Proof.
  intros Hp. unfold logging, logging_session, bind, get_ctx, modify_world, ret.
  rewrite Hp. destruct (onConnect options), (onDisconnect options); reflexivity.
Qed.

(** *** A chain of observers leaves the attempt undecided *)

Section Undecided.

Variable w0 : World.

Lemma undecided_observe (o : Obs) (w : World) :
  is_auth_attempt o = false -> undecided w0 w -> undecided w0 (observe o w).
Proof.
  intros Ho (A & R & U & L & C & (obs & Eo & Fo) & T & Em).
  repeat split; auto. exists (obs ++ [o]). simpl. rewrite Eo, <- app_assoc.
  split; [reflexivity|]. rewrite forallb_app, Fo. simpl. rewrite Ho. reflexivity.
Qed.

Lemma undecided_new_cell (w : World) :
  undecided w0 w -> undecided w0 (set_authResult (authResult w ++ [None]) w).
Proof.
  intros (A & R & U & L & C & O & T & Em).
  repeat split; auto; simpl.
  - rewrite length_app. simpl. lia.
  - intros j Hj. destruct (Nat.lt_ge_cases j (List.length (authResult w))) as [Hlt|Hge].
    + rewrite app_nth1 by exact Hlt. apply C. exact Hj.
    + rewrite app_nth2 by exact Hge.
      destruct (j - List.length (authResult w)) as [|[|n]]; reflexivity.
Qed.

Lemma undecided_listener (l : list nat) (w : World) :
  undecided w0 w -> undecided w0 (set_closeListeners l w).
Proof. intros H. exact H. Qed.

Lemma undecided_native_reject (allowedMethods : option (list string)) (w : World) :
  undecided w0 w -> undecided w0 (native_reject allowedMethods w).
Proof.
  intros (A & R & U & L & C & O & (calls & Et & Ft) & Em).
  repeat split; auto. exists (calls ++ [TReject allowedMethods]). simpl.
  rewrite Et, <- app_assoc. split; [reflexivity|].
  rewrite forallb_app, Ft. reflexivity.
Qed.

Lemma stays_bind {A B : Type} (m : M A) (k : A -> M B) :
  stays_undecided w0 m -> (forall a, stays_undecided w0 (k a)) ->
  stays_undecided w0 (bind m k).
Proof.
  intros Hm Hk s U. unfold bind. specialize (Hm s U).
  destruct (m s) as [[a|e] s']; simpl in Hm; [apply Hk; exact Hm | exact Hm].
Qed.

Lemma stays_exec_script (body : Script) (next : NextFn) :
  no_decision body = true -> stays_undecided w0 next ->
  stays_undecided w0 (exec_script body next).
Proof.
  intros Hb Hn. induction body as [|ins body IH]; simpl.
  - intros s U. exact U.
  - simpl in Hb. apply andb_true_iff in Hb as [Hi Hb].
    apply stays_bind; [|intros _; apply IH; exact Hb].
    destruct ins; simpl; try discriminate; try exact Hn.
    + intros s U. simpl. apply undecided_observe; [reflexivity | exact U].
    + intros s U. exact U.
Qed.

Lemma undecided_logging_enter (s : St) :
  undecided w0 (world s) -> undecided w0 (world (logging_enter s)).
Proof.
  intros U. unfold logging_enter.
  destruct (accept (ctx s)), (reject (ctx s)); simpl;
    apply undecided_new_cell; exact U.
Qed.

Lemma undecided_logging_exit (options : LoggingOptions) (cell : nat) (s : St) :
  List.length (authResult w0) <= cell ->
  undecided w0 (world s) -> logging_exit options cell s = s.
Proof.
  intros Hc (A & R & U & L & C & O & T). unfold logging_exit.
  rewrite (C cell Hc). reflexivity.
Qed.

Lemma undecided_logging_session (options : LoggingOptions) (s : St) :
  undecided w0 (world s) -> undecided w0 (world (logging_session options s)).
Proof.
  intros U. unfold logging_session.
  destruct (onConnect options), (onDisconnect options); simpl; auto;
    try (apply undecided_listener); try (apply undecided_observe); auto.
Qed.

Lemma stays_logging (options : LoggingOptions) (next : NextFn) :
  stays_undecided w0 next -> stays_undecided w0 (logging options next).
Proof.
  intros Hn s U. destruct (phase (ctx s)) eqn:Hp.
  - rewrite logging_auth by exact Hp.
    pose proof (Hn _ (undecided_logging_enter s U)) as U'.
    destruct (next (logging_enter s)) as [[[]|e] s']; simpl in *; [|exact U'].
    rewrite undecided_logging_exit; [exact U'| |exact U'].
    destruct U as (_ & _ & _ & L & _). exact L.
  - rewrite logging_in_session by exact Hp.
    apply Hn. apply undecided_logging_session. exact U.
Qed.

Lemma stays_middleware (m : MwSpec) (next : NextFn) :
  observer m = true -> stays_undecided w0 next ->
  stays_undecided w0 (middleware_of m next).
Proof.
  destruct m as [body|options|keys|]; simpl; intros Ho Hn; try discriminate.
  - apply stays_exec_script; assumption.
  - apply stays_logging; assumption.
Qed.

Lemma stays_dispatch (chain : list MwSpec) (next : NextFn) :
  forallb observer chain = true -> stays_undecided w0 next ->
  forall i, stays_undecided w0 (dispatch (map middleware_of chain) next i).
Proof.
  intros Hc Hn. induction chain as [|m chain IH]; intros i s U; simpl.
  - destruct (Z.of_nat i <=? index s)%Z; [exact U | apply Hn; exact U].
  - simpl in Hc. apply andb_true_iff in Hc as [Hm Hc].
    destruct (Z.of_nat i <=? index s)%Z; [exact U|].
    apply stays_middleware; [exact Hm | | exact U].
    intros s1 U1. unfold next_closure. apply IH; [exact Hc | exact U1].
Qed.

Lemma stays_in_caller_frame (next : NextFn) :
  stays_undecided w0 next -> stays_undecided w0 (in_caller_frame next).
Proof.
  intros Hn s U. unfold in_caller_frame.
  destruct (frames s) as [|outer rest]; [apply Hn; exact U|].
  pose proof (Hn (set_index outer (set_frames rest s)) U) as H.
  destruct (next (set_index outer (set_frames rest s))) as [r s']. exact H.
Qed.

Lemma stays_server_middleware (chain : list MwSpec) (next : NextFn) :
  forallb observer chain = true -> stays_undecided w0 next ->
  stays_undecided w0 (server_middleware chain next).
Proof.
  intros Hc Hn. destruct chain as [|m chain]; [exact Hn|].
  unfold server_middleware. intros s U. rewrite compose_unfold. cbn [snd].
  rewrite (proj1 (leave_frame_keeps _)).
  apply (stays_dispatch (m :: chain) _ Hc (stays_in_caller_frame next Hn) 0).
  exact U.
Qed.

Lemma undecided_start (w : World) :
  w0 = set_rejected false (set_accepted false w) -> undecided w0 w0.
Proof.
  intros ->. repeat split; simpl; auto.
  - intros j Hj. apply nth_overflow. exact Hj.
  - exists []. rewrite app_nil_r. split; reflexivity.
  - exists []. rewrite app_nil_r. split; reflexivity.
Qed.

Lemma stays_default_reject (user method : string) (k : option PublicKey) :
  stays_undecided w0
    (default_reject (wrap_accept (transport_context user method k))).
Proof.
  intros s U. unfold default_reject, bind, get_world, modify_world, ret.
  destruct (negb (accepted (world s)) && negb (rejected (world s))); simpl;
    [apply undecided_native_reject; exact U | exact U].
Qed.

(** **** When every middleware calls [next]: the default reject is issued *)

Lemma exec_push_marks (ls : list Label) (rest : Script) (next : NextFn) (s : St) :
  exec_script (map Push ls ++ rest) next s = exec_script rest next (push_marks ls s).
Proof.
  revert s. induction ls as [|l ls IH]; intros s; [reflexivity|].
  simpl. unfold bind, modify_world. simpl. apply IH.
Qed.

Lemma push_marks_frame (ls : list Label) (s : St) :
  index (push_marks ls s) = index s
  /\ next_calls (push_marks ls s) = next_calls s
  /\ transport (world (push_marks ls s)) = transport (world s)
  /\ (undecided w0 (world s) -> undecided w0 (world (push_marks ls s))).
Proof.
  revert s. induction ls as [|l ls IH]; intros s; [simpl; auto|].
  simpl. destruct (IH (push_mark l s)) as (I & N & T & U).
  rewrite I, N, T. split; [|split; [|split]]; try reflexivity.
  intros Hu. apply U. simpl. apply undecided_observe; [reflexivity | exact Hu].
Qed.

Lemma exec_passing_body (pre post : list Label) (next : NextFn) (s s2 : St) :
  next (push_marks pre s) = (Ok tt, s2) ->
  exec_script (map Push pre ++ AwaitNext :: map Push post) next s
  = (Ok tt, push_marks post s2).
Proof.
  intros E. rewrite exec_push_marks. simpl. unfold bind at 1. rewrite E.
  replace (map Push post) with (map Push post ++ []) by apply app_nil_r.
  rewrite exec_push_marks. reflexivity.
Qed.

Lemma logging_enter_frame (s : St) :
  index (logging_enter s) = index s
  /\ next_calls (logging_enter s) = next_calls s
  /\ phase (ctx (logging_enter s)) = phase (ctx s)
  /\ transport (world (logging_enter s)) = transport (world s).
Proof.
  unfold logging_enter. destruct (accept (ctx s)), (reject (ctx s)); simpl; auto.
Qed.

Lemma logging_session_frame (options : LoggingOptions) (s : St) :
  index (logging_session options s) = index s
  /\ transport (world (logging_session options s)) = transport (world s).
Proof.
  unfold logging_session.
  destruct (onConnect options), (onDisconnect options); simpl; auto.
Qed.

Lemma dispatch_passing (user method : string) (k : option PublicKey)
  (chain : list Passing) :
  forall (i : nat) (s : St),
    undecided w0 (world s) -> (index s < Z.of_nat i)%Z ->
    exists s',
      dispatch (map middleware_of (map passing_spec chain))
        (in_caller_frame
           (default_reject (wrap_accept (transport_context user method k)))) i s
      = (Ok tt, s')
      /\ undecided w0 (world s')
      /\ transport (world s') = transport (world s) ++ [TReject (Some ["publickey"])].
Proof.
  induction chain as [|p chain IH]; intros i s U Hi.
  - simpl map. rewrite dispatch_enter by exact Hi.
    rewrite in_caller_frame_blind by apply frame_blind_default_reject.
    unfold default_reject, bind, get_world, modify_world. simpl.
    destruct U as (A & R & U). rewrite A, R. simpl.
    eexists. split; [reflexivity|]. split; [|reflexivity].
    apply undecided_native_reject. repeat split; auto; apply U.
  - simpl map. rewrite dispatch_enter by exact Hi.
    destruct p as [options|pre post]; simpl middleware_of.
    + set (si := set_index (Z.of_nat i) s).
      destruct (phase (ctx si)) eqn:Hp.
      * rewrite logging_auth by exact Hp. unfold next_closure.
        destruct (logging_enter_frame si) as (I & N & P & T).
        destruct (IH (S i) (set_next_calls (next_calls (logging_enter si) ++ [i])
                              (logging_enter si))) as (s' & E & U' & T').
        { simpl. apply undecided_logging_enter. exact U. }
        { simpl. rewrite I. simpl. lia. }
        rewrite E. exists s'. rewrite undecided_logging_exit; [| |exact U'].
        -- split; [reflexivity|]. split; [exact U'|]. rewrite T'. simpl.
           rewrite T. reflexivity.
        -- destruct U as (_ & _ & _ & L & _). exact L.
      * rewrite logging_in_session by exact Hp. unfold next_closure.
        destruct (logging_session_frame options si) as (I & T).
        destruct (IH (S i) (set_next_calls (next_calls (logging_session options si) ++ [i])
                              (logging_session options si))) as (s' & E & U' & T').
        { simpl. apply undecided_logging_session. exact U. }
        { simpl. rewrite I. simpl. lia. }
        exists s'. split; [exact E|]. split; [exact U'|]. rewrite T'. simpl.
        rewrite T. reflexivity.
    + set (si := set_index (Z.of_nat i) s).
      destruct (push_marks_frame pre si) as (I & N & T & Up).
      destruct (IH (S i) (set_next_calls (next_calls (push_marks pre si) ++ [i])
                            (push_marks pre si))) as (s' & E & U' & T').
      { simpl. apply Up. exact U. }
      { simpl. rewrite I. simpl. lia. }
      exists (push_marks post s'). split.
      * apply exec_passing_body. unfold next_closure. exact E.
      * destruct (push_marks_frame post s') as (_ & _ & T2 & U2).
        split; [apply U2; exact U'|]. rewrite T2, T'. simpl. rewrite T. reflexivity.
Qed.

End Undecided.

(** The default reject when every middleware of the configuration awaits
    [next] once and none decides: the dispatch resolves and the transport
    receives one call, [reject(["publickey"])]. *)
Lemma passing_chain_default_reject (chain : list Passing) (user method : string)
  (k : option PublicKey) (w : World) :
  let w' := on_authentication (map passing_spec chain) remote
              (transport_context user method k) w in
  transport w' = transport w ++ [TReject (Some ["publickey"])]
  /\ emitted w' = emitted w.
Proof.
  set (w0 := set_rejected false (set_accepted false w)).
  set (c := wrap_accept (transport_context user method k)).
  assert (U0 : undecided w0 w0) by (apply (undecided_start w0 w); reflexivity).
  unfold on_authentication, handleAuth. fold c. fold w0.
  match goal with |- context [server_middleware _ _ ?s0] => set (st0 := s0) end.
  assert (H : exists s',
             server_middleware (map passing_spec chain) (default_reject c) st0
             = (Ok tt, s')
             /\ undecided w0 (world s')
             /\ transport (world s') = transport w0 ++ [TReject (Some ["publickey"])]).
  { destruct chain as [|p chain].
    - eexists. split; [reflexivity|]. split; [|reflexivity].
      apply undecided_native_reject. exact U0.
    - change (server_middleware (map passing_spec (p :: chain)))
        with (compose (map middleware_of (map passing_spec (p :: chain)))).
      unfold compose.
      destruct (dispatch_passing w0 user method k (p :: chain) 0 (enter_frame st0))
        as (s' & E & U' & T'); [exact U0 | simpl; lia |].
      fold c in E. rewrite E. exists (leave_frame s'). cbn [fst snd].
      rewrite (proj1 (leave_frame_keeps s')).
      split; [reflexivity|]. split; [exact U' | exact T']. }
  destruct H as (s' & E & U' & T'). rewrite E. cbv zeta. split.
  - rewrite T'. reflexivity.
  - destruct U' as (_ & _ & _ & _ & _ & _ & _ & Em). exact Em.
Qed.

(** C4, as the code has it.  When no middleware decides and every middleware
    of the configuration awaits [next] once ([logging] layers and bodies that
    only push marks around their [await next()]), the terminal continuation
    runs and the transport receives one call for the attempt,
    [reject(["publickey"])]; the server emits no event. *)
Theorem default_reject_when_terminal_runs (chain : list Passing)
  (user method : string) (k : option PublicKey) (w : World) :
  let w' := on_authentication (map passing_spec chain) remote
              (transport_context user method k) w in
  transport w' = transport w ++ [TReject (Some ["publickey"])]
  /\ emitted w' = emitted w.
Proof. apply passing_chain_default_reject. Qed.

(** C10 (the default reject is not seen by wrappers).  In a configuration
    whose middlewares never call [ctx.accept] or [ctx.reject] ([logging]
    layers and bodies without decision), after an authentication attempt the
    flags [accepted] and [rejected] are both false, no [onAuthAttempt] hook
    has been invoked, and the transport has received rejects only; when
    moreover every middleware awaits [next] once, what the transport has
    received is the default [reject(["publickey"])] of the terminal
    continuation. *)
Theorem default_reject_unobserved (chain : list MwSpec) (user method : string)
  (k : option PublicKey) (w : World) :
  forallb observer chain = true ->
  let w' := on_authentication chain remote (transport_context user method k) w in
  rejected w' = false /\ accepted w' = false
  /\ (exists obs, observed w' = observed w ++ obs
                  /\ forallb (fun o => negb (is_auth_attempt o)) obs = true)
  /\ (exists calls, transport w' = transport w ++ calls
                    /\ forallb is_treject calls = true)
  /\ (forall passing, chain = map passing_spec passing ->
        transport w' = transport w ++ [TReject (Some ["publickey"])]).
Proof.
  intros Hc.
  set (w0 := set_rejected false (set_accepted false w)).
  set (c := wrap_accept (transport_context user method k)).
  assert (U0 : undecided w0 w0) by (apply (undecided_start w0 w); reflexivity).
  pose proof (stays_server_middleware w0 chain (default_reject c) Hc
                (stays_default_reject w0 user method k)) as Hs.
  assert (Hp : forall passing, chain = map passing_spec passing ->
            transport (on_authentication chain remote
                         (transport_context user method k) w)
            = transport w ++ [TReject (Some ["publickey"])]).
  { intros passing ->. apply passing_chain_default_reject. }
  assert (H4 : let w' := on_authentication chain remote
                           (transport_context user method k) w in
               rejected w' = false /\ accepted w' = false
               /\ (exists obs, observed w' = observed w ++ obs
                     /\ forallb (fun o => negb (is_auth_attempt o)) obs = true)
               /\ (exists calls, transport w' = transport w ++ calls
                     /\ forallb is_treject calls = true)).
  { clear Hp. unfold on_authentication, handleAuth. fold c. fold w0.
    match goal with |- context [server_middleware chain (default_reject c) ?s0] =>
      specialize (Hs s0 U0);
      destruct (server_middleware chain (default_reject c) s0) as [[[]|e] s']
    end; simpl in Hs; cbv zeta.
    - destruct Hs as (A & R & _ & _ & _ & O & T & _). auto.
    - unfold emit_error. simpl. destruct (errorListener (world s')); simpl.
      + apply (undecided_native_reject w0 None) in Hs.
        destruct Hs as (A & R & _ & _ & _ & O & T & _). simpl. auto.
      + destruct Hs as (A & R & _ & _ & _ & O & T & _). auto. }
  cbv zeta in *. destruct H4 as (R & A & O & T). auto.
Qed.

(** *** Decisions are forwarded one by one *)

Lemma exec_decisions (accf : World -> World)
  (rejf : option (list string) -> World -> World)
  (ds : list Decision) (rest : Script) (next : NextFn) :
  forall s, accept (ctx s) = Some accf -> reject (ctx s) = Some rejf ->
    exec_script (map instr_of ds ++ rest) next s
    = exec_script rest next (set_world (decisions_effect accf rejf ds (world s)) s).
Proof.
  induction ds as [|d ds IH]; intros s Ha Hr.
  - simpl. destruct s; reflexivity.
  - simpl map. simpl app. simpl exec_script. unfold bind at 1.
    assert (E : exec_instr (instr_of d) next s
                = (Ok tt, set_world (decision_effect accf rejf d (world s)) s)).
    { destruct d; simpl; unfold call_accept, call_reject, bind, get_ctx, modify_world;
        rewrite ?Ha, ?Hr; reflexivity. }
    rewrite E. rewrite IH by assumption. reflexivity.
Qed.

Lemma write_cell_length (k : nat) (v : option bool) (cells : list (option bool)) :
  List.length (write_cell k v cells) = List.length cells.
Proof.
  revert k. induction cells as [|c cells IH]; intros [|k]; simpl; auto.
Qed.

Lemma write_cell_nth (k : nat) (v : option bool) (cells : list (option bool)) :
  k < List.length cells -> nth k (write_cell k v cells) None = v.
Proof.
  revert k. induction cells as [|c cells IH]; intros [|k] H; simpl in *;
    try lia; auto. apply IH. lia.
Qed.

Lemma last_decision_cons (d : Decision) (ds : list Decision) :
  last_decision (d :: ds) =
  match last_decision ds with Some d' => Some d' | None => Some d end.
Proof.
  unfold last_decision. revert d. induction ds as [|d' ds IH]; intros d.
  - reflexivity.
  - change (map Some (d :: d' :: ds)) with (Some d :: map Some (d' :: ds)).
    change (last (Some d :: map Some (d' :: ds)) None)
      with (last (map Some (d' :: ds)) None).
    rewrite IH. destruct (last (map Some ds) None); reflexivity.
Qed.

Lemma logged_decisions (u : UserInfo) (cell : nat) (ds : list Decision) :
  forall w, cell < List.length (authResult w) ->
    let w' := decisions_effect (logged_accept u cell) (logged_reject cell) ds w in
    transport w' = transport w ++ map call_of ds
    /\ accepted w' = accepted w || existsb is_accept ds
    /\ rejected w' = rejected w || existsb is_reject ds
    /\ observed w' = observed w
    /\ emitted w' = emitted w
    /\ nth cell (authResult w') None =
         match last_decision ds with
         | Some d => Some (is_accept d)
         | None => nth cell (authResult w) None
         end.
Proof.
  induction ds as [|d ds IH]; intros w Hc.
  - simpl. rewrite app_nil_r, !orb_false_r. repeat split; reflexivity.
  - simpl decisions_effect.
    change (fold_left (fun w0 d0 => decision_effect (logged_accept u cell)
                                      (logged_reject cell) d0 w0) ds
              (decision_effect (logged_accept u cell) (logged_reject cell) d w))
      with (decisions_effect (logged_accept u cell) (logged_reject cell) ds
              (decision_effect (logged_accept u cell) (logged_reject cell) d w)).
    set (w1 := decision_effect (logged_accept u cell) (logged_reject cell) d w).
    assert (H1 : transport w1 = transport w ++ [call_of d]
                 /\ accepted w1 = accepted w || is_accept d
                 /\ rejected w1 = rejected w || is_reject d
                 /\ observed w1 = observed w /\ emitted w1 = emitted w
                 /\ List.length (authResult w1) = List.length (authResult w)
                 /\ nth cell (authResult w1) None = Some (is_accept d)).
    { unfold w1. destruct d; simpl;
        rewrite ?orb_true_r, ?orb_false_r, write_cell_length, write_cell_nth by exact Hc;
        repeat split; reflexivity. }
    destruct H1 as (T1 & A1 & R1 & O1 & E1 & L1 & N1).
    destruct (IH w1) as (T & A & R & O & E & N); [rewrite L1; exact Hc|].
    cbv zeta. rewrite T, A, R, O, E, N, T1, A1, R1, O1, E1, N1.
    rewrite last_decision_cons. simpl map. simpl existsb.
    rewrite <- app_assoc, !orb_assoc. repeat split; try reflexivity.
    destruct (last_decision ds); reflexivity.
Qed.

Arguments decisions_effect : simpl never.

(** The store after an attempt handled by [logging] followed by a decider. *)
Lemma decider_attempt (options : LoggingOptions) (ds : list Decision)
  (user method : string) (k : option PublicKey) (w : World) :
  let c := transport_context user method k in
  let cell := List.length (authResult w) in
  let w0 := set_rejected false (set_accepted false w) in
  let W := decisions_effect (logged_accept (userinfo_of c) cell) (logged_reject cell)
             ds (set_authResult (authResult w0 ++ [None]) w0) in
  let W2 := if negb (accepted W) && negb (rejected W)
            then native_reject (Some ["publickey"]) W else W in
  on_authentication [Logging options; User (decider ds)] remote c w
  = match nth cell (authResult W2) None, onAuthAttempt options with
    | Some r, Some hook => observe (AuthAttempt hook user r) W2
    | _, _ => W2
    end.
Proof.
  intros c cell w0 W W2.
  unfold on_authentication, handleAuth, server_middleware, compose.
  cbn [map middleware_of].
  rewrite dispatch_enter by (simpl; lia).
  rewrite logging_auth by reflexivity.
  unfold next_closure at 1.
  rewrite dispatch_enter by (simpl; lia).
  unfold decider.
  rewrite (exec_decisions (logged_accept (userinfo_of c) cell) (logged_reject cell))
    by reflexivity.
  unfold exec_script, exec_instr, next_closure, bind, ret.
  rewrite dispatch_enter by (simpl; lia).
  rewrite in_caller_frame_blind by apply frame_blind_default_reject.
  unfold default_reject, bind, get_world, modify_world, ret, logging_exit.
  unfold W2, W, w0, cell. simpl.
  set (W' := decisions_effect _ _ _ _).
  destruct (negb (accepted W') && negb (rejected W')); simpl;
    destruct (nth (List.length (authResult w)) (authResult W') None),
             (onAuthAttempt options); reflexivity.
Qed.

(** With [logging] in front of a body that takes the decisions [ds] and then
    awaits [next]: every call of [ctx.accept] or [ctx.reject] reaches the
    transport, in call order; the terminal continuation adds its default
    reject only when [ds] is empty; and the [onAuthAttempt] hook runs once,
    with the last decision. *)
Lemma logging_sees_last_decision (options : LoggingOptions)
  (ds : list Decision) (user method : string) (k : option PublicKey) (w : World) :
  let w' := on_authentication [Logging options; User (decider ds)] remote
              (transport_context user method k) w in
  transport w' =
    transport w ++ map call_of ds
    ++ match ds with [] => [TReject (Some ["publickey"])] | _ :: _ => [] end
  /\ accepted w' = existsb is_accept ds
  /\ rejected w' = existsb is_reject ds
  /\ observed w' =
       observed w
       ++ match onAuthAttempt options, last_decision ds with
          | Some hook, Some d => [AuthAttempt hook user (is_accept d)]
          | _, _ => []
          end.
Proof.
  pose proof (decider_attempt options ds user method k w) as E.
  cbv zeta in E. cbv zeta. rewrite E. clear E.
  set (c := transport_context user method k).
  set (cell := List.length (authResult w)).
  set (w0 := set_rejected false (set_accepted false w)).
  destruct (logged_decisions (userinfo_of c) cell ds
              (set_authResult (authResult w0 ++ [None]) w0))
    as (T & A & R & O & _ & N).
  { simpl. rewrite length_app. simpl. unfold cell. lia. }
  simpl in T, A, R, O, N. fold cell in N.
  replace (nth cell (authResult w ++ [None]) None) with (@None bool) in N
    by (unfold cell; rewrite nth_middle; reflexivity).
  set (W := decisions_effect _ _ _ _) in *.
  rewrite A, R.
  destruct ds as [|d ds].
  - clear T A R O N. subst W. unfold decisions_effect. simpl.
    unfold cell. rewrite nth_middle.
    destruct (onAuthAttempt options); rewrite app_nil_r; repeat split; reflexivity.
  - assert (D : negb (existsb is_accept (d :: ds)) && negb (existsb is_reject (d :: ds))
                = false).
    { simpl. destruct d; simpl; rewrite ?andb_false_r; reflexivity. }
    rewrite D, N. rewrite app_nil_r.
    assert (L : exists d', last_decision (d :: ds) = Some d').
    { rewrite last_decision_cons. destruct (last_decision ds); eauto. }
    destruct L as (d' & L). rewrite L.
    destruct (onAuthAttempt options); simpl; rewrite T, A, R, O;
      repeat split; try reflexivity; rewrite app_nil_r; reflexivity.
Qed.

(** *** A dispatch emits no server event *)





















End Authentication.


(** The README configuration with [logging] and one more layer, no decider. *)
Lemma default_reject_unobserved_witness :
  let w' := on_authentication [Logging auth_logger; User (onion 1)] "127.0.0.1"
              (transport_context "testuser" "none" None) empty_world in
  rejected w' = false /\ accepted w' = false
  /\ (exists obs, observed w' = observed empty_world ++ obs
                  /\ forallb (fun o => negb (is_auth_attempt o)) obs = true)
  /\ (exists calls, transport w' = transport empty_world ++ calls
                    /\ forallb is_treject calls = true)
  /\ (forall passing,
        [Logging auth_logger; User (onion 1)] = map passing_spec passing ->
        transport w' = transport empty_world ++ [TReject (Some ["publickey"])]).
Proof.
  apply (default_reject_unobserved "127.0.0.1" [Logging auth_logger; User (onion 1)]
           "testuser" "none" None empty_world).
  reflexivity.
Defined.

(* ===================================================================== *)
(** * Properties of the session bridge *)

Section Bridge.

Lemma count_occ_remove_first (id j : nat) (l : list nat) :
  In id l ->
  count_occ Nat.eq_dec (remove_first id l) j + (if Nat.eq_dec id j then 1 else 0)
  = count_occ Nat.eq_dec l j.
Proof.
  induction l as [|y l IH]; intros Hin; [destruct Hin|].
  simpl remove_first. destruct (Nat.eqb_spec id y) as [<-|Hne].
  - simpl. destruct (Nat.eq_dec id j); lia.
  - destruct Hin as [->|Hin]; [congruence|].
    specialize (IH Hin). simpl. destruct (Nat.eq_dec y j); lia.
Qed.

Lemma existsb_eqb_In (id : nat) (l : list nat) :
  existsb (Nat.eqb id) l = true -> In id l.
Proof.
  intros H. apply existsb_exists in H as (x & Hx & E).
  apply Nat.eqb_eq in E. subst. exact Hx.
Qed.

Lemma flush_balance_step (e : Event) (s : Session) :
  flush_balance s -> flush_balance (step e s).
Proof.
  intros B. destruct e as [buffer outcome|flush err|b|input|message| |err fault|w h|code];
    simpl.
  - (* the renderer flushes *)
    intros id. specialize (B id). unfold done_count, write_pending in *.
    unfold onFlush. simpl.
    assert (F : (if (id <? S (flushes s))%nat then 1 else 0)
                = (if (id <? flushes s)%nat then 1 else 0)
                  + (if Nat.eq_dec (flushes s) id then 1 else 0)).
    { destruct (Nat.ltb_spec id (S (flushes s))), (Nat.ltb_spec id (flushes s)),
        (Nat.eq_dec (flushes s) id); lia. }
    destruct (closed s || negb (writable s)); [|destruct outcome]; simpl;
      rewrite count_occ_snoc, F; lia.
  - (* the stream completes a write *)
    destruct (existsb (Nat.eqb flush) (pending_writes s)) eqn:Hp; [|exact B].
    apply existsb_eqb_In in Hp. intros id. specialize (B id).
    unfold done_count, write_pending in *.
    pose proof (count_occ_remove_first flush id (pending_writes s) Hp) as C.
    unfold write_callback. destruct err; simpl; rewrite count_occ_snoc; lia.
  - exact B.
  - destruct (negb (closed s)); exact B.
  - unfold _cleanup. simpl. destruct (closed s); exact B.
  - unfold _cleanup. destruct (closed s); exact B.
  - destruct (pending_idle s); [exact B|].
    destruct err; [|destruct fault]; exact B.
  - unfold handleResize.
    destruct (js_lt _ _ || js_lt _ _ || js_gt _ _ || js_gt _ _); exact B.
  - unfold close. destruct (closed s); exact B.
Qed.

Lemma flush_balance_run (events : list Event) (s : Session) :
  flush_balance s -> flush_balance (run events s).
Proof.
  revert s. induction events as [|e events IH]; intros s B; [exact B|].
  simpl. apply IH. apply flush_balance_step. exact B.
Qed.

(** The four paths of the flush handler, one by one. *)
Lemma onFlush_paths (id : nat) (buffer : list nat) (s : Session) :
  (forall outcome, closed s = true ->
     onFlush id buffer outcome s = call_done id s)
  /\ (forall outcome, writable s = false ->
     onFlush id buffer outcome s = call_done id s)
  /\ (forall message, closed s = false -> writable s = true ->
     done_calls (onFlush id buffer (WriteThrows message) s) = done_calls s ++ [id]
     /\ pending_writes (onFlush id buffer (WriteThrows message) s) = pending_writes s)
  /\ (forall err, closed s = false -> writable s = true ->
     done_calls (onFlush id buffer WriteQueued s) = done_calls s
     /\ pending_writes (onFlush id buffer WriteQueued s) = pending_writes s ++ [id]
     /\ done_calls (write_callback id err (onFlush id buffer WriteQueued s))
        = done_calls s ++ [id]).
Proof.
  unfold onFlush. split; [|split; [|split]].
  - intros outcome H. rewrite H. reflexivity.
  - intros outcome H. rewrite H, orb_true_r. reflexivity.
  - intros message H H0. rewrite H, H0. split; reflexivity.
  - intros err H H0. rewrite H, H0. destruct err; repeat split; reflexivity.
Qed.

(** C1 (flush acknowledgment).  On each path of the flush handler [done] is
    called once: at once when the session is closed, when the channel is not
    writable and when the write throws; from the write callback when the
    channel took the write.  And over any sequence of flushes, write
    completions, closes, errors and changes of writability, for every flush
    the renderer has issued, the calls of its [done] and the write callbacks
    still held by the stream add up to one: [done] is never called twice, and
    it has been called once as soon as the stream has invoked the callback. *)
Theorem flush_done_exactly_once :
  (forall (id : nat) (buffer : list nat) (s : Session),
     (forall outcome, closed s = true ->
        done_calls (onFlush id buffer outcome s) = done_calls s ++ [id]
        /\ pending_writes (onFlush id buffer outcome s) = pending_writes s)
     /\ (forall outcome, writable s = false ->
        done_calls (onFlush id buffer outcome s) = done_calls s ++ [id]
        /\ pending_writes (onFlush id buffer outcome s) = pending_writes s)
     /\ (forall message, closed s = false -> writable s = true ->
        done_calls (onFlush id buffer (WriteThrows message) s) = done_calls s ++ [id]
        /\ pending_writes (onFlush id buffer (WriteThrows message) s)
           = pending_writes s)
     /\ (forall err, closed s = false -> writable s = true ->
        done_calls (onFlush id buffer WriteQueued s) = done_calls s
        /\ pending_writes (onFlush id buffer WriteQueued s) = pending_writes s ++ [id]
        /\ done_calls (write_callback id err (onFlush id buffer WriteQueued s))
           = done_calls s ++ [id]))
  /\ (forall (p : PtyInfo) (events : list Event) (id : nat),
       let s := run events (new_session p) in
       done_count s id + write_pending s id
       = (if (id <? flushes s)%nat then 1 else 0)).
Proof.
  split.
  - intros id buffer s.
    destruct (onFlush_paths id buffer s) as (P1 & P2 & P3 & P4).
    split; [|split; [|split]].
    + intros outcome H. rewrite (P1 outcome H). split; reflexivity.
    + intros outcome H. rewrite (P2 outcome H). split; reflexivity.
    + exact P3.
    + exact P4.
  - intros p events id. apply flush_balance_run. intros j. reflexivity.
Qed.

(** A flush on a closed session, one on an open session whose write throws,
    and one whose write completes later. *)
Lemma flush_done_exactly_once_witness :
  done_calls (onFlush 0 [27] WriteQueued (close 0 (new_session xterm_80x24))) = [0]
  /\ done_calls (onFlush 1 [27] (WriteThrows "destroyed") (new_session xterm_80x24))
     = [1]
  /\ done_calls (write_callback 2 None
                   (onFlush 2 [27] WriteQueued (new_session xterm_80x24))) = [2].
Proof.
  split; [|split].
  - apply (proj1 (proj1 flush_done_exactly_once 0 [27]
                    (close 0 (new_session xterm_80x24))) WriteQueued).
    reflexivity.
  - apply (proj1 (proj2 (proj2 (proj1 flush_done_exactly_once 1 [27]
                                  (new_session xterm_80x24)))) "destroyed");
      reflexivity.
  - apply (proj2 (proj2 (proj2 (proj1 flush_done_exactly_once 2 [27]
                                  (new_session xterm_80x24)))) None);
      reflexivity.
Defined.

Lemma js_lt_of_Z (a b : Z) : js_lt (js_of_Z a) (js_of_Z b) = (a <? b)%Z.
Proof.
  unfold js_of_Z, js_lt, dyadic_ltb. simpl. rewrite !Z.mul_1_r. reflexivity.
Qed.

(** For a number that is not NaN, the two comparisons of the guard fail
    exactly when the number is in [1, 10000]. *)
Lemma guard_in_range (n : JsNumber) :
  is_nan n = false -> js_lt n 1 || js_gt n 10000 = negb (in_range n).
Proof.
  intros N. unfold in_range, js_le, js_gt.
  destruct n; try discriminate; simpl; try reflexivity.
  rewrite negb_andb, !negb_involutive. reflexivity.
Qed.

Lemma guard_of_handleResize (w h : JsNumber) :
  is_nan w = false -> is_nan h = false ->
  js_lt w 1 || js_lt h 1 || js_gt w 10000 || js_gt h 10000
  = negb (in_range w && in_range h).
Proof.
  intros Nw Nh. rewrite negb_andb, <- (guard_in_range w Nw), <- (guard_in_range h Nh).
  destruct (js_lt w 1), (js_lt h 1), (js_gt w 10000), (js_gt h 10000); reflexivity.
Qed.

(** C5 (resize), at the input on which the code departs from it.  NaN is not
    in [1, 10000], and yet [handleResize(NaN, 24)] is not ignored: each of
    the four comparisons of the guard is false for NaN, so that NaN is stored
    as the width, handed to the renderer's resize and carried by a [resize]
    event.  This holds from every session. *)
Theorem handleResize_lets_nan_through (s : Session) :
  in_range NaN = false
  /\ pty (handleResize NaN 24 s) = {| term := term (pty s); width := NaN; height := 24 |}
  /\ renderer_calls (handleResize NaN 24 s) = renderer_calls s ++ [RResize NaN 24]
  /\ session_events (handleResize NaN 24 s) = session_events s ++ [SessResize NaN 24]
  /\ handleResize NaN 24 s <> s.
Proof.
  repeat split; try reflexivity.
  intros E. apply (f_equal (fun x => List.length (session_events x))) in E.
  simpl in E. rewrite length_app in E. simpl in E. lia.
Qed.

(** What [handleResize] does with numbers.  For two numbers neither of which
    is NaN: a request with a dimension outside [1, 10000] leaves the session
    as it was, with no change of the pty, no call of the renderer and no
    event; any other request stores both dimensions, calls the renderer's
    resize once and emits one [resize] event. *)
Theorem handleResize_spec (w h : JsNumber) (s : Session) :
  is_nan w = false -> is_nan h = false ->
  (in_range w && in_range h = false -> handleResize w h s = s)
  /\ (in_range w && in_range h = true ->
      pty (handleResize w h s) = {| term := term (pty s); width := w; height := h |}
      /\ renderer_calls (handleResize w h s) = renderer_calls s ++ [RResize w h]
      /\ session_events (handleResize w h s) = session_events s ++ [SessResize w h]
      /\ closed (handleResize w h s) = closed s
      /\ stream_calls (handleResize w h s) = stream_calls s).
Proof.
  intros Nw Nh. unfold handleResize. rewrite (guard_of_handleResize w h Nw Nh).
  split; intros ->; simpl; repeat split.
Qed.

(** The inputs of the resize test. *)
Lemma handleResize_spec_witness :
  handleResize 0 24 (new_session xterm_80x24) = new_session xterm_80x24
  /\ handleResize 80 0 (new_session xterm_80x24) = new_session xterm_80x24
  /\ handleResize 10001 24 (new_session xterm_80x24) = new_session xterm_80x24
  /\ session_events (handleResize 80 24 (new_session xterm_80x24)) = [SessResize 80 24].
Proof.
  split; [|split; [|split]].
  - apply (proj1 (handleResize_spec 0 24 _ eq_refl eq_refl)). reflexivity.
  - apply (proj1 (handleResize_spec 80 0 _ eq_refl eq_refl)). reflexivity.
  - apply (proj1 (handleResize_spec 10001 24 _ eq_refl eq_refl)). reflexivity.
  - apply (proj2 (handleResize_spec 80 24 (new_session xterm_80x24) eq_refl eq_refl)).
    reflexivity.
Defined.

Lemma close_count_emit_close (s : Session) :
  close_count (session_emit SessClose s) = S (close_count s).
Proof.
  unfold close_count. simpl. rewrite filter_app, length_app. simpl. lia.
Qed.

(** The settling of the idle promise when no listener of [close] throws:
    one [close] event, whichever handler emits it. *)
Lemma idle_settled_close_count (origin : Teardown) (err : option string)
  (fault : HandlerFault) (s : Session) :
  close_listeners_return (IdleSettles err fault) = true ->
  close_count (idle_settled origin err fault s) = S (close_count s)
  /\ pending_idle (idle_settled origin err fault s) = pending_idle s
  /\ closed (idle_settled origin err fault s) = closed s.
Proof.
  intros H. unfold idle_settled, idle_then, idle_catch, emit_close.
  destruct err as [message|]; [|destruct fault as [|message|message]];
    try discriminate; simpl; rewrite close_count_emit_close;
    repeat split; reflexivity.
Qed.

Lemma teardown_balance_step (e : Event) (s : Session) :
  close_listeners_return e = true ->
  teardown_balance s -> teardown_balance (step e s).
Proof.
  unfold teardown_balance. intros L B.
  destruct e as [buffer outcome|flush err|b|input|message| |err fault|w h|code]; simpl.
  - unfold onFlush. simpl.
    destruct (closed s || negb (writable s)); [|destruct outcome]; exact B.
  - destruct (existsb (Nat.eqb flush) (pending_writes s)); [|exact B].
    unfold write_callback. destruct err; exact B.
  - exact B.
  - destruct (negb (closed s)); exact B.
  - unfold _cleanup. simpl. destruct (closed s) eqn:C; simpl.
    + unfold close_count in *. simpl. rewrite C. exact B.
    + unfold close_count in *. simpl in *. rewrite length_app. simpl. lia.
  - unfold _cleanup. destruct (closed s) eqn:C; simpl.
    + rewrite C. exact B.
    + unfold close_count in *. simpl in *. rewrite length_app. simpl. lia.
  - destruct (pending_idle s) as [|origin rest] eqn:P; [rewrite P; exact B|].
    destruct (idle_settled_close_count origin err fault (set_pending_idle rest s) L)
      as (E1 & E2 & E3).
    rewrite E1, E2, E3. simpl in *. unfold close_count in *. simpl. lia.
  - unfold handleResize.
    destruct (js_lt _ _ || js_lt _ _ || js_gt _ _ || js_gt _ _); [exact B|].
    unfold close_count in *. simpl. rewrite filter_app, length_app. simpl.
    rewrite Nat.add_0_r. exact B.
  - unfold close. destruct (closed s) eqn:C; simpl.
    + rewrite C. exact B.
    + unfold close_count in *. simpl in *. rewrite length_app. simpl. lia.
Qed.

Lemma teardown_balance_run (events : list Event) (s : Session) :
  forallb close_listeners_return events = true ->
  teardown_balance s -> teardown_balance (run events s).
Proof.
  revert s. induction events as [|e events IH]; intros s L B; [exact B|].
  simpl in L. apply andb_true_iff in L as [Le L].
  simpl. apply IH; [exact L|]. apply teardown_balance_step; assumption.
Qed.

Lemma close_after_close (s : Session) (c1 c2 : JsNumber) :
  close c2 (close c1 s) = close c1 s.
Proof.
  unfold close. destruct (closed s) eqn:C; simpl; rewrite ?C; reflexivity.
Qed.

Lemma close_twice_then_settle (s : Session) (c1 c2 : JsNumber) (err : option string)
  (fault : HandlerFault) :
  close_listeners_return (IdleSettles err fault) = true ->
  closed s = false -> pending_idle s = [] ->
  close_count (run [CallClose c1; CallClose c2; IdleSettles err fault] s)
  = S (close_count s)
  /\ pending_idle (run [CallClose c1; CallClose c2; IdleSettles err fault] s) = [].
Proof.
  intros L C P.
  change (run [CallClose c1; CallClose c2; IdleSettles err fault] s)
    with (step (IdleSettles err fault) (close c2 (close c1 s))).
  rewrite close_after_close. unfold close. rewrite C. simpl. rewrite P. simpl.
  match goal with |- context [idle_settled ?o err fault ?x] =>
    destruct (idle_settled_close_count o err fault x L) as (E1 & E2 & _)
  end.
  rewrite E1, E2. split; reflexivity.
Qed.

Lemma closed_is_terminal (e : Event) (s : Session) :
  closed s = true -> closed (step e s) = true.
Proof.
  intros C.
  destruct e as [buffer outcome|flush err|b|input|message| |err fault|w h|code]; simpl.
  - unfold onFlush. simpl. rewrite C. simpl. exact C.
  - destruct (existsb (Nat.eqb flush) (pending_writes s)); [|exact C].
    unfold write_callback. destruct err; exact C.
  - exact C.
  - rewrite C. exact C.
  - unfold _cleanup. simpl. rewrite C. exact C.
  - unfold _cleanup. rewrite C. exact C.
  - destruct (pending_idle s); [exact C|].
    destruct err; [|destruct fault]; exact C.
  - unfold handleResize.
    destruct (js_lt _ _ || js_lt _ _ || js_gt _ _ || js_gt _ _); exact C.
  - unfold close. rewrite C. exact C.
Qed.

(** C6 (idempotent teardown), at the input on which the code departs from
    it.  With a listener of [close] that throws: [close()] twice, then the
    idle promise of the renderer resolves.  The handler of [then] destroys
    the renderer and emits [close]; the listener throws out of [emit], which
    rejects the promise of [then], so that the handler of [catch], chained
    after it, runs as well and emits [close] a second time.  The second
    [close()] itself has changed nothing. *)
Theorem close_listener_fault_repeats_close (p : PtyInfo) (message : string) :
  let s := run [CallClose 0; CallClose 0;
                IdleSettles None (CloseListenerThrows message)] (new_session p) in
  close 0 (close 0 (new_session p)) = close 0 (new_session p)
  /\ session_events s = [SessClose; SessClose]
  /\ close_count s = 2
  /\ renderer_calls s = [RStop; RIdle; RDestroy]
  /\ console s = [("[SSH] Error during session close: " ++ message)%string].
Proof. repeat split. Qed.

(** Teardown is idempotent.  A second [close()] changes nothing, and so does
    a [close()] after the cleanup triggered by a stream error or hangup, or a
    cleanup after a [close()]; no event reopens a closed session.  Over any
    sequence of events in which no listener of [close] throws, the [close]
    event is emitted at most once: while the session is open none has been
    emitted, and once it is closed the [close] events emitted and the idle
    promises still pending add up to one.  From an open session, two calls of
    [close()] and the settling of the renderer's idle promise (resolved or
    rejected, with a [destroy()] that returns or throws) give one [close]
    event. *)
Theorem teardown_idempotent :
  (forall s c1 c2, close c2 (close c1 s) = close c1 s)
  /\ (forall s c, close c (_cleanup s) = _cleanup s)
  /\ (forall s c, _cleanup (close c s) = close c s)
  /\ (forall s, _cleanup (_cleanup s) = _cleanup s)
  /\ (forall e s, closed s = true -> closed (step e s) = true)
  /\ (forall p events,
        forallb close_listeners_return events = true ->
        let s := run events (new_session p) in
        close_count s + List.length (pending_idle s) = (if closed s then 1 else 0))
  /\ (forall p events c1 c2 err fault,
        forallb close_listeners_return (events ++ [IdleSettles err fault]) = true ->
        let s := run events (new_session p) in
        closed s = false ->
        close_count (run [CallClose c1; CallClose c2; IdleSettles err fault] s) = 1).
Proof.
  split; [|split; [|split; [|split; [|split; [|split]]]]].
  - intros s c1 c2. apply close_after_close.
  - intros s c. unfold close, _cleanup.
    destruct (closed s) eqn:C; simpl; rewrite ?C; reflexivity.
  - intros s c. unfold close, _cleanup.
    destruct (closed s) eqn:C; simpl; rewrite ?C; reflexivity.
  - intros s. unfold _cleanup. destruct (closed s) eqn:C; simpl; rewrite ?C; reflexivity.
  - apply closed_is_terminal.
  - intros p events L. apply teardown_balance_run; [exact L | reflexivity].
  - intros p events c1 c2 err fault L s C.
    rewrite forallb_app in L. apply andb_true_iff in L as [L Lf].
    simpl in Lf. rewrite andb_true_r in Lf.
    assert (B : teardown_balance s)
      by (apply teardown_balance_run; [exact L | reflexivity]).
    unfold teardown_balance in B. rewrite C in B.
    assert (P : pending_idle s = [])
      by (destruct (pending_idle s); [reflexivity | simpl in B; lia]).
    destruct (close_twice_then_settle s c1 c2 err fault Lf C P) as [E _].
    rewrite E. lia.
Qed.

(** The session test: [close()] twice on a session just made. *)
Lemma teardown_idempotent_witness :
  close_count (run [CallClose 0; CallClose 0; IdleSettles None NoFault]
                 (run [] (new_session xterm_80x24))) = 1.
Proof.
  apply (proj2 (proj2 (proj2 (proj2 (proj2 (proj2 teardown_idempotent)))))
           xterm_80x24 [] 0%num 0%num None NoFault).
  - reflexivity.
  - reflexivity.
Defined.

End Bridge.

(* ===================================================================== *)
(** * Properties of the session requests *)

Section Requests.

(** C8 (exec requests).  The listener calls the transport's [accept]; on the
    channel it returns it logs the request, sends exit status 1 and ends the
    stream, in that order; nothing of the shell phase is started (no shell
    accept, no session dispatch, no [SSHSession]) and the negotiated pty is
    left as it was. *)
Theorem exec_request_terminated (info_command : option string) (r : SessionRequests) :
  (forall stream,
     actions (on_exec (Some stream) info_command r)
     = actions r ++ [ExecAccept; ConsoleLog (exec_message info_command);
                     ChannelExit stream 1; ChannelEnd stream])
  /\ actions (on_exec None info_command r) = actions r ++ [ExecAccept]
  /\ (forall accepted_stream,
        exists new,
          actions (on_exec accepted_stream info_command r) = actions r ++ new
          /\ forallb (fun a => negb (shell_phase a)) new = true
          /\ ptyInfo (on_exec accepted_stream info_command r) = ptyInfo r
          /\ conn (on_exec accepted_stream info_command r) = conn r).
Proof.
  split; [|split].
  - intros stream. unfold on_exec, act. simpl. rewrite <- app_assoc. reflexivity.
  - reflexivity.
  - intros [stream|]; unfold on_exec, act; simpl.
    + eexists. rewrite <- app_assoc. simpl. repeat split; reflexivity.
    + eexists. repeat split; reflexivity.
Qed.

End Requests.

(* ===================================================================== *)
(** * Further properties of the session bridge *)

Section BridgeInvariants.

Lemma step_after_close (e : Event) (s : Session) :
  closed s = true ->
  stream_calls (step e s) = stream_calls s
  /\ exists extra, renderer_calls (step e s) = renderer_calls s ++ extra
                   /\ forallb after_close_call extra = true.
Proof.
  intros C.
  destruct e as [buffer outcome|flush err|b|input|message| |err fault|w h|code]; simpl.
  - unfold onFlush. simpl. rewrite C. simpl.
    split; [reflexivity | exists []; rewrite app_nil_r; split; reflexivity].
  - destruct (existsb (Nat.eqb flush) (pending_writes s));
      [unfold write_callback; destruct err|];
      (split; [reflexivity | exists []; rewrite app_nil_r; split; reflexivity]).
  - split; [reflexivity | exists []; rewrite app_nil_r; split; reflexivity].
  - rewrite C. simpl.
    split; [reflexivity | exists []; rewrite app_nil_r; split; reflexivity].
  - unfold _cleanup. simpl. rewrite C.
    split; [reflexivity | exists []; rewrite app_nil_r; split; reflexivity].
  - unfold _cleanup. rewrite C.
    split; [reflexivity | exists []; rewrite app_nil_r; split; reflexivity].
  - destruct (pending_idle s);
      [split; [reflexivity | exists []; rewrite app_nil_r; split; reflexivity]|].
    destruct err; [|destruct fault]; simpl;
      (split; [reflexivity|]);
      first [ exists []; rewrite app_nil_r; split; reflexivity
            | exists [RDestroy]; split; reflexivity ].
  - unfold handleResize.
    destruct (js_lt _ _ || js_lt _ _ || js_gt _ _ || js_gt _ _); simpl.
    + split; [reflexivity | exists []; rewrite app_nil_r; split; reflexivity].
    + split; [reflexivity | eexists [_]; split; reflexivity].
  - unfold close. rewrite C.
    split; [reflexivity | exists []; rewrite app_nil_r; split; reflexivity].
Qed.

Lemma run_after_close (events : list Event) (s : Session) :
  closed s = true ->
  closed (run events s) = true
  /\ stream_calls (run events s) = stream_calls s
  /\ exists extra, renderer_calls (run events s) = renderer_calls s ++ extra
                   /\ forallb after_close_call extra = true.
Proof.
  revert s. induction events as [|e events IH]; intros s C; simpl.
  - split; [exact C|]. split; [reflexivity|].
    exists []. rewrite app_nil_r. split; reflexivity.
  - destruct (step_after_close e s C) as (S1 & x1 & R1 & F1).
    destruct (IH (step e s) (closed_is_terminal e s C)) as (C2 & S2 & x2 & R2 & F2).
    split; [exact C2|]. split; [congruence|].
    exists (x1 ++ x2). rewrite R2, R1, <- app_assoc. split; [reflexivity|].
    rewrite forallb_app, F1, F2. reflexivity.
Qed.

(** Closing cancels the bridge.  From a closed session on, whatever happens
    (data from the channel, flushes of the renderer, write completions,
    errors, further closes), the channel receives no call at all, no write,
    no exit and no end, and the renderer receives no input, no stop and no
    idle request: only the [destroy] of the pending teardown and the resizes
    that [handleResize] still forwards. *)
Theorem closed_session_is_cancelled (events : list Event) (s : Session) :
  closed s = true ->
  closed (run events s) = true
  /\ stream_calls (run events s) = stream_calls s
  /\ exists extra, renderer_calls (run events s) = renderer_calls s ++ extra
                   /\ forallb after_close_call extra = true.
Proof. apply run_after_close. Qed.

Lemma closed_session_is_cancelled_witness :
  stream_calls (run [StreamData [113]; RendererFlush [27] WriteQueued; CallClose 1]
                  (close 0 (new_session xterm_80x24)))
  = stream_calls (close 0 (new_session xterm_80x24)).
Proof.
  apply (closed_session_is_cancelled
           [StreamData [113]; RendererFlush [27] WriteQueued; CallClose 1]
           (close 0 (new_session xterm_80x24))).
  reflexivity.
Defined.

Lemma count_calls_app (f : RendererCall -> bool) (s : Session) (c : RendererCall) :
  count_calls f (call_renderer c s) = count_calls f s + (if f c then 1 else 0).
Proof.
  unfold count_calls. simpl. rewrite filter_app, length_app. simpl.
  destruct (f c); reflexivity.
Qed.

Ltac unfold_accounting H :=
  unfold teardown_accounting, count_calls, close_count in *;
  simpl;
  rewrite ?filter_app, ?length_app; simpl;
  rewrite ?app_nil_r, ?Nat.add_0_r;
  destruct H as (St & Id & De & Dc & Cl).

Lemma teardown_accounting_step (e : Event) (s : Session) :
  teardown_accounting s -> teardown_accounting (step e s).
Proof.
  intros H.
  destruct e as [buffer outcome|flush err|b|input|message| |err fault|w h|code]; simpl.
  - unfold onFlush. simpl.
    destruct (closed s || negb (writable s)) eqn:G; [|destruct outcome];
      exact H.
  - destruct (existsb (Nat.eqb flush) (pending_writes s));
      [unfold write_callback; destruct err|]; exact H.
  - exact H.
  - destruct (closed s) eqn:C; simpl; [exact H|].
    unfold_accounting H. rewrite C in *. repeat split; simpl in *; lia.
  - unfold _cleanup. simpl. destruct (closed s) eqn:C; [exact H|].
    unfold_accounting H. rewrite C in *. repeat split; simpl in *; lia.
  - unfold _cleanup. destruct (closed s) eqn:C; [exact H|].
    unfold_accounting H. rewrite C in *. repeat split; simpl in *; lia.
  - destruct (pending_idle s) as [|origin rest] eqn:P; [exact H|].
    unfold idle_settled, idle_then, idle_catch, emit_close.
    destruct err; [|destruct fault]; unfold_accounting H; rewrite P in *;
      simpl in *; repeat split; simpl in *; lia.
  - unfold handleResize.
    destruct (js_lt _ _ || js_lt _ _ || js_gt _ _ || js_gt _ _); [exact H|].
    unfold_accounting H. repeat split; simpl in *; lia.
  - unfold close. destruct (closed s) eqn:C; [exact H|].
    unfold_accounting H. rewrite C in *. repeat split; simpl in *; lia.
Qed.

Lemma teardown_accounting_run (events : list Event) (s : Session) :
  teardown_accounting s -> teardown_accounting (run events s).
Proof.
  revert s. induction events as [|e events IH]; intros s H; [exact H|].
  simpl. apply IH. apply teardown_accounting_step. exact H.
Qed.

(** An event that is no teardown leaves an open session open and sends
    neither [exit] nor [end]. *)
Lemma step_stays_open (e : Event) (s : Session) :
  is_teardown e = false -> closed s = false ->
  closed (step e s) = false /\ exit_end_calls (step e s) = exit_end_calls s.
Proof.
  intros T C. unfold exit_end_calls.
  destruct e as [buffer outcome|flush err|b|input|message| |err fault|w h|code];
    try discriminate; simpl.
  - unfold onFlush. simpl. rewrite C. simpl.
    destruct (negb (writable s)); [|destruct outcome]; simpl;
      rewrite ?filter_app, ?app_nil_r; split; solve [assumption | reflexivity].
  - destruct (existsb (Nat.eqb flush) (pending_writes s));
      [unfold write_callback; destruct err|]; split; solve [assumption | reflexivity].
  - split; solve [assumption | reflexivity].
  - rewrite C. simpl. split; solve [assumption | reflexivity].
  - destruct (pending_idle s); [split; solve [assumption | reflexivity]|].
    unfold idle_settled, idle_then, idle_catch, emit_close.
    destruct err; [|destruct fault]; simpl; split; solve [assumption | reflexivity].
  - unfold handleResize.
    destruct (js_lt _ _ || js_lt _ _ || js_gt _ _ || js_gt _ _); simpl;
      split; solve [assumption | reflexivity].
Qed.

(** A teardown closes an open session; only a local [close(code)] sends
    [exit(code)] and [end()]. *)
Lemma step_teardown (e : Event) (s : Session) :
  is_teardown e = true -> closed s = false ->
  closed (step e s) = true
  /\ exit_end_calls (step e s)
     = exit_end_calls s
       ++ match e with CallClose code => [SExit code; SEnd] | _ => [] end.
Proof.
  intros T C. unfold exit_end_calls.
  destruct e as [buffer outcome|flush err|b|input|message| |err fault|w h|code];
    try discriminate; simpl.
  - unfold _cleanup. simpl. rewrite C. simpl. rewrite app_nil_r. split; reflexivity.
  - unfold _cleanup. rewrite C. simpl. rewrite app_nil_r. split; reflexivity.
  - unfold close. rewrite C. simpl. rewrite !filter_app. simpl.
    rewrite <- app_assoc. split; reflexivity.
Qed.

Lemma exit_end_run (events : list Event) :
  forall s, closed s = false ->
    closed (run events s)
    = match first_teardown events with Some _ => true | None => false end
    /\ exit_end_calls (run events s)
       = exit_end_calls s
         ++ match first_teardown events with
            | Some (CallClose code) => [SExit code; SEnd]
            | _ => []
            end.
Proof.
  unfold first_teardown.
  induction events as [|e events IH]; intros s C; simpl.
  - rewrite app_nil_r. split; [exact C | reflexivity].
  - destruct (is_teardown e) eqn:T.
    + destruct (step_teardown e s T C) as (C1 & X1).
      destruct (run_after_close events (step e s) C1) as (C2 & S2 & _).
      split; [exact C2|]. unfold exit_end_calls in *. rewrite S2. exact X1.
    + destruct (step_stays_open e s T C) as (C1 & X1).
      destruct (IH (step e s) C1) as (C2 & X2). rewrite X1 in X2.
      split; assumption.
Qed.

(** Teardown accounting.  Over any sequence of events of a session: the
    renderer has been stopped, and its idle promise requested, exactly once
    if the session is closed and never if it is open, and the session is
    closed exactly when a teardown (a stream error, a hangup or a local
    [close()]) is among the events; the renderer is destroyed at most once
    and never without a [close] event, of which there are at most two; and
    the channel has been sent [exit(code)] followed by [end()] exactly when
    the first teardown among the events is a local [close(code)]: it gets
    neither from the cleanup after a stream error or a hangup, whatever came
    before, nor from anything that follows the first teardown. *)
Theorem teardown_stops_once (p : PtyInfo) (events : list Event) :
  let s := run events (new_session p) in
  count_calls is_stop s = (if closed s then 1 else 0)
  /\ count_calls is_idle s = (if closed s then 1 else 0)
  /\ count_calls is_destroy s <= 1
  /\ count_calls is_destroy s <= close_count s <= 2
  /\ closed s = match first_teardown events with Some _ => true | None => false end
  /\ exit_end_calls s = match first_teardown events with
                        | Some (CallClose code) => [SExit code; SEnd]
                        | _ => []
                        end.
Proof.
  cbv zeta.
  assert (A0 : teardown_accounting (new_session p)).
  { repeat split; simpl; auto. }
  destruct (teardown_accounting_run events _ A0) as (St & Id & De & Dc & Cl).
  destruct (exit_end_run events (new_session p) eq_refl) as (C & X).
  split; [exact St|]. split; [exact Id|].
  split; [destruct (closed (run events (new_session p))); lia|].
  split; [split; [exact Dc | destruct (closed (run events (new_session p))); lia]|].
  split; [exact C | exact X].
Qed.

Ltac unfold_resize_log H :=
  unfold resize_log, renderer_resizes, resize_events in *;
  simpl;
  rewrite ?flat_map_app; simpl;
  rewrite ?app_nil_r;
  destruct H as (Eq & Ok & La & Te).

Section ResizeLog.

Variable ok : JsNumber * JsNumber -> bool.
Variable p : PtyInfo.

Lemma resize_log_handleResize (w h : JsNumber) (s : Session) :
  (js_lt w 1 || js_lt h 1 || js_gt w 10000 || js_gt h 10000 = false ->
   ok (w, h) = true) ->
  resize_log ok p s -> resize_log ok p (handleResize w h s).
Proof.
  intros Hok H. unfold handleResize.
  destruct (js_lt w 1 || js_lt h 1 || js_gt w 10000 || js_gt h 10000) eqn:G;
    [exact H|].
  unfold_resize_log H. rewrite Eq, forallb_app, Ok, last_last.
  repeat split; try assumption. simpl. rewrite (Hok eq_refl). reflexivity.
Qed.

Lemma resize_log_step (e : Event) (s : Session) :
  (forall cols rows,
     js_lt (js_of_Z cols) 1 || js_lt (js_of_Z rows) 1
     || js_gt (js_of_Z cols) 10000 || js_gt (js_of_Z rows) 10000 = false ->
     ok (js_of_Z cols, js_of_Z rows) = true) ->
  resize_log ok p s -> resize_log ok p (step e s).
Proof.
  intros Hok H.
  destruct e as [buffer outcome|flush err|b|input|message| |err fault|w h|code]; simpl.
  - unfold onFlush. simpl.
    destruct (closed s || negb (writable s)); [|destruct outcome]; exact H.
  - destruct (existsb (Nat.eqb flush) (pending_writes s));
      [unfold write_callback; destruct err|]; exact H.
  - exact H.
  - destruct (negb (closed s)); [|exact H].
    unfold_resize_log H. repeat split; assumption.
  - unfold _cleanup. simpl. destruct (closed s); [exact H|].
    unfold_resize_log H. repeat split; assumption.
  - unfold _cleanup. destruct (closed s); [exact H|].
    unfold_resize_log H. repeat split; assumption.
  - destruct (pending_idle s); [exact H|].
    unfold idle_settled, idle_then, idle_catch, emit_close.
    destruct err; [|destruct fault]; unfold_resize_log H;
      repeat split; assumption.
  - apply resize_log_handleResize; [apply Hok | exact H].
  - unfold close. destruct (closed s); [exact H|].
    unfold_resize_log H. repeat split; assumption.
Qed.

End ResizeLog.

(** What passes the guard of [handleResize]: each dimension is in
    [1, 10000], or is NaN. *)
Lemma guard_passed (w h : JsNumber) :
  js_lt w 1 || js_lt h 1 || js_gt w 10000 || js_gt h 10000 = false ->
  size_ok_or_nan (w, h) = true
  /\ (is_nan w = false -> is_nan h = false -> size_ok (w, h) = true).
Proof.
  intros G. rewrite !orb_false_iff in G. destruct G as (((G1 & G2) & G3) & G4).
  assert (D : forall n, js_lt n 1 = false -> js_gt n 10000 = false ->
                        in_range_or_nan n = true
                        /\ (is_nan n = false -> in_range n = true)).
  { intros n L1 L2. unfold in_range_or_nan.
    destruct (is_nan n) eqn:N.
    - rewrite orb_true_r. split; [reflexivity | discriminate].
    - pose proof (guard_in_range n N) as E. rewrite L1, L2 in E. simpl in E.
      symmetry in E. apply negb_false_iff in E. rewrite E. split; auto. }
  destruct (D w G1 G3) as [Dw Nw]. destruct (D h G2 G4) as [Dh Nh].
  unfold size_ok_or_nan, size_ok. simpl. rewrite Dw, Dh. split; [reflexivity|].
  intros A B. rewrite (Nw A), (Nh B). reflexivity.
Qed.

Lemma resize_log_perform (p : PtyInfo) (a : Action) (s : Session) :
  (resize_log size_ok_or_nan p s -> resize_log size_ok_or_nan p (perform a s))
  /\ (nan_free a = true ->
      resize_log size_ok p s -> resize_log size_ok p (perform a s)).
Proof.
  destruct a as [e|w h]; simpl.
  - split; [|intros _]; apply resize_log_step; intros cols rows G;
      destruct (guard_passed _ _ G) as [G1 G2]; [exact G1 | apply G2; reflexivity].
  - split.
    + apply resize_log_handleResize. intros G. apply (guard_passed _ _ G).
    + intros N. apply andb_true_iff in N as [Nw Nh].
      apply negb_true_iff in Nw, Nh.
      apply resize_log_handleResize. intros G. apply (guard_passed _ _ G); assumption.
Qed.

Lemma resize_log_drive (p : PtyInfo) (actions : list Action) :
  forall s,
    (resize_log size_ok_or_nan p s -> resize_log size_ok_or_nan p (drive actions s))
    /\ (forallb nan_free actions = true ->
        resize_log size_ok p s -> resize_log size_ok p (drive actions s)).
Proof.
  induction actions as [|a actions IH]; intros s; simpl.
  - split; auto.
  - destruct (resize_log_perform p a s) as [P1 P2].
    destruct (IH (perform a s)) as [I1 I2]. split.
    + intros H. apply I1, P1, H.
    + intros N H. apply andb_true_iff in N as [Na N]. apply I2; [exact N|].
      apply P2; assumption.
Qed.

Lemma drive_events (events : list Event) (s : Session) :
  drive (map Happens events) s = run events s.
Proof.
  revert s. induction events as [|e events IH]; intros s; [reflexivity|].
  simpl. apply IH.
Qed.

Lemma resize_log_run (p : PtyInfo) (events : list Event) :
  resize_log size_ok p (run events (new_session p)).
Proof.
  rewrite <- drive_events.
  apply (resize_log_drive p (map Happens events) (new_session p)).
  - clear. induction events as [|e events IH]; [reflexivity | exact IH].
  - repeat split.
Qed.

(** The resize log.  Over any sequence of events of a session made with pty
    [p] and of calls of [handleResize] with any numbers: the sizes handed to
    [renderer.resize] are, in order, the sizes of the [resize] events; each
    dimension of each of them lies in [1, 10000] or is NaN, and all lie in
    [1, 10000] when no call brought a NaN; the stored pty holds the last of
    them, or the size of [p] if there is none; the terminal type is never
    changed. *)
Theorem resize_log_consistent (p : PtyInfo) (actions : list Action) :
  let s := drive actions (new_session p) in
  renderer_resizes s = resize_events s
  /\ forallb size_ok_or_nan (resize_events s) = true
  /\ (forallb nan_free actions = true -> forallb size_ok (resize_events s) = true)
  /\ (width (pty s), height (pty s)) = last (resize_events s) (width p, height p)
  /\ term (pty s) = term p.
Proof.
  cbv zeta. destruct (resize_log_drive p actions (new_session p)) as [A B].
  destruct A as (Eq & Ok & La & Te); [repeat split|].
  split; [exact Eq|]. split; [exact Ok|]. split; [|split; assumption].
  intros N. destruct (B N) as (_ & Ok' & _); [repeat split | exact Ok'].
Qed.

(** The bounds of the stored pty.  If the pty negotiated for a session lies in
    [1, 10000] on both axes, so does the stored pty after any sequence of
    events.  (The dimensions of the pty request itself are not checked: see
    the shell listener.) *)
Theorem pty_stays_in_bounds (p : PtyInfo) (events : list Event) :
  in_bounds p -> in_bounds (pty (run events (new_session p))).
Proof.
  intros B. destruct (resize_log_run p events) as (_ & Ok & La & _).
  unfold in_bounds.
  destruct (resize_events (run events (new_session p))) as [|x l] eqn:E.
  - simpl in La. injection La as -> ->. exact B.
  - assert (In (last (x :: l) (width p, height p)) (x :: l)).
    { destruct (exists_last (l := x :: l)) as (l' & a & E'); [discriminate|].
      rewrite E', last_last. apply in_or_app. right. left. reflexivity. }
    rewrite forallb_forall in Ok. apply Ok in H. rewrite <- La in H.
    unfold size_ok in H. simpl in H.
    apply andb_true_iff in H. exact H.
Qed.

Lemma pty_stays_in_bounds_witness :
  in_bounds (pty (run [WindowChange 0 24; WindowChange 120 40; WindowChange 10001 1]
                    (new_session xterm_80x24))).
Proof.
  apply (pty_stays_in_bounds xterm_80x24
           [WindowChange 0 24; WindowChange 120 40; WindowChange 10001 1]).
  split; reflexivity.
Defined.

End BridgeInvariants.

(* ===================================================================== *)
(** * Relations kept by every dispatch *)

Section StoreRelation.

Variable R : World -> World -> Prop.
Hypothesis HR : store_relation R.

Lemma keeps_rel_bind {A B : Type} (m : M A) (k : A -> M B) :
  keeps_rel R m -> (forall a, keeps_rel R (k a)) -> keeps_rel R (bind m k).
Proof.
  intros Hm Hk s S0. unfold bind. destruct (Hm s S0) as [S1 O1].
  destruct (m s) as [[a|e] s']; simpl in *; [|split; assumption].
  destruct (Hk a s' S1) as [S2 O2]. split; [exact S2|].
  eapply (sr_trans R HR); eassumption.
Qed.

Lemma keeps_rel_pure {A : Type} (m : M A) :
  (forall s, snd (m s) = s) -> keeps_rel R m.
Proof.
  intros H s S0. rewrite H. split; [exact S0 | apply (sr_refl R HR)].
Qed.

Lemma keeps_rel_call_accept : keeps_rel R call_accept.
Proof.
  intros s S0. unfold call_accept, bind, get_ctx, modify_world, ret.
  destruct (accept (ctx s)) as [f|] eqn:Ha; simpl;
    (split; [exact S0|]); [apply (proj1 S0 f Ha) | apply (sr_refl R HR)].
Qed.

Lemma keeps_rel_call_reject (allowedMethods : option (list string)) :
  keeps_rel R (call_reject allowedMethods).
Proof.
  intros s S0. unfold call_reject, bind, get_ctx, modify_world, ret.
  destruct (reject (ctx s)) as [f|] eqn:Hr; simpl;
    (split; [exact S0|]); [apply (proj2 S0 f Hr) | apply (sr_refl R HR)].
Qed.

Lemma keeps_rel_exec_script (body : Script) (next : NextFn) :
  keeps_rel R next -> keeps_rel R (exec_script body next).
Proof.
  intros Hn. induction body as [|ins body IH]; simpl.
  - apply keeps_rel_pure. reflexivity.
  - apply keeps_rel_bind; [|intros _; exact IH].
    destruct ins; simpl.
    + intros s S0. simpl. split; [exact S0 | apply (sr_observe R HR)].
    + exact Hn.
    + exact Hn.
    + apply keeps_rel_call_accept.
    + apply keeps_rel_call_reject.
    + apply keeps_rel_pure. reflexivity.
Qed.

Lemma slots_rel_logging_enter (s : St) :
  slots_rel R (ctx s) ->
  slots_rel R (ctx (logging_enter s)) /\ R (world s) (world (logging_enter s)).
Proof.
  intros [Sa Sr]. unfold logging_enter.
  destruct (accept (ctx s)) as [f|] eqn:Ha, (reject (ctx s)) as [g|] eqn:Hr; simpl;
    (split; [split; simpl | apply (sr_authResult R HR)]);
    rewrite ?Ha, ?Hr;
    first
      [ exact Sa
      | exact Sr
      | intros h Hh; discriminate
      | intros h Hh; injection Hh as <-; intros;
        eapply (sr_trans R HR);
        [ apply (sr_authResult R HR)
        | first [apply (Sa _ eq_refl) | apply (Sr _ eq_refl)] ] ].
Qed.

Lemma keeps_rel_logging (options : LoggingOptions) (next : NextFn) :
  keeps_rel R next -> keeps_rel R (logging options next).
Proof.
  intros Hn s S0. destruct (phase (ctx s)) eqn:Hp.
  - rewrite logging_auth by exact Hp.
    destruct (slots_rel_logging_enter s S0) as [S1 O1].
    destruct (Hn _ S1) as [S2 O2].
    destruct (next (logging_enter s)) as [[[]|e] s']; simpl in *.
    + unfold logging_exit.
      destruct (nth _ (authResult (world s')) None), (onAuthAttempt options); simpl;
        (split; [exact S2|]);
        try (eapply (sr_trans R HR); [eassumption|]; eapply (sr_trans R HR);
             [eassumption | apply (sr_observe R HR)]);
        try (eapply (sr_trans R HR); eassumption).
    + split; [exact S2 | eapply (sr_trans R HR); eassumption].
  - rewrite logging_in_session by exact Hp.
    assert (H1 : slots_rel R (ctx (logging_session options s))
                 /\ R (world s) (world (logging_session options s))).
    { unfold logging_session.
      destruct (onConnect options), (onDisconnect options); simpl;
        (split; [exact S0|]).
      - eapply (sr_trans R HR); [apply (sr_observe R HR) | apply (sr_listeners R HR)].
      - apply (sr_observe R HR).
      - apply (sr_listeners R HR).
      - apply (sr_refl R HR). }
    destruct H1 as [S1 O1]. destruct (Hn _ S1) as [S2 O2].
    split; [exact S2 | eapply (sr_trans R HR); eassumption].
Qed.

Lemma keeps_rel_middleware (m : MwSpec) (next : NextFn) :
  keeps_rel R next -> keeps_rel R (middleware_of m next).
Proof.
  intros Hn. destruct m as [body|options|keys|]; simpl.
  - apply keeps_rel_exec_script; exact Hn.
  - apply keeps_rel_logging; exact Hn.
  - unfold publicKey. apply keeps_rel_bind; [apply keeps_rel_pure; reflexivity|].
    intros c. destruct (phase c); [|exact Hn].
    destruct (clientKey c); [|exact Hn].
    apply keeps_rel_bind; [|intros _; exact Hn].
    destruct (matchesKey _ _ _); [apply keeps_rel_call_accept | apply keeps_rel_call_reject].
  - unfold devMode. intros s S0. unfold bind, get_ctx, modify_world, ret.
    destruct (phase (ctx s)); [destruct (accept (ctx s)) as [f|] eqn:Ha|]; simpl.
    + destruct (Hn (set_world (f (world s)) s) S0) as [S2 O2].
      split; [exact S2|]. eapply (sr_trans R HR); [apply (proj1 S0 f Ha)|exact O2].
    + apply Hn; exact S0.
    + apply Hn; exact S0.
Qed.

Lemma keeps_rel_dispatch (chain : list MwSpec) (next : NextFn) :
  keeps_rel R next -> forall i, keeps_rel R (dispatch (map middleware_of chain) next i).
Proof.
  intros Hn. induction chain as [|m chain IH]; intros i s S0; simpl.
  - destruct (Z.of_nat i <=? index s)%Z; simpl;
      [split; [exact S0 | apply (sr_refl R HR)]
      | exact (Hn (set_index (Z.of_nat i) s) S0)].
  - destruct (Z.of_nat i <=? index s)%Z; simpl;
      [split; [exact S0 | apply (sr_refl R HR)]|].
    refine (keeps_rel_middleware m _ _ (set_index (Z.of_nat i) s) S0).
    intros s1 S1. unfold next_closure.
    exact (IH (S i) (set_next_calls (next_calls s1 ++ [i]) s1) S1).
Qed.

Lemma keeps_rel_in_caller_frame (next : NextFn) :
  keeps_rel R next -> keeps_rel R (in_caller_frame next).
Proof.
  intros Hn s S0. unfold in_caller_frame.
  destruct (frames s) as [|outer rest]; [apply Hn; exact S0|].
  pose proof (Hn (set_index outer (set_frames rest s)) S0) as H.
  destruct (next (set_index outer (set_frames rest s))) as [r s']. exact H.
Qed.

Lemma keeps_rel_server_middleware (chain : list MwSpec) (next : NextFn) :
  keeps_rel R next -> keeps_rel R (server_middleware chain next).
Proof.
  intros Hn. destruct chain as [|m chain]; [exact Hn|].
  unfold server_middleware. intros s S0. rewrite compose_unfold. cbn [snd].
  destruct (leave_frame_keeps
              (snd (dispatch (map middleware_of (m :: chain)) (in_caller_frame next) 0
                      (enter_frame s)))) as (W & C & _).
  rewrite W, C.
  exact (keeps_rel_dispatch (m :: chain) _ (keeps_rel_in_caller_frame next Hn) 0
           (enter_frame s) S0).
Qed.

End StoreRelation.

Lemma auth_untouched_relation : store_relation auth_untouched.
Proof.
  split.
  - intros w. repeat split.
  - intros w1 w2 w3 (T1 & E1 & A1 & R1 & U1) (T2 & E2 & A2 & R2 & U2).
    repeat split; congruence.
  - intros o w. repeat split.
  - intros l w. repeat split.
  - intros l w. repeat split.
Qed.

Lemma user_recorded_relation (u : UserInfo) : store_relation (user_recorded u).
Proof.
  split.
  - intros w. left. split; reflexivity.
  - intros w1 w2 w3 [[U1 T1]|S1] [[U2 T2]|S2].
    + left. split; congruence.
    + right. exact S2.
    + right. congruence.
    + right. exact S2.
  - intros o w. left. split; reflexivity.
  - intros l w. left. split; reflexivity.
  - intros l w. left. split; reflexivity.
Qed.

(* ===================================================================== *)
(** * Further properties of the server *)

Section ServerInvariants.

Variable remote : string.

Lemma session_dispatch_untouched (chain : list MwSpec) (user : UserInfo) (w : World) :
  auth_untouched w
    (world (snd (server_middleware chain (ret tt) (session_start user remote w)))).
Proof.
  assert (Hn : keeps_rel auth_untouched (ret tt : M unit)).
  { apply (keeps_rel_pure _ auth_untouched_relation). reflexivity. }
  assert (S0 : slots_rel auth_untouched (ctx (session_start user remote w))).
  { split; intros f Hf; discriminate. }
  exact (proj2 (keeps_rel_server_middleware _ auth_untouched_relation chain _ Hn _ S0)).
Qed.

(** What a shell request that passes the pty gate adds to the actions. *)
Lemma on_shell_actions (chain : list MwSpec) (requirePty : bool)
  (user : UserInfo) (has_reject : bool) (stream : nat) (r : SessionRequests) :
  requirePty = false \/ ptyInfo r <> None ->
  actions (on_shell chain requirePty user remote has_reject (Some stream) r)
  = actions r
    ++ [ShellAccept; SessionDispatch (user_username user);
        SessionCreate stream
          (match ptyInfo r with
           | Some p => p
           | None => {| term := "xterm"; width := 80; height := 24 |}
           end) user].
Proof.
  intros G. unfold on_shell, act.
  destruct requirePty; destruct (ptyInfo r) as [p|] eqn:P;
    try (destruct G as [G|G]; [discriminate | contradiction]);
    cbn [conn ptyInfo actions]; rewrite ?P, <- !app_assoc; reflexivity.
Qed.

(** The session phase cannot decide and cannot abort.  Once the shell request
    has passed the pty gate and the transport has returned a channel, whatever
    the configured middlewares do in the session phase (call [ctx.accept] or
    [ctx.reject], throw, call [next] twice), the listener goes on to create
    the session on that channel, with the negotiated pty or 80x24 [xterm];
    nothing reaches the transport's accept or reject, the flags and
    [authenticatedUser] stay as they were, and the server emits one [error]
    event if the dispatch threw and none otherwise. *)
Theorem session_phase_cannot_abort (chain : list MwSpec) (requirePty : bool)
  (user : UserInfo) (has_reject : bool) (stream : nat) (r : SessionRequests) :
  requirePty = false \/ ptyInfo r <> None ->
  let r' := on_shell chain requirePty user remote has_reject (Some stream) r in
  let finalPty := match ptyInfo r with
                  | Some p => p
                  | None => {| term := "xterm"; width := 80; height := 24 |}
                  end in
  actions r' = actions r ++ [ShellAccept; SessionDispatch (user_username user);
                             SessionCreate stream finalPty user]
  /\ ptyInfo r' = ptyInfo r
  /\ transport (conn r') = transport (conn r)
  /\ accepted (conn r') = accepted (conn r)
  /\ rejected (conn r') = rejected (conn r)
  /\ authenticatedUser (conn r') = authenticatedUser (conn r)
  /\ match fst (server_middleware chain (ret tt) (session_start user remote (conn r))) with
     | Ok _ => emitted (conn r') = emitted (conn r)
     | Thrown e => emitted (conn r') = emitted (conn r) ++ [EvError e]
     end.
Proof.
  intros G.
  pose proof (session_dispatch_untouched chain user (conn r)) as (T & Em & A & Rj & U).
  cbv zeta. unfold on_shell, session_dispatch, act.
  destruct requirePty; destruct (ptyInfo r) as [p|] eqn:P;
    try (destruct G as [G|G]; [discriminate | contradiction]);
    cbn [conn ptyInfo actions];
    fold (session_start user remote (conn r));
    set (out := server_middleware chain (ret tt) (session_start user remote (conn r)))
      in *;
    destruct out as [[[]|e] s']; simpl in *; rewrite ?P, <- !app_assoc; simpl;
    repeat split; simpl; try assumption; try reflexivity;
    try (rewrite Em; reflexivity).
Qed.

(** The pty gate and the hand-over of the pty.  With [requirePty] and no pty
    request so far, a shell request is rejected (if a [reject] was supplied)
    and nothing else happens: the channel is not accepted, no dispatch runs,
    no session is created.  After pty requests, the session is created with
    the terminal type (default [xterm]), columns and rows of the last one, as
    they came: the dimensions of a pty request are not checked. *)
Theorem shell_gate_and_last_pty (chain : list MwSpec) (user : UserInfo)
  (has_reject : bool) (r : SessionRequests) :
  (forall accepted_stream,
     ptyInfo r = None ->
     on_shell chain true user remote has_reject accepted_stream r
     = if has_reject then act [ShellReject] r else r)
  /\ (forall requirePty reqs q stream,
        let r1 := on_pty_requests (reqs ++ [q]) r in
        exists before,
          actions (on_shell chain requirePty user remote has_reject (Some stream) r1)
          = before ++ [SessionCreate stream (pty_of_request q) user]).
Proof.
  split.
  - intros accepted_stream P. unfold on_shell. rewrite P. reflexivity.
  - intros requirePty reqs q stream r1.
    assert (P : ptyInfo r1 = Some (pty_of_request q)).
    { unfold r1, on_pty_requests. rewrite fold_left_app. simpl.
      unfold on_pty. destruct (pty_has_accept q); reflexivity. }
    pose proof (on_shell_actions chain requirePty user has_reject stream r1) as A.
    rewrite P in A. rewrite A by (right; discriminate).
    exists (actions r1 ++ [ShellAccept; SessionDispatch (user_username user)]).
    rewrite <- app_assoc. reflexivity.
Qed.

(** The user is recorded by the time an accept has reached the transport.
    Whatever the configured chain does during an authentication attempt
    (several decisions, an accept followed by a reject, a throw), at its end
    either no accept has been forwarded to the transport and
    [authenticatedUser] is as it was, or [authenticatedUser] holds the name
    and key algorithm of this attempt.  This is what the session listener
    relies on when it reads [authenticatedUser] without a check. *)
Theorem accept_records_user (chain : list MwSpec) (user method : string)
  (k : option PublicKey) (w : World) :
  let c := transport_context user method k in
  let w' := on_authentication chain remote c w in
  (authenticatedUser w' = authenticatedUser w
   /\ filter is_taccept (transport w') = filter is_taccept (transport w))
  \/ authenticatedUser w' = Some (userinfo_of c).
Proof.
  intros c w'. set (u := userinfo_of c).
  change (user_recorded u w w').
  pose proof (user_recorded_relation u) as HR.
  unfold w', on_authentication, handleAuth.
  match goal with |- context [server_middleware _ ?t ?s0] =>
    set (st0 := s0); set (term0 := t) end.
  assert (Ht : keeps_rel (user_recorded u) term0).
  { intros s S0. unfold term0, default_reject, bind, get_world, modify_world, ret.
    destruct (negb (accepted (world s)) && negb (rejected (world s))); simpl;
      (split; [exact S0|]); [|apply (sr_refl _ HR)].
    left. split; [reflexivity|]. simpl. rewrite filter_app. simpl.
    rewrite app_nil_r. reflexivity. }
  assert (S0 : slots_rel (user_recorded u) (ctx st0)).
  { split; intros f Hf; injection Hf as <-; intros.
    - right. reflexivity.
    - left. split; [reflexivity|]. simpl. rewrite filter_app. simpl.
      rewrite app_nil_r. reflexivity. }
  destruct (keeps_rel_server_middleware _ HR chain _ Ht st0 S0) as [_ O].
  assert (O0 : user_recorded u w (world st0)) by (left; split; reflexivity).
  destruct (server_middleware chain term0 st0) as [[v|e] s']; simpl in O.
  - exact (sr_trans _ HR _ _ _ O0 O).
  - apply (sr_trans _ HR _ _ _ O0). apply (sr_trans _ HR _ _ _ O).
    unfold emit_error. simpl. destruct (errorListener (world s')).
    + left. split; [reflexivity|]. simpl. rewrite filter_app. simpl.
      rewrite app_nil_r. reflexivity.
    + left. split; reflexivity.
Qed.

End ServerInvariants.

Lemma session_phase_cannot_abort_witness :
  let r := {| ptyInfo := None; actions := []; conn := empty_world |} in
  let r' := on_shell [DevMode; User [CallReject None; Throw (Error "boom")]] false
              {| user_username := "testuser"; user_publicKey := None |}
              "127.0.0.1" true (Some 7) r in
  actions r' = [ShellAccept; SessionDispatch "testuser";
                SessionCreate 7 xterm_80x24
                  {| user_username := "testuser"; user_publicKey := None |}]
  /\ transport (conn r') = [].
Proof.
  pose proof (session_phase_cannot_abort "127.0.0.1"
                [DevMode; User [CallReject None; Throw (Error "boom")]] false
                {| user_username := "testuser"; user_publicKey := None |} true 7
                {| ptyInfo := None; actions := []; conn := empty_world |}
                (or_introl eq_refl)) as (A & _ & T & _).
  split; [exact A | exact T].
Defined.

Lemma shell_gate_and_last_pty_witness :
  on_shell [DevMode] true {| user_username := "testuser"; user_publicKey := None |}
    "127.0.0.1" true (Some 3) {| ptyInfo := None; actions := []; conn := empty_world |}
  = act [ShellReject] {| ptyInfo := None; actions := []; conn := empty_world |}.
Proof.
  apply (proj1 (shell_gate_and_last_pty "127.0.0.1" [DevMode]
                  {| user_username := "testuser"; user_publicKey := None |} true
                  {| ptyInfo := None; actions := []; conn := empty_world |})
           (Some 3)).
  reflexivity.
Defined.

(* ===================================================================== *)
(** * Observers are transparent; what the deciders of the package decide *)

Section Transparency.

Variable u : UserInfo.

Lemma auth_untouched_trans (w1 w2 w3 : World) :
  auth_untouched w1 w2 -> auth_untouched w2 w3 -> auth_untouched w1 w3.
Proof. apply (sr_trans _ auth_untouched_relation). Qed.

Lemma push_marks_ctx (ls : list Label) (s : St) :
  ctx (push_marks ls s) = ctx s
  /\ index (push_marks ls s) = index s
  /\ next_calls (push_marks ls s) = next_calls s
  /\ auth_untouched (world s) (world (push_marks ls s)).
Proof.
  revert s. induction ls as [|l ls IH]; intros s.
  - simpl. repeat split; reflexivity.
  - simpl. destruct (IH (push_mark l s)) as (C & I & N & A).
    rewrite C, I, N. split; [reflexivity|]. split; [reflexivity|].
    split; [reflexivity|]. exact A.
Qed.

Lemma faithful_logging_enter (s : St) :
  faithful_slots u (ctx s) -> faithful_slots u (ctx (logging_enter s)).
Proof.
  intros [(f & Ha & Hf) (g & Hr & Hg)]. unfold logging_enter. rewrite Ha, Hr. simpl.
  split.
  - eexists. split; [reflexivity|]. intros w. apply (Hf (assign_authResult _ true w)).
  - eexists. split; [reflexivity|]. intros ms w.
    apply (Hg ms (assign_authResult _ false w)).
Qed.

Lemma logging_enter_ctx (s : St) :
  phase (ctx (logging_enter s)) = phase (ctx s)
  /\ clientKey (ctx (logging_enter s)) = clientKey (ctx s)
  /\ index (logging_enter s) = index s
  /\ auth_untouched (world s) (world (logging_enter s)).
Proof.
  unfold logging_enter.
  destruct (accept (ctx s)), (reject (ctx s)); simpl; repeat split.
Qed.

Lemma logging_session_ctx (options : LoggingOptions) (s : St) :
  ctx (logging_session options s) = ctx s
  /\ index (logging_session options s) = index s
  /\ auth_untouched (world s) (world (logging_session options s)).
Proof.
  unfold logging_session.
  destruct (onConnect options), (onDisconnect options); simpl; repeat split.
Qed.

Lemma auth_untouched_logging_exit (options : LoggingOptions) (cell : nat) (s : St) :
  auth_untouched (world s) (world (logging_exit options cell s)).
Proof.
  unfold logging_exit.
  destruct (nth cell (authResult (world s)) None), (onAuthAttempt options);
    simpl; repeat split.
Qed.

(** Layers of observers around an inner dispatch: the inner dispatch starts
    from a store in which nothing that concerns authentication has changed,
    with slots that still do the same; its result is the result of the whole,
    and the way out changes nothing of it either. *)
Lemma passing_transparent (tail : list Middleware) (next : NextFn)
  (pre : list Passing) :
  forall (i : nat) (s : St),
    (index s < Z.of_nat i)%Z ->
    exists s1,
      auth_untouched (world s) (world s1)
      /\ phase (ctx s1) = phase (ctx s)
      /\ clientKey (ctx s1) = clientKey (ctx s)
      /\ (faithful_slots u (ctx s) -> faithful_slots u (ctx s1))
      /\ (index s1 < Z.of_nat (i + List.length pre))%Z
      /\ forall r s2,
           dispatch tail next (i + List.length pre) s1 = (r, s2) ->
           exists s',
             dispatch (map middleware_of (map passing_spec pre) ++ tail) next i s
             = (r, s')
             /\ auth_untouched (world s2) (world s').
Proof.
  induction pre as [|p pre IH]; intros i s Hi.
  - exists s. rewrite Nat.add_0_r. simpl.
    split; [apply (sr_refl _ auth_untouched_relation)|].
    split; [reflexivity|]. split; [reflexivity|]. split; [exact (fun F => F)|].
    split; [exact Hi|].
    intros r s2 E. exists s2. split; [exact E|].
    apply (sr_refl _ auth_untouched_relation).
  - change (map middleware_of (map passing_spec (p :: pre)) ++ tail)
      with (middleware_of (passing_spec p)
              :: (map middleware_of (map passing_spec pre) ++ tail)).
    rewrite dispatch_enter by exact Hi.
    set (si := set_index (Z.of_nat i) s).
    replace (i + List.length (p :: pre)) with (S i + List.length pre)
      by (simpl; lia).
    destruct p as [options|pre0 post0]; simpl middleware_of.
    + destruct (phase (ctx si)) eqn:Hp.
      * destruct (logging_enter_ctx si) as (P & K & I & A).
        set (sa := set_next_calls (next_calls (logging_enter si) ++ [i])
                     (logging_enter si)).
        destruct (IH (S i) sa) as (s1 & A1 & P1 & K1 & F1 & I1 & D1).
        { unfold sa. simpl. rewrite I. simpl. lia. }
        exists s1. split; [exact (auth_untouched_trans _ _ _ A A1)|].
        split; [rewrite P1; exact P|]. split; [rewrite K1; exact K|].
        split; [intros F; apply F1; apply (faithful_logging_enter si F)|].
        split; [exact I1|].
        intros r s2 E. destruct (D1 r s2 E) as (s'' & E'' & A'').
        rewrite logging_auth by exact Hp. unfold next_closure. fold sa. rewrite E''.
        destruct r as [[]|e].
        -- eexists. split; [reflexivity|].
           exact (auth_untouched_trans _ _ _ A''
                    (auth_untouched_logging_exit options _ s'')).
        -- exists s''. split; [reflexivity | exact A''].
      * destruct (logging_session_ctx options si) as (C & I & A).
        set (sa := set_next_calls (next_calls (logging_session options si) ++ [i])
                     (logging_session options si)).
        destruct (IH (S i) sa) as (s1 & A1 & P1 & K1 & F1 & I1 & D1).
        { unfold sa. simpl. rewrite I. simpl. lia. }
        exists s1. split; [exact (auth_untouched_trans _ _ _ A A1)|].
        split; [rewrite P1; unfold sa; simpl; rewrite C; reflexivity|].
        split; [rewrite K1; unfold sa; simpl; rewrite C; reflexivity|].
        split; [intros F; apply F1; unfold sa; simpl; rewrite C; exact F|].
        split; [exact I1|].
        intros r s2 E. destruct (D1 r s2 E) as (s'' & E'' & A'').
        rewrite logging_in_session by exact Hp. unfold next_closure. fold sa.
        exists s''. split; [exact E'' | exact A''].
    + destruct (push_marks_ctx pre0 si) as (C & I & N & A).
      set (sa := set_next_calls (next_calls (push_marks pre0 si) ++ [i])
                   (push_marks pre0 si)).
      destruct (IH (S i) sa) as (s1 & A1 & P1 & K1 & F1 & I1 & D1).
      { unfold sa. simpl. rewrite I. simpl. lia. }
      exists s1. split; [exact (auth_untouched_trans _ _ _ A A1)|].
      split; [rewrite P1; unfold sa; simpl; rewrite C; reflexivity|].
      split; [rewrite K1; unfold sa; simpl; rewrite C; reflexivity|].
      split; [intros F; apply F1; unfold sa; simpl; rewrite C; exact F|].
      split; [exact I1|].
      intros r s2 E. destruct (D1 r s2 E) as (s'' & E'' & A'').
      rewrite exec_push_marks. simpl exec_script. unfold bind at 1.
      unfold exec_instr, next_closure. fold sa. rewrite E''.
      destruct r as [[]|e].
      * replace (map Push post0) with (map Push post0 ++ []) by apply app_nil_r.
        rewrite exec_push_marks. simpl. eexists. split; [reflexivity|].
        destruct (push_marks_ctx post0 s'') as (_ & _ & _ & A3).
        exact (auth_untouched_trans _ _ _ A'' A3).
      * exists s''. split; [reflexivity | exact A''].
Qed.

End Transparency.

Section Deciders.

Variable remote : string.

Lemma server_middleware_nonempty (chain : list MwSpec) :
  chain <> [] -> server_middleware chain = compose (map middleware_of chain).
Proof. destruct chain; [contradiction | reflexivity]. Qed.

(** An attempt through observers, one middleware that takes the decision
    [od], and observers again. *)
Lemma sandwich_outcome (user method : string) (k : option PublicKey)
  (mid : MwSpec) (od : option Decision) (pre post : list Passing) (w : World) :
  let c := transport_context user method k in
  let u := userinfo_of c in
  (forall next s,
      phase (ctx s) = auth -> clientKey (ctx s) = offered_key method k ->
      faithful_slots u (ctx s) ->
      exists s1, middleware_of mid next s = next s1
                 /\ decision_step u od (world s) (world s1)
                 /\ index s1 = index s) ->
  let chain := map passing_spec pre ++ mid :: map passing_spec post in
  attempt_outcome u od w (on_authentication chain remote c w)
  /\ fst (handleAuth chain (wrap_accept c) remote w)
     = Ok (match od with Some DAccept => Some u | _ => None end).
Proof.
  intros c u Hmid chain.
  unfold on_authentication, handleAuth.
  set (T := default_reject (wrap_accept c)).
  match goal with |- context [server_middleware chain T ?s0] => set (st0 := s0) end.
  assert (F0 : faithful_slots u (ctx st0)).
  { split; eexists; (split; [reflexivity|]); intros; repeat split. }
  assert (E : exists s',
             server_middleware chain T st0 = (Ok tt, s')
             /\ attempt_outcome u od w (world s')
             /\ accepted (world s')
                = match od with Some DAccept => true | _ => false end).
  { rewrite server_middleware_nonempty by (unfold chain; destruct pre; discriminate).
    unfold chain, compose. rewrite map_app. simpl map.
    set (sc := enter_frame st0). set (T' := in_caller_frame T).
    destruct (passing_transparent u
                (middleware_of mid :: map middleware_of (map passing_spec post)) T'
                pre 0 sc) as (s1 & A1 & P1 & K1 & F1 & I1 & D1); [simpl; lia|].
    simpl Nat.add in *.
    (* the deciding middleware *)
    set (n := List.length pre) in *.
    rewrite dispatch_enter in D1 by exact I1.
    destruct (Hmid (next_closure n (dispatch (map middleware_of (map passing_spec post))
                                      T' (S n)))
                (set_index (Z.of_nat n) s1))
      as (sm & Em & Dm & Im);
      [ simpl; rewrite P1; reflexivity
      | simpl; rewrite K1; reflexivity
      | apply F1; exact F0 |].
    rewrite Em in D1. unfold next_closure in D1.
    (* the observers below it *)
    set (sn := set_next_calls (next_calls sm ++ [n]) sm) in *.
    destruct (passing_transparent u [] T' post (S n) sn)
      as (s2 & A2 & _ & _ & _ & I2 & D2); [unfold sn; simpl; rewrite Im; simpl; lia|].
    rewrite app_nil_r in D2.
    rewrite dispatch_enter in D2 by exact I2.
    (* the terminal continuation *)
    set (st := set_index (Z.of_nat (S n + List.length post)) s2) in *.
    assert (Wm : decision_step u od (world s1) (world sm)) by exact Dm.
    destruct A1 as (T1 & E1 & Ac1 & R1 & U1).
    destruct A2 as (T2 & E2 & Ac2 & R2 & U2).
    change (world sn) with (world sm) in T2, E2, Ac2, R2, U2.
    change (transport (world sc)) with (transport w) in T1.
    change (emitted (world sc)) with (emitted w) in E1.
    change (accepted (world sc)) with false in Ac1.
    change (rejected (world sc)) with false in R1.
    change (authenticatedUser (world sc)) with (authenticatedUser w) in U1.
    assert (Tt : exists s3, T' st = (Ok tt, s3)
                   /\ attempt_outcome u od w (world s3)
                   /\ accepted (world s3)
                      = match od with Some DAccept => true | _ => false end).
    { unfold T'. rewrite in_caller_frame_blind by apply frame_blind_default_reject.
      unfold T, default_reject, bind, get_world, modify_world, ret.
      change (world st) with (world s2).
      destruct od as [[|ms]|]; simpl in Wm.
      - destruct Wm as (Tm & Am & Rm & Um & Emm).
        rewrite Ac2, Am. simpl. eexists. split; [reflexivity|].
        split; [|simpl; congruence].
        split; [simpl; congruence|]. simpl.
        repeat split; simpl; try congruence;
          rewrite T2, Tm, T1; reflexivity.
      - destruct Wm as (Tm & Am & Rm & Um & Emm).
        rewrite Ac2, R2, Am, Rm, Ac1. simpl.
        eexists. split; [reflexivity|].
        split; [|simpl; congruence].
        split; [simpl; congruence|]. simpl.
        repeat split; simpl; try congruence;
          rewrite T2, Tm, T1; reflexivity.
      - destruct Wm as (Tm & Emm & Am & Rm & Um).
        rewrite Ac2, R2, Am, Rm, Ac1, R1. simpl.
        eexists. split; [reflexivity|].
        split; [|simpl; congruence].
        split; [simpl; congruence|]. simpl.
        repeat split; simpl; try congruence;
          rewrite T2, Tm, T1; reflexivity. }
    destruct Tt as (s3 & E3 & O3 & Acc3).
    destruct (D2 _ _ E3) as (s4 & E4 & A4).
    destruct (D1 _ _ E4) as (s5 & E5 & A5).
    rewrite E5. exists (leave_frame s5). rewrite (proj1 (leave_frame_keeps s5)).
    split; [reflexivity|].
    pose proof (auth_untouched_trans _ _ _ A4 A5) as (T5 & Em5 & Ac5 & R5 & U5).
    destruct O3 as (Oe & Od).
    split; [|congruence].
    split; [congruence|].
    destruct od as [[|ms]|]; destruct Od as (Ot & Oa & Or & Ou);
      repeat split; congruence. }
  destruct E as (s' & E & O & Acc). rewrite E. cbv zeta. split; [exact O|].
  simpl. rewrite Acc. destruct od as [[|ms]|]; reflexivity.
Qed.

(** [devMode] accepts every attempt.  With [devMode] anywhere among [logging]
    layers and mark-only middlewares, every authentication attempt, whatever
    its user, method and key, ends with exactly one call on the transport,
    [accept()]: no reject, and no default reject.  The user is recorded, the
    dispatch resolves and [handleAuth] returns the user. *)
Theorem devMode_accepts_every_attempt (pre post : list Passing)
  (user method : string) (k : option PublicKey) (w : World) :
  let c := transport_context user method k in
  let chain := map passing_spec pre ++ DevMode :: map passing_spec post in
  let w' := on_authentication chain remote c w in
  transport w' = transport w ++ [TAccept]
  /\ accepted w' = true /\ rejected w' = false
  /\ authenticatedUser w' = Some (userinfo_of c)
  /\ emitted w' = emitted w
  /\ fst (handleAuth chain (wrap_accept c) remote w) = Ok (Some (userinfo_of c)).
Proof.
  intros c chain w'.
  destruct (sandwich_outcome user method k DevMode (Some DAccept) pre post w)
    as ((Em & Tr & Ac & Rj & Us) & Ha).
  - intros next s Hp Hk [(f & Hf & Ef) _]. simpl.
    unfold devMode, bind, get_ctx, modify_world, ret. rewrite Hp, Hf.
    exists (set_world (f (world s)) s). split; [reflexivity|].
    split; [apply Ef | reflexivity].
  - repeat split; assumption.
Qed.

(** One run of [publicKey] with the slots of [handleAuth]: it takes the
    decision [publicKey_decision] and calls [next]. *)
Lemma publicKey_step (keys : list AuthorizedKey) (user method : string)
  (k : option PublicKey) :
  let u := userinfo_of (transport_context user method k) in
  forall next s,
    phase (ctx s) = auth -> clientKey (ctx s) = offered_key method k ->
    faithful_slots u (ctx s) ->
    exists s1, middleware_of (PublicKeyAuth keys) next s = next s1
               /\ decision_step u (publicKey_decision keys (offered_key method k))
                    (world s) (world s1)
               /\ index s1 = index s.
Proof.
  intros u next s Hp Hk [(f & Hf & Ef) (g & Hg & Eg)]. simpl.
  unfold publicKey, bind, get_ctx. rewrite Hp, Hk.
  unfold publicKey_decision.
  destruct (offered_key method k) as [ck|].
  - destruct (matchesKey (algo ck) (data ck) keys).
    + unfold call_accept, bind, get_ctx, modify_world. rewrite Hf.
      exists (set_world (f (world s)) s). split; [reflexivity|].
      split; [apply Ef | reflexivity].
    + unfold call_reject, bind, get_ctx, modify_world. rewrite Hg.
      exists (set_world (g (Some ["publickey"]) (world s)) s).
      split; [reflexivity|]. split; [apply Eg | reflexivity].
  - exists s. split; [reflexivity|]. split; [repeat split | reflexivity].
Qed.

(** What [publicKey] decides.  With [publicKey] anywhere among [logging]
    layers and mark-only middlewares, an attempt ends with exactly one call
    on the transport.  For a publickey attempt it is [accept()] if some
    authorized key has the type and the data of the client key, and
    [reject(["publickey"])] with the [rejected] flag set otherwise.  For any
    other method [publicKey] decides nothing: the call is the default
    [reject(["publickey"])] and both flags stay false. *)
Theorem publicKey_decides_by_key (keys : list AuthorizedKey) (pre post : list Passing)
  (user method : string) (k : option PublicKey) (w : World) :
  let c := transport_context user method k in
  let chain := map passing_spec pre ++ PublicKeyAuth keys :: map passing_spec post in
  let w' := on_authentication chain remote c w in
  emitted w' = emitted w
  /\ match offered_key method k with
     | Some ck =>
         if matchesKey (algo ck) (data ck) keys
         then transport w' = transport w ++ [TAccept]
              /\ accepted w' = true /\ rejected w' = false
              /\ authenticatedUser w' = Some (userinfo_of c)
         else transport w' = transport w ++ [TReject (Some ["publickey"])]
              /\ accepted w' = false /\ rejected w' = true
              /\ authenticatedUser w' = authenticatedUser w
     | None =>
         transport w' = transport w ++ [TReject (Some ["publickey"])]
         /\ accepted w' = false /\ rejected w' = false
         /\ authenticatedUser w' = authenticatedUser w
     end.
Proof.
  intros c chain w'.
  destruct (sandwich_outcome user method k (PublicKeyAuth keys)
              (publicKey_decision keys (offered_key method k)) pre post w)
    as ((Em & Out) & _).
  - apply publicKey_step.
  - split; [exact Em|]. fold c chain w' in Out. unfold publicKey_decision in Out.
    destruct (offered_key method k) as [ck|]; [|exact Out].
    destruct (matchesKey (algo ck) (data ck) keys); exact Out.
Qed.

(** Each decision is one more call on the transport. *)
Lemma decisions_step_summary (u : UserInfo) (ds : list Decision) :
  forall w w', decisions_step u ds w w' ->
    transport w' = transport w ++ map call_of ds
    /\ accepted w' = accepted w || existsb is_accept ds
    /\ rejected w' = rejected w || existsb is_reject ds
    /\ emitted w' = emitted w
    /\ authenticatedUser w'
       = (if existsb is_accept ds then Some u else authenticatedUser w).
Proof.
  induction ds as [|d ds IH]; intros w w' H; simpl in H.
  - destruct H as (T & E & A & R & U). simpl.
    rewrite app_nil_r, !orb_false_r. repeat split; assumption.
  - destruct H as (w1 & H1 & H2). destruct (IH _ _ H2) as (T & A & R & E & U).
    simpl map. simpl existsb.
    destruct d as [|ms]; simpl in H1; destruct H1 as (T1 & A1 & R1 & U1 & E1);
      rewrite T, A, R, E, U, T1, A1, R1, E1, ?U1, <- app_assoc; simpl;
      rewrite ?orb_true_r, ?orb_false_r;
      repeat split; try reflexivity;
      destruct (existsb is_accept ds); reflexivity.
Qed.

(** One run of a body that takes the decisions [ds] and awaits [next], with
    the slots of [handleAuth]. *)
Lemma decider_step (u : UserInfo) (ds : list Decision) (next : NextFn) (s : St) :
  faithful_slots u (ctx s) ->
  exists s1, exec_script (decider ds) next s = next s1
             /\ decisions_step u ds (world s) (world s1)
             /\ index s1 = index s /\ next_calls s1 = next_calls s.
Proof.
  intros [(f & Hf & Ef) (g & Hg & Eg)]. unfold decider.
  rewrite (exec_decisions f g ds [AwaitNext] next s Hf Hg).
  exists (set_world (decisions_effect f g ds (world s)) s).
  split; [|split; [|split; reflexivity]].
  - simpl. unfold bind, ret.
    destruct (next _) as [[[]|e] s']; reflexivity.
  - simpl. generalize (world s). clear - Ef Eg.
    induction ds as [|d ds IH]; intros w.
    + apply (sr_refl _ auth_untouched_relation).
    + change (decisions_effect f g (d :: ds) w)
        with (decisions_effect f g ds (decision_effect f g d w)).
      exists (decision_effect f g d w). split; [|apply IH].
      destruct d as [|ms]; simpl; [apply Ef | apply Eg].
Qed.

(** An attempt through observers, one middleware that takes the decisions
    [ds] and then awaits [next], and observers again. *)
Lemma sandwich_decider (user method : string) (k : option PublicKey)
  (ds : list Decision) (pre post : list Passing) (w : World) :
  let c := transport_context user method k in
  let chain := map passing_spec pre ++ User (decider ds) :: map passing_spec post in
  let w' := on_authentication chain remote c w in
  transport w' =
    transport w ++ map call_of ds
    ++ match ds with [] => [TReject (Some ["publickey"])] | _ :: _ => [] end
  /\ accepted w' = existsb is_accept ds
  /\ rejected w' = existsb is_reject ds
  /\ emitted w' = emitted w.
Proof.
  intros c chain. set (u := userinfo_of c).
  cbv zeta. unfold on_authentication, handleAuth.
  set (T := default_reject (wrap_accept c)).
  match goal with |- context [server_middleware chain T ?s0] => set (st0 := s0) end.
  assert (F0 : faithful_slots u (ctx st0)).
  { split; eexists; (split; [reflexivity|]); intros; repeat split. }
  assert (E : exists s',
             server_middleware chain T st0 = (Ok tt, s')
             /\ transport (world s') =
                  transport w ++ map call_of ds
                  ++ match ds with [] => [TReject (Some ["publickey"])] | _ :: _ => [] end
             /\ accepted (world s') = existsb is_accept ds
             /\ rejected (world s') = existsb is_reject ds
             /\ emitted (world s') = emitted w).
  { rewrite server_middleware_nonempty by (unfold chain; destruct pre; discriminate).
    unfold chain, compose. rewrite map_app. simpl map.
    set (sc := enter_frame st0). set (T' := in_caller_frame T).
    destruct (passing_transparent u
                (exec_script (decider ds) :: map middleware_of (map passing_spec post)) T'
                pre 0 sc) as (s1 & A1 & P1 & K1 & F1 & I1 & D1); [simpl; lia|].
    simpl Nat.add in *.
    set (n := List.length pre) in *.
    rewrite dispatch_enter in D1 by exact I1.
    destruct (decider_step u ds
                (next_closure n (dispatch (map middleware_of (map passing_spec post))
                                      T' (S n)))
                (set_index (Z.of_nat n) s1))
      as (sm & Em & Dm & Im & _); [apply F1; exact F0|].
    rewrite Em in D1. unfold next_closure in D1.
    set (sn := set_next_calls (next_calls sm ++ [n]) sm) in *.
    destruct (passing_transparent u [] T' post (S n) sn)
      as (s2 & A2 & _ & _ & _ & I2 & D2); [unfold sn; simpl; rewrite Im; simpl; lia|].
    rewrite app_nil_r in D2.
    rewrite dispatch_enter in D2 by exact I2.
    set (st := set_index (Z.of_nat (S n + List.length post)) s2) in *.
    destruct (decisions_step_summary u ds _ _ Dm) as (Tm & Am & Rm & Emm & _).
    simpl world in Tm, Am, Rm, Emm.
    destruct A1 as (T1 & E1 & Ac1 & R1 & _).
    destruct A2 as (T2 & E2 & Ac2 & R2 & _).
    change (world sn) with (world sm) in T2, E2, Ac2, R2.
    change (transport (world sc)) with (transport w) in T1.
    change (emitted (world sc)) with (emitted w) in E1.
    change (accepted (world sc)) with false in Ac1.
    change (rejected (world sc)) with false in R1.
    rewrite Ac1 in Am. rewrite R1 in Rm. simpl in Am, Rm.
    assert (Tt : exists s3, T' st = (Ok tt, s3)
                   /\ transport (world s3) =
                        transport w ++ map call_of ds
                        ++ match ds with
                           | [] => [TReject (Some ["publickey"])]
                           | _ :: _ => []
                           end
                   /\ accepted (world s3) = existsb is_accept ds
                   /\ rejected (world s3) = existsb is_reject ds
                   /\ emitted (world s3) = emitted w).
    { unfold T'. rewrite in_caller_frame_blind by apply frame_blind_default_reject.
      unfold T, default_reject, bind, get_world, modify_world, ret.
      change (world st) with (world s2).
      rewrite Ac2, R2, Am, Rm.
      destruct ds as [|d ds'].
      - simpl. eexists. split; [reflexivity|]. simpl.
        rewrite T2, Tm, T1, Ac2, Am, R2, Rm, E2, Emm, E1. simpl.
        rewrite app_nil_r. repeat split; reflexivity.
      - assert (D : negb (existsb is_accept (d :: ds'))
                    && negb (existsb is_reject (d :: ds')) = false).
        { simpl. destruct d; simpl; rewrite ?andb_false_r; reflexivity. }
        rewrite D. eexists. split; [reflexivity|].
        change (world st) with (world s2).
        rewrite T2, Tm, T1, Ac2, Am, R2, Rm, E2, Emm, E1, app_nil_r.
        repeat split; reflexivity. }
    destruct Tt as (s3 & E3 & T3 & Ac3 & R3 & Em3).
    destruct (D2 _ _ E3) as (s4 & E4 & A4).
    destruct (D1 _ _ E4) as (s5 & E5 & A5).
    exists (leave_frame s5). rewrite (proj1 (leave_frame_keeps s5)).
    split;
      [exact (f_equal (fun rs : Result unit * St =>
                         let '(r, s') := rs in (r, leave_frame s')) E5)|].
    pose proof (auth_untouched_trans _ _ _ A4 A5) as (T5 & Em5 & Ac5 & R5 & _).
    repeat split; congruence. }
  destruct E as (s' & E & Tr & Ac & Rj & Em). rewrite E.
  repeat split; assumption.
Qed.

(** C7, as the code has it.  When one middleware takes the decisions [ds] and
    then awaits [next], with any [logging] layers and mark-only middlewares
    before and after it: every call of [ctx.accept] or [ctx.reject] reaches
    the transport, in call order, also after a decision has been recorded, so
    that [k] calls give [k] calls on the transport; the flags tell whether
    each capability was called at all; the terminal continuation adds its
    default reject only when [ds] is empty; the server emits nothing.  And a
    [logging] layer placed directly before that middleware has its
    [onAuthAttempt] hook invoked once, with the last decision. *)
Theorem decisions_forwarded_each_time (pre post : list Passing)
  (options : LoggingOptions) (ds : list Decision) (user method : string)
  (k : option PublicKey) (w : World) :
  (let w' := on_authentication
               (map passing_spec pre ++ User (decider ds) :: map passing_spec post)
               remote (transport_context user method k) w in
   transport w' =
     transport w ++ map call_of ds
     ++ match ds with [] => [TReject (Some ["publickey"])] | _ :: _ => [] end
   /\ accepted w' = existsb is_accept ds
   /\ rejected w' = existsb is_reject ds
   /\ emitted w' = emitted w)
  /\ (let w' := on_authentication [Logging options; User (decider ds)] remote
                  (transport_context user method k) w in
      observed w' =
        observed w
        ++ match onAuthAttempt options, last_decision ds with
           | Some hook, Some d => [AuthAttempt hook user (is_accept d)]
           | _, _ => []
           end).
Proof.
  split.
  - apply sandwich_decider.
  - apply (logging_sees_last_decision remote options ds user method k w).
Qed.

End Deciders.

Section LoggingPlacement.

Variable remote : string.

Lemma plain_decisions (u : UserInfo) (ds : list Decision) :
  forall w,
    let w' := decisions_effect (plain_accept u) plain_reject ds w in
    transport w' = transport w ++ map call_of ds
    /\ accepted w' = accepted w || existsb is_accept ds
    /\ rejected w' = rejected w || existsb is_reject ds
    /\ observed w' = observed w
    /\ authResult w' = authResult w.
Proof.
  induction ds as [|d ds IH]; intros w.
  - cbv zeta. unfold decisions_effect. simpl.
    rewrite app_nil_r, !orb_false_r. repeat split; reflexivity.
  - cbv zeta. unfold decisions_effect. simpl fold_left.
    fold (decisions_effect (plain_accept u) plain_reject ds
            (decision_effect (plain_accept u) plain_reject d w)).
    destruct (IH (decision_effect (plain_accept u) plain_reject d w))
      as (T & A & R & O & C).
    rewrite T, A, R, O, C.
    destruct d; simpl; rewrite <- app_assoc, ?orb_true_r, ?orb_false_r;
      repeat split; reflexivity.
Qed.

(** The store after an attempt handled by a decider followed by [logging]. *)
Lemma decider_then_logging (options : LoggingOptions) (ds : list Decision)
  (user method : string) (k : option PublicKey) (w : World) :
  let c := transport_context user method k in
  let w0 := set_rejected false (set_accepted false w) in
  let W := decisions_effect (plain_accept (userinfo_of c)) plain_reject ds w0 in
  let W1 := set_authResult (authResult W ++ [None]) W in
  on_authentication [User (decider ds); Logging options] remote c w
  = if negb (accepted W) && negb (rejected W)
    then native_reject (Some ["publickey"]) W1 else W1.
Proof.
  intros c w0 W W1.
  unfold on_authentication, handleAuth, server_middleware, compose.
  cbn [map middleware_of].
  rewrite dispatch_enter by (simpl; lia).
  unfold decider.
  rewrite (exec_decisions (plain_accept (userinfo_of c)) plain_reject)
    by reflexivity.
  unfold exec_script, exec_instr, bind at 1, next_closure at 1, ret.
  rewrite dispatch_enter by (simpl; lia).
  rewrite logging_auth by reflexivity.
  unfold next_closure.
  rewrite dispatch_enter by (simpl; lia).
  rewrite in_caller_frame_blind by apply frame_blind_default_reject.
  destruct (plain_decisions (userinfo_of c) ds w0) as (_ & _ & _ & _ & C).
  fold W in C.
  unfold default_reject, bind, get_world, modify_world, ret, logging_exit,
    logging_enter.
  simpl. fold w0. fold W.
  assert (N : nth (List.length (authResult W)) (authResult W ++ [None]) None
              = @None bool) by (rewrite nth_middle; reflexivity).
  destruct (negb (accepted W) && negb (rejected W)); simpl; rewrite N; reflexivity.
Qed.

(** [logging] must come first.  Placed after the middleware that decides, a
    [logging] layer wraps the capabilities when the decisions have already
    been taken: its [onAuthAttempt] hook is never invoked and nothing at all
    is observed, although the decisions reached the transport as usual. *)
Theorem logging_after_decider_sees_nothing (options : LoggingOptions)
  (ds : list Decision) (user method : string) (k : option PublicKey) (w : World) :
  let w' := on_authentication [User (decider ds); Logging options] remote
              (transport_context user method k) w in
  observed w' = observed w
  /\ transport w' =
       transport w ++ map call_of ds
       ++ match ds with [] => [TReject (Some ["publickey"])] | _ :: _ => [] end
  /\ accepted w' = existsb is_accept ds
  /\ rejected w' = existsb is_reject ds.
Proof.
  pose proof (decider_then_logging options ds user method k w) as E.
  cbv zeta in *. rewrite E. clear E.
  set (c := transport_context user method k).
  set (w0 := set_rejected false (set_accepted false w)).
  destruct (plain_decisions (userinfo_of c) ds w0) as (T & A & R & O & C).
  simpl in T, A, R, O, C.
  set (W := decisions_effect _ _ _ _) in *.
  clearbody W.
  rewrite A, R.
  destruct ds as [|d ds].
  - simpl. simpl in T, A, R. rewrite O, T, A, R, app_nil_r.
    repeat split; reflexivity.
  - assert (D : negb (existsb is_accept (d :: ds)) && negb (existsb is_reject (d :: ds))
                = false).
    { simpl. destruct d; simpl; rewrite ?andb_false_r; reflexivity. }
    rewrite D. cbn [observed transport accepted rejected set_authResult].
    rewrite O, T, A, R, app_nil_r. repeat split; reflexivity.
Qed.

End LoggingPlacement.


(* ========================================================================= *)
(** * The key strings of [publicKey] *)

Section KeyStrings.

Lemma append_empty_r (s : string) : (s ++ EmptyString)%string = s.
Proof. induction s as [|c r IH]; simpl; [|rewrite IH]; reflexivity. Qed.

Lemma split_space_nonempty (s : string) : split_space s <> [].
Proof.
  destruct s as [|c r]; simpl; [discriminate|].
  destruct (Ascii.eqb c " "); [discriminate|].
  destruct (split_space r); discriminate.
Qed.

Lemma split_space_no_space (s : string) :
  no_space s = true -> split_space s = [s].
Proof.
  induction s as [|c r IH]; simpl; [reflexivity|].
  destruct (Ascii.eqb c " "); simpl; [discriminate|].
  intros H. rewrite (IH H). reflexivity.
Qed.

Lemma split_space_app (t r : string) :
  no_space t = true ->
  split_space (t ++ String " " r)%string = t :: split_space r.
Proof.
  induction t as [|c t IH]; simpl.
  - reflexivity.
  - destruct (Ascii.eqb c " "); simpl; [discriminate|].
    intros H. rewrite (IH H). reflexivity.
Qed.

Lemma join_split (s : string) : join_space (split_space s) = s.
Proof.
  induction s as [|c r IH]; [reflexivity|].
  cbn [split_space].
  destruct (Ascii.eqb c " ") eqn:E.
  - apply Ascii.eqb_eq in E. subst c.
    pose proof (split_space_nonempty r) as N.
    destruct (split_space r) as [|p ps]; [congruence|].
    change (join_space (EmptyString :: p :: ps))
      with (String " " (join_space (p :: ps))).
    rewrite IH. reflexivity.
  - pose proof (split_space_nonempty r) as N.
    destruct (split_space r) as [|p ps]; [congruence|].
    destruct ps as [|q qs]; simpl in *; rewrite <- IH; reflexivity.
Qed.

Lemma split_space_fields (s : string) :
  forall p ps, split_space s = p :: ps ->
  no_space p = true /\ Forall (fun q => no_space q = true) ps.
Proof.
  induction s as [|c r IH]; simpl; intros p ps H.
  - inversion H. split; [reflexivity | constructor].
  - destruct (Ascii.eqb c " ") eqn:E.
    + inversion H; subst. split; [reflexivity|].
      pose proof (split_space_nonempty r) as N.
      destruct (split_space r) as [|q qs]; [congruence|].
      destruct (IH q qs eq_refl). constructor; assumption.
    + pose proof (split_space_nonempty r) as N.
      destruct (split_space r) as [|q qs]; [congruence|].
      destruct (IH q qs eq_refl) as [Hq Hqs].
      inversion H; subst. simpl. rewrite E, Hq. split; [reflexivity | assumption].
Qed.

Lemma field_tail_join (ps : list string) :
  field_tail (match ps with
              | [] => EmptyString
              | _ :: _ => String " " (join_space ps)
              end).
Proof.
  destruct ps; [left; reflexivity | right; eexists; reflexivity].
Qed.

(** A key string is its first two fields followed by a tail. *)
Lemma parse_key_string_shape (s : string) (ak : AuthorizedKey) :
  parse_key_string s = Some ak ->
  no_space (key_type ak) = true /\ no_space (key ak) = true
  /\ exists rest, field_tail rest
       /\ s = (key_type ak ++ String " " (key ak ++ rest))%string.
Proof.
  unfold parse_key_string. intros H.
  pose proof (join_split s) as J.
  destruct (split_space s) as [|t [|k ps]] eqn:E; try discriminate.
  inversion H; subst ak; clear H. cbn [key_type key].
  destruct (split_space_fields s _ _ E) as [Ht Hk].
  inversion Hk as [|? ? Hk1 Hk2]. clear Hk.
  split; [assumption|]. split; [assumption|].
  exists (match ps with [] => EmptyString | _ :: _ => String " " (join_space ps) end).
  split; [apply field_tail_join|].
  rewrite <- J.
  destruct ps as [|q qs].
  - simpl. rewrite append_empty_r. reflexivity.
  - reflexivity.
Qed.

End KeyStrings.


Section AuthorizedStrings.

Variable remote : string.

(** The fields of a configured key string.  A string made of a type and a key
    without spaces, followed by nothing or by a space and a comment, is parsed
    into that type and that key; the comment is what follows the second
    space, spaces included, and is absent when nothing or only the space
    follows. *)
Theorem parse_key_string_fields (t d rest : string)
  (Ht : no_space t = true) (Hd : no_space d = true) (Hrest : field_tail rest) :
  parse_key_string (t ++ String " " (d ++ rest))%string
  = Some {| key_type := t; key := d;
            comment := match rest with
                       | EmptyString => None
                       | String _ r => or_undefined r
                       end |}.
Proof.
  unfold parse_key_string.
  rewrite (split_space_app t _ Ht).
  destruct Hrest as [-> | [r ->]].
  - rewrite append_empty_r, (split_space_no_space d Hd). reflexivity.
  - rewrite (split_space_app d r Hd), join_split. reflexivity.
Qed.

(** A configured string is dropped exactly when it holds no space. *)
Theorem parse_key_string_drops (keyStr : string) :
  parse_key_string keyStr = None <-> no_space keyStr = true.
Proof.
  unfold parse_key_string. split.
  - intros H. pose proof (join_split keyStr) as J.
    pose proof (split_space_nonempty keyStr) as N.
    destruct (split_space keyStr) as [|p [|q qs]] eqn:E;
      [congruence | | discriminate].
    destruct (split_space_fields keyStr _ _ E) as [Hp _].
    simpl in J. rewrite <- J. exact Hp.
  - intros H. rewrite (split_space_no_space keyStr H). reflexivity.
Qed.

Lemma parsedAuthorizedKeys_In (authorizedKeys : list string) (ak : AuthorizedKey) :
  In ak (parsedAuthorizedKeys authorizedKeys)
  <-> exists keyStr, In keyStr authorizedKeys /\ parse_key_string keyStr = Some ak.
Proof.
  induction authorizedKeys as [|s l IH]; simpl.
  - split; [tauto | intros (? & [] & _)].
  - destruct (parse_key_string s) as [a|] eqn:E; simpl; rewrite IH; clear IH.
    + split.
      * intros [-> | (x & Hx & Px)]; [exists s; auto | exists x; auto].
      * intros (x & [-> | Hx] & Px); [left; congruence | right; exists x; auto].
    + split.
      * intros (x & Hx & Px). exists x; auto.
      * intros (x & [-> | Hx] & Px); [congruence | exists x; auto].
Qed.

Lemma matchesKey_listed (t d : string) (authorizedKeys : list string) :
  matchesKey t d (parsedAuthorizedKeys authorizedKeys) = true
  <-> no_space t = true /\ no_space d = true
      /\ exists rest, field_tail rest
           /\ In (t ++ String " " (d ++ rest))%string authorizedKeys.
Proof.
  unfold matchesKey. rewrite existsb_exists. split.
  - intros (ak & Hin & Hm).
    apply andb_true_iff in Hm. destruct Hm as [Et Ed].
    apply String.eqb_eq in Et. apply String.eqb_eq in Ed.
    apply parsedAuthorizedKeys_In in Hin. destruct Hin as (s & Hs & Ps).
    destruct (parse_key_string_shape s ak Ps) as (Nt & Nd & rest & Hr & Es).
    rewrite Et in *. rewrite Ed in *.
    split; [exact Nt|]. split; [exact Nd|].
    exists rest. split; [exact Hr|]. rewrite <- Es. exact Hs.
  - intros (Nt & Nd & rest & Hr & Hin).
    assert (P : exists c, parse_key_string (t ++ String " " (d ++ rest))%string
                          = Some {| key_type := t; key := d; comment := c |}).
    { unfold parse_key_string.
      rewrite (split_space_app t _ Nt).
      destruct Hr as [-> | [r ->]].
      - rewrite append_empty_r, (split_space_no_space d Nd). eexists; reflexivity.
      - rewrite (split_space_app d r Nd). eexists; reflexivity. }
    destruct P as [c P].
    exists {| key_type := t; key := d; comment := c |}. split.
    + apply parsedAuthorizedKeys_In. eexists. split; [exact Hin | exact P].
    + cbn [key_type key]. rewrite !String.eqb_refl. reflexivity.
Qed.

(** Which keys [publicKey({ authorizedKeys })] lets in.  A publickey attempt
    is accepted exactly when the type and the base64 data of the client key
    hold no space and some configured string is that type, a space, that
    data, and then nothing or a space and anything.  Fields are cut at single
    spaces only: a string with two spaces between type and key authorizes
    nothing but a client key whose data is empty. *)
Theorem publicKey_accepts_listed_strings (authorizedKeys : list string)
  (user : string) (ck : PublicKey) (w : World) :
  let w' := on_authentication [publicKey_of_strings authorizedKeys] remote
              (transport_context user "publickey" (Some ck)) w in
  (accepted w' = true
   <-> no_space (algo ck) = true /\ no_space (data ck) = true
       /\ exists rest, field_tail rest
            /\ In (algo ck ++ String " " (data ck ++ rest))%string authorizedKeys)
  /\ (accepted w' = false
      -> transport w' = transport w ++ [TReject (Some ["publickey"])]).
Proof.
  intros w'.
  destruct (sandwich_outcome remote user "publickey" (Some ck)
              (PublicKeyAuth (parsedAuthorizedKeys authorizedKeys))
              (publicKey_decision (parsedAuthorizedKeys authorizedKeys)
                 (offered_key "publickey" (Some ck))) [] [] w)
    as ((_ & Out) & _).
  - apply publicKey_step.
  - change (on_authentication _ remote _ w) with w' in Out.
    rewrite <- matchesKey_listed.
    change (offered_key "publickey" (Some ck)) with (Some ck) in Out.
    unfold publicKey_decision in Out.
    destruct (matchesKey (algo ck) (data ck) (parsedAuthorizedKeys authorizedKeys)).
    + destruct Out as (_ & A & _). rewrite A.
      split; [tauto | discriminate].
    + destruct Out as (T & A & _). rewrite A.
      split; [split; discriminate | intros _; exact T].
Qed.

End AuthorizedStrings.

Lemma parse_key_string_fields_witness :
  parse_key_string "ssh-ed25519 AAAAC3Nz user@host laptop"
  = Some {| key_type := "ssh-ed25519"; key := "AAAAC3Nz";
            comment := Some "user@host laptop" |}.
Proof.
  apply (parse_key_string_fields "ssh-ed25519" "AAAAC3Nz" " user@host laptop").
  - reflexivity.
  - reflexivity.
  - right. eexists. reflexivity.
Defined.


(* ===================================================================== *)
(** * A composed middleware as a member of a chain *)

Section Nesting.

(** Onion layers around an inner dispatch, for any marks.  [P] is what is
    known of the waiting frames on the way in, [Q] on the way out: the layers
    do not touch them. *)
Lemma dispatch_onions (P Q : list Z -> Prop) (mid : list Obs)
  (tail : list Middleware) (next : NextFn) :
  forall (labels : list nat) (i : nat),
    (forall s1, (index s1 < Z.of_nat (i + List.length labels))%Z -> P (frames s1) ->
       exists s2, dispatch tail next (i + List.length labels) s1 = (Ok tt, s2)
                  /\ observed (world s2) = observed (world s1) ++ mid
                  /\ Q (frames s2)) ->
    forall s, (index s < Z.of_nat i)%Z -> P (frames s) ->
      exists s', dispatch (onions labels ++ tail) next i s = (Ok tt, s')
                 /\ observed (world s') =
                      observed (world s) ++ befores labels ++ mid ++ afters labels
                 /\ Q (frames s').
Proof.
  induction labels as [|l labels IH]; intros i Hin s Hs Hp.
  - simpl. rewrite Nat.add_0_r in Hin. destruct (Hin s Hs Hp) as (s2 & E & O & Hq).
    exists s2. split; [exact E|]. split; [|exact Hq].
    rewrite O. unfold afters. simpl. rewrite app_nil_r. reflexivity.
  - change (onions (l :: labels) ++ tail)
      with (exec_script (onion l) :: (onions labels ++ tail)).
    rewrite dispatch_enter by exact Hs.
    assert (Hin' : forall s1, (index s1 < Z.of_nat (S i + List.length labels))%Z ->
              P (frames s1) ->
              exists s2, dispatch tail next (S i + List.length labels) s1 = (Ok tt, s2)
                         /\ observed (world s2) = observed (world s1) ++ mid
                         /\ Q (frames s2)).
    { intros s1 H1. replace (S i + List.length labels)
        with (i + List.length (l :: labels)) by (simpl; lia).
      apply Hin. replace (i + List.length (l :: labels))
        with (S i + List.length labels) by (simpl; lia). exact H1. }
    set (s1 := set_next_calls (next_calls s ++ [i])
                 (push_mark (Before l) (set_index (Z.of_nat i) s))).
    destruct (IH (S i) Hin' s1) as (s2 & E & O & Hq).
    { unfold s1. simpl. lia. }
    { exact Hp. }
    exists (push_mark (After l) s2).
    split; [apply exec_onion_ok; unfold next_closure; exact E|].
    split; [|exact Hq].
    simpl. rewrite O. unfold s1, befores, afters. simpl.
    rewrite map_app. simpl. repeat rewrite <- app_assoc. reflexivity.
Qed.

(** Nesting is transparent.  A composed middleware used as a member of
    another chain runs as if its own members stood in its place: with onion
    layers [a] before it, [b] inside it and [c] after it, one dispatch pushes
    the before-marks of [a], [b] and [c] in that order, runs the terminal
    continuation once, and pushes the after-marks in the reverse order.  The
    inner invocation counts its own members from zero and does not disturb
    the count of the outer one. *)
Theorem nested_compose_onion_order (a b c : list nat) (s : St) :
  exists s',
    compose (onions a ++ compose (onions b) :: onions c) push_final s = (Ok tt, s')
    /\ observed (world s') =
         observed (world s) ++ befores (a ++ b ++ c) ++ [Pushed Final]
         ++ afters (a ++ b ++ c).
Proof.
  set (F := index s :: frames s).
  set (next' := in_caller_frame push_final).
  set (na := List.length a).
  assert (Hc : forall s3, (index s3 < Z.of_nat (S na))%Z -> frames s3 = F ->
             exists s4, dispatch (onions c ++ []) next' (S na) s3 = (Ok tt, s4)
                        /\ observed (world s4) =
                             observed (world s3) ++ befores c ++ [Pushed Final] ++ afters c
                        /\ frames s4 = F).
  { apply (dispatch_onions (fun f => f = F) (fun f => f = F) [Pushed Final] [] next' c).
    intros s1 H1 F1. rewrite dispatch_enter by exact H1.
    unfold next'. rewrite in_caller_frame_blind by exact frame_blind_push_final.
    eexists. split; [reflexivity|]. split; [reflexivity | exact F1]. }
  rewrite app_nil_r in Hc.
  assert (Hb : forall s1, (index s1 < Z.of_nat na)%Z -> frames s1 = F ->
             exists s2, dispatch (compose (onions b) :: onions c) next' na s1 = (Ok tt, s2)
                        /\ observed (world s2) =
                             observed (world s1)
                             ++ (befores b ++ (befores c ++ [Pushed Final] ++ afters c)
                                 ++ afters b)
                        /\ frames s2 = F).
  { intros s1 H1 F1. rewrite dispatch_enter by exact H1.
    set (NC := next_closure na (dispatch (onions c) next' (S na))).
    set (s1a := set_index (Z.of_nat na) s1).
    destruct (dispatch_onions (fun f => f = Z.of_nat na :: F)
                (fun f => exists o, f = o :: F)
                (befores c ++ [Pushed Final] ++ afters c) [] (in_caller_frame NC) b 0)
      with (s := enter_frame s1a) as (s2 & E & O & (o & Fo)).
    - intros s3 H3 F3. rewrite dispatch_enter by exact H3.
      unfold in_caller_frame. simpl frames. rewrite F3.
      unfold NC at 1, next_closure.
      match goal with |- context [dispatch (onions c) next' (S na) ?x] =>
        destruct (Hc x) as (s4 & E4 & O4 & F4); [simpl; lia | reflexivity |];
        rewrite E4
      end.
      eexists. split; [reflexivity|]. simpl. split; [exact O4|].
      exists (index s4). rewrite F4. reflexivity.
    - simpl. lia.
    - unfold s1a. simpl. rewrite F1. reflexivity.
    - rewrite app_nil_r in E. unfold compose. fold s1a. rewrite E.
      exists (leave_frame s2). split; [reflexivity|].
      unfold leave_frame. rewrite Fo. simpl. split; [|reflexivity].
      rewrite O. reflexivity. }
  unfold compose at 1.
  destruct (dispatch_onions (fun f => f = F) (fun f => f = F)
              (befores b ++ (befores c ++ [Pushed Final] ++ afters c) ++ afters b)
              (compose (onions b) :: onions c) next' a 0)
    with (s := enter_frame s) as (s' & E & O & F');
    [exact Hb | simpl; lia | reflexivity |].
  fold next'. rewrite E. exists (leave_frame s'). split; [reflexivity|].
  rewrite (proj1 (leave_frame_keeps s')), O. simpl world.
  unfold befores, afters. rewrite !rev_app_distr, !map_app.
  repeat rewrite <- app_assoc. reflexivity.
Qed.

End Nesting.
